(** * A shallow embedding of PulseAudio's asynchronous message queue

    Source: src/pulsecore/asyncmsgq.c (pa_asyncmsgq_* ) and the
    readiness callback [asyncmsgq_cb] of src/pulsecore/core.c.

    Pointers are natural numbers; [None] stands for NULL where the C code
    tests a pointer.  The item records live in a total memory [mem]
    (freeing a record does not erase its bytes, it only logs the free).
    The effects on collaborators that are not part of the queue (refcount
    changes, [free_cb] calls, semaphore posts, frees) are recorded in an
    event log.  An assertion failure ([pa_assert]) is the result [Abort];
    a thread that would block (full queue on push, empty queue on a waiting
    pop, a semaphore at zero) is the result [Blocked]. *)

From Stdlib Require Import ZArith List Bool Lia Permutation.
Import ListNotations.

Open Scope Z_scope.

(** ** Data model *)

(** [pa_memchunk]: block pointer, index, length. *)
Record memchunk := mkMemchunk {
  memblock : option nat;
  mc_index : Z;
  mc_length : Z
}.

(** [pa_memchunk_reset] *)
Definition memchunk_reset : memchunk :=
  {| memblock := None; mc_index := 0; mc_length := 0 |}.

(** [struct asyncmsgq_item] *)
Record asyncmsgq_item := mkItem {
  code : Z;
  object : option nat;
  userdata : nat;
  free_cb : option nat;
  offset : Z;
  memchunk_ : memchunk;
  semaphore : option nat;
  ret : Z
}.

Definition set_ret (i : asyncmsgq_item) (r : Z) : asyncmsgq_item :=
  {| code := code i; object := object i; userdata := userdata i;
     free_cb := free_cb i; offset := offset i; memchunk_ := memchunk_ i;
     semaphore := semaphore i; ret := r |}.

(** Effects on collaborators, in the order they happen. [EvDone] is a
    ghost event: it records that [pa_asyncmsgq_done] completed the item
    at the given address with the given return value. *)
Inductive event :=
| EvDone (i : nat) (r : Z)
| EvFreeCb (cb : nat) (ud : nat)
| EvObjRef (o : nat)
| EvObjUnref (o : nat)
| EvBlockRef (b : nat)
| EvBlockUnref (b : nat)
| EvXfree (i : nat)
| EvSemPost (sm : nat)
| EvSemFree (sm : nat)
| EvAsyncqFree
| EvMutexFree
| EvMsgqFree.

(** The process state as far as the queue is concerned: the item records,
    the [pa_asyncq] contents (FIFO, head first) and capacity, the
    [current] field of [struct pa_asyncmsgq], the static free list, the
    semaphores, the refcounts of message objects and memory blocks, and
    the event log. *)
Record state := mkState {
  mem : nat -> asyncmsgq_item;
  next_ptr : nat;
  q : list nat;
  q_cap : nat;
  q_fd : Z;
  current : option nat;
  flist : list nat;
  sems : nat -> nat;
  next_sem : nat;
  objref : nat -> Z;
  blockref : nat -> Z;
  log : list event
}.

(** Capacity of a static free list declared with size 0 ([FLIST_SIZE]). *)
Definition FLIST_SIZE : nat := 128.

Definition upd {A} (f : nat -> A) (k : nat) (v : A) : nat -> A :=
  fun x => if Nat.eqb x k then v else f x.

Definition is_some {A} (o : option A) : bool :=
  match o with Some _ => true | None => false end.
Definition is_none {A} (o : option A) : bool := negb (is_some o).

(** ** A state and assertion monad *)

Inductive res (A : Type) :=
| Ok (a : A)
| Abort
| Blocked.
Arguments Ok {A} a.
Arguments Abort {A}.
Arguments Blocked {A}.

Definition M (A : Type) := state -> res (A * state).

Definition mret {A} (a : A) : M A := fun s => Ok (a, s).

Definition mbind {A B} (m : M A) (k : A -> M B) : M B :=
  fun s => match m s with
           | Ok (a, s') => k a s'
           | Abort => Abort
           | Blocked => Blocked
           end.

Notation "x <- m ;; k" := (mbind m (fun x => k))
  (at level 61, m at next level, right associativity).
Notation "m ;;; k" := (mbind m (fun _ => k))
  (at level 61, right associativity).

Definition modify (f : state -> state) : M unit := fun s => Ok (tt, f s).
Definition gets {A} (f : state -> A) : M A := fun s => Ok (f s, s).

(** [pa_assert] *)
Definition pa_assert (b : bool) : M unit :=
  fun s => if b then Ok (tt, s) else Abort.

Definition emit (e : event) : M unit :=
  modify (fun s => {| mem := mem s; next_ptr := next_ptr s; q := q s;
    q_cap := q_cap s; q_fd := q_fd s; current := current s; flist := flist s;
    sems := sems s; next_sem := next_sem s; objref := objref s;
    blockref := blockref s; log := log s ++ [e] |}).

Definition set_mem (m : nat -> asyncmsgq_item) (np : nat) : M unit :=
  modify (fun s => {| mem := m; next_ptr := np; q := q s;
    q_cap := q_cap s; q_fd := q_fd s; current := current s; flist := flist s;
    sems := sems s; next_sem := next_sem s; objref := objref s;
    blockref := blockref s; log := log s |}).

Definition set_q (l : list nat) : M unit :=
  modify (fun s => {| mem := mem s; next_ptr := next_ptr s; q := l;
    q_cap := q_cap s; q_fd := q_fd s; current := current s; flist := flist s;
    sems := sems s; next_sem := next_sem s; objref := objref s;
    blockref := blockref s; log := log s |}).

Definition set_current (c : option nat) : M unit :=
  modify (fun s => {| mem := mem s; next_ptr := next_ptr s; q := q s;
    q_cap := q_cap s; q_fd := q_fd s; current := c; flist := flist s;
    sems := sems s; next_sem := next_sem s; objref := objref s;
    blockref := blockref s; log := log s |}).

Definition set_flist (l : list nat) : M unit :=
  modify (fun s => {| mem := mem s; next_ptr := next_ptr s; q := q s;
    q_cap := q_cap s; q_fd := q_fd s; current := current s; flist := l;
    sems := sems s; next_sem := next_sem s; objref := objref s;
    blockref := blockref s; log := log s |}).

Definition set_sems (f : nat -> nat) (ns : nat) : M unit :=
  modify (fun s => {| mem := mem s; next_ptr := next_ptr s; q := q s;
    q_cap := q_cap s; q_fd := q_fd s; current := current s; flist := flist s;
    sems := f; next_sem := ns; objref := objref s;
    blockref := blockref s; log := log s |}).

Definition set_refs (fo fb : nat -> Z) : M unit :=
  modify (fun s => {| mem := mem s; next_ptr := next_ptr s; q := q s;
    q_cap := q_cap s; q_fd := q_fd s; current := current s; flist := flist s;
    sems := sems s; next_sem := next_sem s; objref := fo;
    blockref := fb; log := log s |}).

(** ** Collaborators *)

(** [pa_xnew(struct asyncmsgq_item, 1)], and the stack slot of a local
    [struct asyncmsgq_item]: a fresh address. *)
Definition xnew : M nat :=
  n <- gets next_ptr;;
  m <- gets mem;;
  set_mem m (S n) ;;;
  mret n.

Definition read_item (i : nat) : M asyncmsgq_item :=
  gets (fun s => mem s i).

Definition write_item (i : nat) (it : asyncmsgq_item) : M unit :=
  m <- gets mem;;
  n <- gets next_ptr;;
  set_mem (upd m i it) n.

(** [pa_xfree] of an item record. *)
Definition xfree (i : nat) : M unit := emit (EvXfree i).

(** Modelled from the spec: [pa_flist_pop] (pulsecore/flist.c is not part
    of the sources).  Section 4.2: a record from the list, NULL when the
    list is empty. *)
Definition flist_pop : M (option nat) :=
  l <- gets flist;;
  match l with
  | [] => mret None
  | i :: rest => set_flist rest ;;; mret (Some i)
  end.

(** Modelled from the spec: [pa_flist_push].  Section 4.2: the list is
    bounded; 0 on success, -1 when the list is full. *)
Definition flist_push (i : nat) : M Z :=
  l <- gets flist;;
  if Nat.ltb (length l) FLIST_SIZE
  then set_flist (i :: l) ;;; mret 0
  else mret (-1).

Definition msgobject_ref (o : nat) : M unit :=
  fo <- gets objref;; fb <- gets blockref;;
  set_refs (upd fo o (fo o + 1)) fb ;;; emit (EvObjRef o).

Definition msgobject_unref (o : nat) : M unit :=
  fo <- gets objref;; fb <- gets blockref;;
  set_refs (upd fo o (fo o - 1)) fb ;;; emit (EvObjUnref o).

(** [pa_msgobject_assert_ref]: the refcount is positive. *)
Definition msgobject_assert_ref (o : nat) : M unit :=
  fo <- gets objref;; pa_assert (0 <? fo o).

Definition memblock_ref (b : nat) : M unit :=
  fo <- gets objref;; fb <- gets blockref;;
  set_refs fo (upd fb b (fb b + 1)) ;;; emit (EvBlockRef b).

Definition memblock_unref (b : nat) : M unit :=
  fo <- gets objref;; fb <- gets blockref;;
  set_refs fo (upd fb b (fb b - 1)) ;;; emit (EvBlockUnref b).

(** Calling a [pa_free_cb_t] on its argument. *)
Definition call_free_cb (cb : nat) (ud : nat) : M unit := emit (EvFreeCb cb ud).

(** Modelled from the spec: [pa_semaphore_new(0)] (pulsecore/semaphore.c
    is not part of the sources): a fresh semaphore with count 0. *)
Definition semaphore_new : M nat :=
  f <- gets sems;; n <- gets next_sem;;
  set_sems (upd f n O) (S n) ;;; mret n.

Definition semaphore_post (sm : nat) : M unit :=
  f <- gets sems;; n <- gets next_sem;;
  set_sems (upd f sm (S (f sm))) n ;;; emit (EvSemPost sm).

(** Modelled from the spec: [pa_semaphore_wait]: the caller blocks while
    the count is zero, then decrements it. *)
Definition semaphore_wait (sm : nat) : M unit :=
  fun s => match sems s sm with
           | O => Blocked
           | S c => Ok (tt, {| mem := mem s; next_ptr := next_ptr s; q := q s;
               q_cap := q_cap s; q_fd := q_fd s; current := current s;
               flist := flist s; sems := upd (sems s) sm c;
               next_sem := next_sem s; objref := objref s;
               blockref := blockref s; log := log s |})
           end.

Definition semaphore_free (sm : nat) : M unit := emit (EvSemFree sm).

(** [pa_mutex_lock] / [pa_mutex_unlock]: each operation of this model is one
    atomic step, so the writer mutex has no effect of its own here. *)
Definition mutex_lock : M unit := mret tt.
Definition mutex_unlock : M unit := mret tt.

(** Modelled from the spec: [pa_asyncq_push] (pulsecore/asyncq.c is not
    part of the sources).  Section 4.1: enqueue at the tail; when the queue
    is full, block if [wait] is set and fail otherwise; 0 on success. *)
Definition asyncq_push (i : nat) (wait : bool) : M Z :=
  l <- gets q;; cap <- gets q_cap;;
  if Nat.ltb (length l) cap then set_q (l ++ [i]) ;;; mret 0
  else if wait then (fun _ => Blocked) else mret (-1).

(** Modelled from the spec: [pa_asyncq_pop].  Section 4.1: dequeue the
    head; on an empty queue block if [wait] is set, otherwise NULL. *)
Definition asyncq_pop (wait : bool) : M (option nat) :=
  l <- gets q;;
  match l with
  | i :: rest => set_q rest ;;; mret (Some i)
  | [] => if wait then (fun _ => Blocked) else mret None
  end.

(** Modelled from the spec: [pa_asyncq_before_poll].  Section 4.1: 0 when
    the queue is verifiably empty (the descriptor is then armed), nonzero
    when an item was observed. *)
Definition asyncq_before_poll : M Z :=
  l <- gets q;;
  match l with [] => mret 0 | _ :: _ => mret 1 end.

(** Modelled from the spec: [pa_asyncq_after_poll] only consumes pending
    readiness notifications of the descriptor; the queue contents are not
    affected. *)
Definition asyncq_after_poll : M unit := mret tt.

(** Modelled from the spec: [pa_asyncq_get_fd]. *)
Definition asyncq_get_fd : M Z := gets q_fd.

Definition pa_asyncmsgq_get_fd : M Z := asyncq_get_fd.
Definition pa_asyncmsgq_before_poll : M Z := asyncq_before_poll.
Definition pa_asyncmsgq_after_poll : M unit := asyncq_after_poll.

(** ** The message queue *)

(** [pa_asyncmsgq_post] *)
Definition pa_asyncmsgq_post (obj : option nat) (c : Z) (ud : nat) (off : Z)
    (chunk : option memchunk) (cb : option nat) : M unit :=
  o <- flist_pop;;
  i <- (match o with Some i => mret i | None => xnew end);;
  iobj <- (match obj with
           | Some ob => msgobject_ref ob ;;; mret (Some ob)
           | None => mret None
           end);;
  mc <- (match chunk with
         | Some ch =>
             pa_assert (is_some (memblock ch)) ;;;
             (match memblock ch with Some b => memblock_ref b | None => mret tt end) ;;;
             mret ch
         | None => mret memchunk_reset
         end);;
  old <- read_item i;;
  write_item i {| code := c; object := iobj; userdata := ud; free_cb := cb;
                  offset := off; memchunk_ := mc; semaphore := None;
                  ret := ret old |} ;;;
  mutex_lock ;;;
  r <- asyncq_push i true;;
  pa_assert (r =? 0) ;;;
  mutex_unlock.

(** [pa_asyncmsgq_send] up to [pa_semaphore_wait]: the local item gets a
    fresh stack address, which is returned so that the sender thread can
    resume with [send_finish]. *)
Definition send_start (obj : option nat) (c : Z) (ud : nat) (off : Z)
    (chunk : option memchunk) : M nat :=
  i <- xnew;;
  mc <- (match chunk with
         | Some ch => pa_assert (is_some (memblock ch)) ;;; mret ch
         | None => mret memchunk_reset
         end);;
  sm <- semaphore_new;;
  write_item i {| code := c; object := obj; userdata := ud; free_cb := None;
                  offset := off; memchunk_ := mc; semaphore := Some sm;
                  ret := -1 |} ;;;
  mutex_lock ;;;
  r <- asyncq_push i true;;
  pa_assert (r =? 0) ;;;
  mutex_unlock ;;;
  mret i.

(** The rest of [pa_asyncmsgq_send]: wait on [i.semaphore], free it and
    return [i.ret]. *)
Definition send_finish (i : nat) : M Z :=
  it <- read_item i;;
  match semaphore it with
  | None => fun _ => Abort
  | Some sm =>
      semaphore_wait sm ;;;
      semaphore_free sm ;;;
      it' <- read_item i;;
      mret (ret it')
  end.

Definition pa_asyncmsgq_send (obj : option nat) (c : Z) (ud : nat) (off : Z)
    (chunk : option memchunk) : M Z :=
  i <- send_start obj c ud off chunk;;
  send_finish i.

(** Which out-pointers of [pa_asyncmsgq_get] are non-NULL. *)
Record outptrs := mkOutptrs {
  p_object : bool;
  p_code : bool;
  p_userdata : bool;
  p_offset : bool;
  p_chunk : bool
}.

(** The caller's variables the out-pointers point to. *)
Record outvals := mkOutvals {
  v_object : option nat;
  v_code : Z;
  v_userdata : nat;
  v_offset : Z;
  v_chunk : memchunk
}.

Definition all_ptrs : outptrs := mkOutptrs true true true true true.

(** Uninitialised locals of a caller. *)
Definition outvals_undef : outvals := mkOutvals None 0 O 0 memchunk_reset.

(** [pa_asyncmsgq_get]: returns 0 or -1 and the caller's variables. *)
Definition pa_asyncmsgq_get (p : outptrs) (o : outvals) (wait : bool)
    : M (Z * outvals) :=
  pa_assert (p_code p) ;;;
  cur <- gets current;;
  pa_assert (is_none cur) ;;;
  x <- asyncq_pop wait;;
  set_current x ;;;
  match x with
  | None => mret (-1, o)
  | Some i =>
      it <- read_item i;;
      (if p_object p then
         match object it with Some ob => msgobject_assert_ref ob | None => mret tt end
       else mret tt) ;;;
      mret (0, {| v_object := if p_object p then object it else v_object o;
                  v_code := code it;
                  v_userdata := if p_userdata p then userdata it else v_userdata o;
                  v_offset := if p_offset p then offset it else v_offset o;
                  v_chunk := if p_chunk p then memchunk_ it else v_chunk o |})
  end.

(** [pa_asyncmsgq_done] *)
Definition pa_asyncmsgq_done (r : Z) : M unit :=
  cur <- gets current;;
  match cur with
  | None => pa_assert false
  | Some i =>
      emit (EvDone i r) ;;;
      it <- read_item i;;
      (match semaphore it with
       | Some sm =>
           write_item i (set_ret it r) ;;;
           semaphore_post sm
       | None =>
           (match free_cb it with
            | Some cb => call_free_cb cb (userdata it) | None => mret tt end) ;;;
           (match object it with
            | Some ob => msgobject_unref ob | None => mret tt end) ;;;
           (match memblock (memchunk_ it) with
            | Some b => memblock_unref b | None => mret tt end) ;;;
           e <- flist_push i;;
           if e <? 0 then xfree i else mret tt
       end) ;;;
      set_current None
  end.

(** [pa_asyncmsgq_dispatch]; [process_msg ob] is the [process_msg] method
    of the message object at address [ob]. *)
Definition pa_asyncmsgq_dispatch (process_msg : nat -> Z -> nat -> Z -> memchunk -> Z)
    (obj : option nat) (c : Z) (ud : nat) (off : Z) (mc : memchunk) : Z :=
  match obj with
  | Some ob => process_msg ob c ud off mc
  | None => 0
  end.

(** The [do { ... } while (c != code)] loop of [pa_asyncmsgq_wait_for].
    Every iteration pops one item and nothing is pushed meanwhile, so with
    the fuel given below the loop has blocked in [get] before the fuel runs
    out. *)
Fixpoint wait_for_loop (process_msg : nat -> Z -> nat -> Z -> memchunk -> Z)
    (fuel : nat) (c0 : Z) : M Z :=
  match fuel with
  | O => fun _ => Blocked
  | S n =>
      ro <- pa_asyncmsgq_get all_ptrs outvals_undef true;;
      let (r, o) := ro in
      if r <? 0 then mret (-1) else
      let rv := pa_asyncmsgq_dispatch process_msg (v_object o) (v_code o)
                  (v_userdata o) (v_offset o) (v_chunk o) in
      pa_asyncmsgq_done rv ;;;
      if negb (v_code o =? c0) then wait_for_loop process_msg n c0 else mret 0
  end.

Definition pa_asyncmsgq_wait_for (process_msg : nat -> Z -> nat -> Z -> memchunk -> Z)
    (c0 : Z) : M Z :=
  fun s => wait_for_loop process_msg (S (length (q s))) c0 s.

(** The [while ((i = pa_asyncq_pop(a->asyncq, 0)))] loop of
    [pa_asyncmsgq_free]; it pops one item per iteration, so the fuel given
    below always reaches the NULL pop. *)
Fixpoint free_loop (fuel : nat) : M unit :=
  match fuel with
  | O => mret tt
  | S n =>
      x <- asyncq_pop false;;
      match x with
      | None => mret tt
      | Some i =>
          it <- read_item i;;
          pa_assert (is_none (semaphore it)) ;;;
          (match object it with
           | Some ob => msgobject_unref ob | None => mret tt end) ;;;
          (match memblock (memchunk_ it) with
           | Some b => memblock_unref b | None => mret tt end) ;;;
          (match free_cb it with
           | Some cb => call_free_cb cb (userdata it) | None => mret tt end) ;;;
          e <- flist_push i;;
          (if e <? 0 then xfree i else mret tt) ;;;
          free_loop n
      end
  end.

(** [pa_asyncmsgq_free]: drain, then [pa_asyncq_free], [pa_mutex_free]
    and [pa_xfree(a)]. *)
Definition pa_asyncmsgq_free : M unit :=
  fun s => (free_loop (S (length (q s))) ;;;
            emit EvAsyncqFree ;;; emit EvMutexFree ;;; emit EvMsgqFree) s.

(** ** The readiness callback of core.c *)

Definition PA_IO_EVENT_INPUT : Z := 1.

(** The queue operations [asyncmsgq_cb] performs, with their results. *)
Inductive call :=
| CAfterPoll
| CGet (wait : bool) (r : Z)
| CDispatch (r : Z)
| CDone (r : Z)
| CBeforePoll (r : Z).

(** Program points of [asyncmsgq_cb]: entry, the head of the inner
    [while], the [before_poll] test, and the return. *)
Inductive cb_pc := CB_Entry | CB_Drain | CB_Poll | CB_Return.

(** One step of [asyncmsgq_cb]; a step of the inner [while] runs one
    iteration (get, dispatch, done). *)
Definition asyncmsgq_cb_step (process_msg : nat -> Z -> nat -> Z -> memchunk -> Z)
    (fd : Z) (events : Z) (pc : cb_pc) : M (list call * cb_pc) :=
  match pc with
  | CB_Entry =>
      f <- pa_asyncmsgq_get_fd;;
      pa_assert (f =? fd) ;;;
      pa_assert (events =? PA_IO_EVENT_INPUT) ;;;
      pa_asyncmsgq_after_poll ;;;
      mret ([CAfterPoll], CB_Drain)
  | CB_Drain =>
      ro <- pa_asyncmsgq_get all_ptrs outvals_undef false;;
      let (r, o) := ro in
      if r =? 0 then
        let rv := pa_asyncmsgq_dispatch process_msg (v_object o) (v_code o)
                    (v_userdata o) (v_offset o) (v_chunk o) in
        pa_asyncmsgq_done rv ;;;
        mret ([CGet false r; CDispatch rv; CDone rv], CB_Drain)
      else mret ([CGet false r], CB_Poll)
  | CB_Poll =>
      r <- pa_asyncmsgq_before_poll;;
      mret ([CBeforePoll r], if r =? 0 then CB_Return else CB_Drain)
  | CB_Return => mret ([], CB_Return)
  end.

(** [n] steps of [asyncmsgq_cb], each preceded by [env k], the effect of
    the other threads (producers posting) at that point. *)
Fixpoint asyncmsgq_cb_run (process_msg : nat -> Z -> nat -> Z -> memchunk -> Z)
    (fd events : Z) (env : nat -> M unit) (n : nat) (pc : cb_pc)
    : M (list call * cb_pc) :=
  match n with
  | O => mret ([], pc)
  | S k =>
      match pc with
      | CB_Return => mret ([], CB_Return)
      | _ =>
          env k ;;;
          st <- asyncmsgq_cb_step process_msg fd events pc;;
          let (tr, pc') := st in
          rest <- asyncmsgq_cb_run process_msg fd events env k pc';;
          let (tr', pc'') := rest in
          mret (tr ++ tr', pc'')
      end
  end.

(** The drain idiom as the spec words it (second definition, to compare
    with the callback): [after_poll]; then while [get(wait=false)]
    succeeds, dispatch and complete with the dispatch result; then
    [before_poll], back to the drain on nonzero, return on 0. *)
Inductive idiom_st :=
| I_Start
| I_Drain
| I_Dispatch
| I_Done (r : Z)
| I_Poll
| I_Return.

Definition idiom_next (st : idiom_st) (c : call) : option idiom_st :=
  match st, c with
  | I_Start, CAfterPoll => Some I_Drain
  | I_Drain, CGet false r => Some (if r =? 0 then I_Dispatch else I_Poll)
  | I_Dispatch, CDispatch r => Some (I_Done r)
  | I_Done r, CDone r' => if r =? r' then Some I_Drain else None
  | I_Poll, CBeforePoll r => Some (if r =? 0 then I_Return else I_Drain)
  | _, _ => None
  end.

Fixpoint idiom_run (st : idiom_st) (tr : list call) : option idiom_st :=
  match tr with
  | [] => Some st
  | c :: tr' =>
      match idiom_next st c with
      | Some st' => idiom_run st' tr'
      | None => None
      end
  end.

(** ** Producers, senders and the consumer interleaved *)

(** A system: the process state and the stack items of the senders that
    are blocked in [pa_asyncmsgq_send]. *)
Record sys := mkSys {
  st : state;
  senders : list nat
}.

Inductive action :=
| Act_post (obj : option nat) (c : Z) (ud : nat) (off : Z)
    (chunk : option memchunk) (cb : option nat)
| Act_send (obj : option nat) (c : Z) (ud : nat) (off : Z)
    (chunk : option memchunk)
| Act_send_return (i : nat)
| Act_get (wait : bool)
| Act_done (r : Z).

(** A step of one thread; an operation that aborts or blocks makes no
    step. *)
Inductive sys_step : sys -> action -> sys -> Prop :=
| step_post : forall s ss obj c ud off chunk cb s',
    pa_asyncmsgq_post obj c ud off chunk cb s = Ok (tt, s') ->
    sys_step (mkSys s ss) (Act_post obj c ud off chunk cb) (mkSys s' ss)
| step_send : forall s ss obj c ud off chunk i s',
    send_start obj c ud off chunk s = Ok (i, s') ->
    sys_step (mkSys s ss) (Act_send obj c ud off chunk) (mkSys s' (i :: ss))
| step_send_return : forall s ss i r s',
    In i ss ->
    send_finish i s = Ok (r, s') ->
    sys_step (mkSys s ss) (Act_send_return i) (mkSys s' (remove Nat.eq_dec i ss))
| step_get : forall s ss wait r o s',
    pa_asyncmsgq_get all_ptrs outvals_undef wait s = Ok ((r, o), s') ->
    sys_step (mkSys s ss) (Act_get wait) (mkSys s' ss)
| step_done : forall s ss r s',
    pa_asyncmsgq_done r s = Ok (tt, s') ->
    sys_step (mkSys s ss) (Act_done r) (mkSys s' ss).

Inductive reachable : sys -> sys -> Prop :=
| reach_refl : forall x, reachable x x
| reach_step : forall x a y z, sys_step x a y -> reachable y z -> reachable x z.

(** A freshly created queue ([pa_asyncmsgq_new]) with capacity [cap]. *)
Definition msgq_init (cap : nat) (m : nat -> asyncmsgq_item) (fo fb : nat -> Z)
    : state :=
  {| mem := m; next_ptr := O; q := []; q_cap := cap; q_fd := 0;
     current := None; flist := []; sems := fun _ => O; next_sem := O;
     objref := fo; blockref := fb; log := [] |}.

(** ** Auxiliary definitions of the statements *)

(** The events logged when the post path of [pa_asyncmsgq_done] releases
    item [i] with record [it], the free list having [n] entries. *)
Definition done_release_events (i : nat) (it : asyncmsgq_item) (n : nat)
    : list event :=
  match free_cb it with Some cb => [EvFreeCb cb (userdata it)] | None => [] end ++
  match object it with Some ob => [EvObjUnref ob] | None => [] end ++
  match memblock (memchunk_ it) with Some b => [EvBlockUnref b] | None => [] end ++
  (if Nat.ltb n FLIST_SIZE then [] else [EvXfree i]).

(** The events of one iteration of the drain loop of [pa_asyncmsgq_free]
    on a record [it] (before the record itself is recycled). *)
Definition free_release_events (it : asyncmsgq_item) : list event :=
  match object it with Some ob => [EvObjUnref ob] | None => [] end ++
  match memblock (memchunk_ it) with Some b => [EvBlockUnref b] | None => [] end ++
  match free_cb it with Some cb => [EvFreeCb cb (userdata it)] | None => [] end.

(** The events of draining the items [l], the free list holding [n]
    records at the start. *)
Fixpoint free_drain_events (m : nat -> asyncmsgq_item) (n : nat) (l : list nat)
    : list event :=
  match l with
  | [] => []
  | i :: r =>
      free_release_events (m i) ++
      (if Nat.ltb n FLIST_SIZE then [] else [EvXfree i]) ++
      free_drain_events m (if Nat.ltb n FLIST_SIZE then S n else n) r
  end.

(** Split [l] after its first element satisfying [f]. *)
Fixpoint take_through (f : nat -> bool) (l : list nat) : option (list nat * list nat) :=
  match l with
  | [] => None
  | x :: r =>
      if f x then Some ([x], r)
      else match take_through f r with
           | Some (pre, rest) => Some (x :: pre, rest)
           | None => None
           end
  end.

(** The completions recorded in a log: item address and return value. *)
Definition dones (l : list event) : list (nat * Z) :=
  flat_map (fun e => match e with EvDone i r => [(i, r)] | _ => [] end) l.

Definition dispatch_item (process_msg : nat -> Z -> nat -> Z -> memchunk -> Z)
    (it : asyncmsgq_item) : Z :=
  pa_asyncmsgq_dispatch process_msg (object it) (code it) (userdata it)
    (offset it) (memchunk_ it).

(** Two memories agree on every field but [ret]. *)
Definition same_payload (m1 m2 : nat -> asyncmsgq_item) : Prop :=
  forall i, code (m1 i) = code (m2 i) /\ object (m1 i) = object (m2 i) /\
            userdata (m1 i) = userdata (m2 i) /\ offset (m1 i) = offset (m2 i) /\
            memchunk_ (m1 i) = memchunk_ (m2 i) /\
            semaphore (m1 i) = semaphore (m2 i).

(** A posted (semaphore-less) item holding a reference on [ob]. *)
Definition is_post_of (ob : nat) (it : asyncmsgq_item) : bool :=
  is_none (semaphore it) &&
  match object it with Some o => Nat.eqb o ob | None => false end.

Definition count_post (ob : nat) (m : nat -> asyncmsgq_item) (l : list nat) : Z :=
  Z.of_nat (length (filter (fun i => is_post_of ob (m i)) l)).

(** The refcount of every object named by a queued item covers the
    references the queue holds for posted items, plus one more when a
    sender's item names it. *)
Definition refs_ok (m : nat -> asyncmsgq_item) (fo : nat -> Z) (l : list nat) : Prop :=
  forall i ob, In i l -> object (m i) = Some ob ->
    count_post ob m l <= fo ob /\
    (semaphore (m i) <> None -> count_post ob m l < fo ob).

(** The idiom state each program point of the callback stands for. *)
Definition pc_idiom (pc : cb_pc) : idiom_st :=
  match pc with
  | CB_Entry => I_Start
  | CB_Drain => I_Drain
  | CB_Poll => I_Poll
  | CB_Return => I_Return
  end.

(** ** Sample runs *)

(** The final state of a run, [d] if it did not complete. *)
Definition state_of {A} (r : res (A * state)) (d : state) : state :=
  match r with Ok (_, s) => s | _ => d end.

Definition sample_mem : nat -> asyncmsgq_item :=
  fun _ => {| code := 0; object := None; userdata := O; free_cb := None;
              offset := 0; memchunk_ := memchunk_reset; semaphore := None;
              ret := 0 |}.

Definition sample_chunk : memchunk :=
  {| memblock := Some 3%nat; mc_index := 0; mc_length := 10 |}.

Definition sample_process_msg (o : nat) (c : Z) (ud : nat) (off : Z)
    (mc : memchunk) : Z :=
  10 * c.

(** A fresh queue of capacity 4, every object and block holding one
    reference. *)
Definition sample_msgq : state :=
  msgq_init 4 sample_mem (fun _ => 1) (fun _ => 1).

(** Two posted messages: code 7 on object 5 with a chunk and a free
    callback, then code 2 without payload. *)
Definition sample_posted : state :=
  state_of ((pa_asyncmsgq_post (Some 5%nat) 7 9 42 (Some sample_chunk) (Some 11%nat) ;;;
             pa_asyncmsgq_post None 2 0 0 None None) sample_msgq) sample_msgq.

(** The consumer has taken the first of them. *)
Definition sample_inflight : state :=
  state_of (pa_asyncmsgq_get all_ptrs outvals_undef false sample_posted) sample_posted.

(** A send of code 3 to object 5 has queued its item (address 0). *)
Definition sample_sent : state :=
  state_of (send_start (Some 5%nat) 3 0 0 None sample_msgq) sample_msgq.

Definition sample_sent_got : state :=
  state_of (pa_asyncmsgq_get all_ptrs outvals_undef false sample_sent) sample_sent.

(** The consumer has completed the sent item with return value 30. *)
Definition sample_replied : state :=
  state_of (pa_asyncmsgq_done 30 sample_sent_got) sample_sent_got.

(** A producer that posts a message of code 1 at the fourth step of the
    callback. *)
Definition sample_env (k : nat) : M unit :=
  if Nat.eqb k 3 then pa_asyncmsgq_post None 1 0 0 None None else mret tt.

(** The return values logged by completions of the item at [i]. *)
Definition dones_of (i : nat) (l : list event) : list Z :=
  flat_map (fun e => match e with
                     | EvDone j r => if Nat.eqb j i then [r] else []
                     | _ => [] end) l.

(** What the system knows about the item of a pending [pa_asyncmsgq_send]
    at [i] whose semaphore is [sm]: either not yet completed (semaphore at
    0, no completion logged, the item queued once or being processed) or
    completed (semaphore posted once, out of the queue, exactly one
    completion logged, with the value stored in the item). *)
Definition sender_phase (s : state) (i sm : nat) : Prop :=
  (sems s sm = O /\ dones_of i (log s) = [] /\
   ((current s = Some i /\ ~ In i (q s)) \/
    (current s <> Some i /\ count_occ Nat.eq_dec (q s) i = 1%nat))) \/
  (sems s sm = 1%nat /\ ~ In i (q s) /\ current s <> Some i /\
   dones_of i (log s) = [ret (mem s i)]).

(** Invariant of the interleaved system. *)
Record msgq_inv (X : sys) : Prop := {
  inv_nodup : NoDup (senders X);
  inv_senders_bound : forall i, In i (senders X) -> (i < next_ptr (st X))%nat;
  inv_q_bound : forall i, In i (q (st X)) -> (i < next_ptr (st X))%nat;
  inv_current_bound : forall i, current (st X) = Some i -> (i < next_ptr (st X))%nat;
  inv_flist_bound : forall i, In i (flist (st X)) -> (i < next_ptr (st X))%nat;
  inv_done_bound : forall i r, In (EvDone i r) (log (st X)) -> (i < next_ptr (st X))%nat;
  inv_nonsender_sem : forall i, (In i (q (st X)) \/ current (st X) = Some i) ->
    ~ In i (senders X) -> semaphore (mem (st X) i) = None;
  inv_sender_not_free : forall i, In i (senders X) -> ~ In i (flist (st X));
  inv_sem_distinct : forall i j sm, In i (senders X) -> In j (senders X) ->
    semaphore (mem (st X) i) = Some sm -> semaphore (mem (st X) j) = Some sm -> i = j;
  inv_sender : forall i, In i (senders X) -> exists sm,
    semaphore (mem (st X) i) = Some sm /\ (sm < next_sem (st X))%nat /\
    sender_phase (st X) i sm
}.

(** ** Ownership of the item records *)

(** The item being processed, as a list. *)
Definition cur_list (s : state) : list nat :=
  match current s with Some i => [i] | None => [] end.

(** The items handed to the queue and not yet completed: queued or being
    processed. *)
Definition pending (s : state) : list nat := q s ++ cur_list s.

(** The number of items of [l] whose record satisfies [p]. *)
Definition count_items (p : asyncmsgq_item -> bool) (m : nat -> asyncmsgq_item)
    (l : list nat) : Z :=
  Z.of_nat (length (filter (fun i => p (m i)) l)).

(** A posted item (no reply semaphore) whose chunk holds memblock [b]: it
    owns one reference to [b]. *)
Definition is_post_block (b : nat) (it : asyncmsgq_item) : bool :=
  is_none (semaphore it) &&
  match memblock (memchunk_ it) with Some b' => Nat.eqb b' b | None => false end.

(** Ownership invariant of the heap records of a queue created with
    reference counts [fo] and [fb]: each record is on the free list or
    pending, never both nor twice; a record given to [pa_xfree] is neither
    any more, nor the stack item of a pending send; and every reference
    taken by [pa_asyncmsgq_post] is held by a pending posted item. *)
Record own_inv (fo fb : nat -> Z) (X : sys) : Prop := {
  own_nodup : NoDup (flist (st X) ++ pending (st X));
  own_bound : forall i, In i (flist (st X) ++ pending (st X)) -> (i < next_ptr (st X))%nat;
  own_flist_len : (length (flist (st X)) <= FLIST_SIZE)%nat;
  own_xfree : forall i, In (EvXfree i) (log (st X)) ->
    (i < next_ptr (st X))%nat /\ ~ In i (flist (st X) ++ pending (st X));
  own_sender_xfree : forall i, In i (senders X) -> ~ In (EvXfree i) (log (st X));
  own_objref : forall ob,
    objref (st X) ob = fo ob + count_items (is_post_of ob) (mem (st X)) (pending (st X));
  own_blockref : forall b,
    blockref (st X) b = fb b + count_items (is_post_block b) (mem (st X)) (pending (st X))
}.

(** Every address allocated so far is on the free list, pending, given to
    [pa_xfree], or the stack item of a send (it has a reply semaphore). *)
Definition records_covered (s : state) : Prop :=
  forall i, (i < next_ptr s)%nat ->
    In i (flist s ++ pending s) \/ In (EvXfree i) (log s) \/ semaphore (mem s i) <> None.

(** The records given to [pa_xfree], in order. *)
Definition xfreed (l : list event) : list nat :=
  flat_map (fun e => match e with EvXfree i => [i] | _ => [] end) l.

(** ** Executing actions of the system *)

(** One action of [sys_step], [None] when it does not complete. *)
Definition sys_exec (X : sys) (a : action) : option sys :=
  match a with
  | Act_post obj c ud off chunk cb =>
      match pa_asyncmsgq_post obj c ud off chunk cb (st X) with
      | Ok (_, s') => Some (mkSys s' (senders X)) | _ => None end
  | Act_send obj c ud off chunk =>
      match send_start obj c ud off chunk (st X) with
      | Ok (i, s') => Some (mkSys s' (i :: senders X)) | _ => None end
  | Act_send_return i =>
      if in_dec Nat.eq_dec i (senders X) then
        match send_finish i (st X) with
        | Ok (_, s') => Some (mkSys s' (remove Nat.eq_dec i (senders X))) | _ => None end
      else None
  | Act_get wait =>
      match pa_asyncmsgq_get all_ptrs outvals_undef wait (st X) with
      | Ok (_, s') => Some (mkSys s' (senders X)) | _ => None end
  | Act_done r =>
      match pa_asyncmsgq_done r (st X) with
      | Ok (_, s') => Some (mkSys s' (senders X)) | _ => None end
  end.

(** A list of actions, [None] when one of them does not complete. *)
Fixpoint sys_run (X : sys) (l : list action) : option sys :=
  match l with
  | [] => Some X
  | a :: l' => match sys_exec X a with Some Y => sys_run Y l' | None => None end
  end.

(** The system after the actions [l], or [X] when one does not complete. *)
Definition sys_final (X : sys) (l : list action) : sys :=
  match sys_run X l with Some Y => Y | None => X end.

(** ** The core (core.c) *)

(** Calls made to the main loop API ([pa_mainloop_api]). *)
Inductive ml_call :=
| MLTimeNew (e : nat) (sec usec : Z)
| MLTimeFree (e : nat)
| MLIoNew (e : nat) (fd : Z) (flags : Z).

(** The main loop as seen by the core: the clock read by [pa_gettimeofday],
    the next event handle, and the calls made so far. *)
Record mainloop := mkMainloop {
  ml_now_sec : Z;
  ml_now_usec : Z;
  ml_next : nat;
  ml_calls : list ml_call
}.

(** Modelled from the main loop API: [m->time_new(m, tv, cb, userdata)]
    registers a timer event and returns a fresh non-NULL handle. *)
Definition ml_time_new (m : mainloop) (sec usec : Z) : nat * mainloop :=
  (ml_next m, {| ml_now_sec := ml_now_sec m; ml_now_usec := ml_now_usec m;
                 ml_next := S (ml_next m);
                 ml_calls := ml_calls m ++ [MLTimeNew (ml_next m) sec usec] |}).

(** Modelled from the main loop API: [m->time_free(e)]. *)
Definition ml_time_free (m : mainloop) (e : nat) : mainloop :=
  {| ml_now_sec := ml_now_sec m; ml_now_usec := ml_now_usec m; ml_next := ml_next m;
     ml_calls := ml_calls m ++ [MLTimeFree e] |}.

(** Modelled from the spec: [m->io_new(fd, flags, callback, userdata)]
    returns a watcher (a fresh non-NULL handle). *)
Definition ml_io_new (m : mainloop) (fd flags : Z) : nat * mainloop :=
  (ml_next m, {| ml_now_sec := ml_now_sec m; ml_now_usec := ml_now_usec m;
                 ml_next := S (ml_next m);
                 ml_calls := ml_calls m ++ [MLIoNew (ml_next m) fd flags] |}).

(** The fields of [pa_core] that core.c reads or writes besides the ones
    initialised to NULL or to fixed defaults; [n_clients] is
    [pa_idxset_size(c->clients)]. *)
Record pa_core := mkCore {
  quit_event : option nat;
  exit_idle_time : Z;
  module_idle_time : Z;
  scache_idle_time : Z;
  n_clients : nat;
  mempool : nat;
  asyncmsgq_event : nat
}.

Definition set_quit_event (c : pa_core) (e : option nat) : pa_core :=
  {| quit_event := e; exit_idle_time := exit_idle_time c;
     module_idle_time := module_idle_time c; scache_idle_time := scache_idle_time c;
     n_clients := n_clients c; mempool := mempool c;
     asyncmsgq_event := asyncmsgq_event c |}.

(** [pa_core_check_quit]: [pa_gettimeofday] reads the main loop's clock. *)
Definition pa_core_check_quit (c : pa_core) (m : mainloop) : pa_core * mainloop :=
  if is_none (quit_event c) && (0 <=? exit_idle_time c) && Nat.eqb (n_clients c) 0 then
    let (e, m') := ml_time_new m (ml_now_sec m + exit_idle_time c) (ml_now_usec m) in
    (set_quit_event c (Some e), m')
  else if is_some (quit_event c) && Nat.ltb 0 (n_clients c) then
    match quit_event c with
    | Some e => (set_quit_event c None, ml_time_free m e)
    | None => (c, m)
    end
  else (c, m).

(** [pa_core_new]: [mempool_new shared] is the result of
    [pa_mempool_new(shared)] (NULL as [None]); the message queue is
    [pa_asyncmsgq_new(0)], a fresh queue of the default capacity [cap].
    The result is the core, its message queue and the main loop, or NULL.
    Not modelled: [pa_assert(m)] (the main loop [m] here is never NULL)
    and the failure of [pa_asyncmsgq_new(0)] under its [pa_assert_se]
    (the allocations of [pa_asyncq_new] and [pa_mutex_new] are taken to
    succeed), so this model aborts only on [before_poll] and [get_fd]. *)
Definition pa_core_new (mempool_new : Z -> option nat) (cap : nat)
    (items : nat -> asyncmsgq_item) (fo fb : nat -> Z) (m : mainloop) (shared : Z)
    : res (option (pa_core * state * mainloop)) :=
  let (pool, shared') :=
    if negb (shared =? 0) then
      match mempool_new shared with
      | Some p => (Some p, shared)
      | None => (None, 0)
      end
    else (None, shared) in
  let pool' := if shared' =? 0 then mempool_new shared' else pool in
  match pool' with
  | None => Ok None
  | Some p =>
      match pa_asyncmsgq_before_poll (msgq_init cap items fo fb) with
      | Ok (r, a1) =>
          if r =? 0 then
            match pa_asyncmsgq_get_fd a1 with
            | Ok (fd, a2) =>
                let (ev, m') := ml_io_new m fd PA_IO_EVENT_INPUT in
                Ok (Some ({| quit_event := None; exit_idle_time := -1;
                             module_idle_time := 20; scache_idle_time := 20;
                             n_clients := O; mempool := p; asyncmsgq_event := ev |},
                          a2, m'))
            | _ => Abort
            end
          else Abort
      | _ => Abort
      end
  end.

(** ** Further sample runs *)

(** 129 posts, then 129 get/done cycles: the free list fills up and the
    last record completed is given to [pa_xfree]. *)
Definition sample_churn_actions : list action :=
  repeat (Act_post (Some 5%nat) 7 9 42 (Some sample_chunk) (Some 11%nat)) 129 ++
  concat (repeat [Act_get false; Act_done 0] 129).

Definition sample_churn : sys :=
  sys_final (mkSys (msgq_init 200 sample_mem (fun _ => 1) (fun _ => 1)) [])
    sample_churn_actions.

(** A send (item 0) answered with 30, a post left in the queue. *)
Definition sample_mixed_actions : list action :=
  [Act_send (Some 5%nat) 3 0 0 None;
   Act_post (Some 5%nat) 7 9 42 (Some sample_chunk) (Some 11%nat);
   Act_get false; Act_done 30].

Definition sample_mixed : sys := sys_final (mkSys sample_msgq []) sample_mixed_actions.

(** The two posts of [sample_posted], as a run of the system. *)
Definition sample_posts : sys :=
  sys_final (mkSys sample_msgq [])
    [Act_post (Some 5%nat) 7 9 42 (Some sample_chunk) (Some 11%nat);
     Act_post None 2 0 0 None None].

(** [sample_posted] after the last reference to every object was dropped
    elsewhere. *)
Definition sample_dropped : state :=
  {| mem := mem sample_posted; next_ptr := next_ptr sample_posted; q := q sample_posted;
     q_cap := q_cap sample_posted; q_fd := q_fd sample_posted;
     current := current sample_posted; flist := flist sample_posted;
     sems := sems sample_posted; next_sem := next_sem sample_posted;
     objref := fun _ => 0; blockref := blockref sample_posted; log := log sample_posted |}.

(** A core without clients and an exit idle time of 5 seconds. *)
Definition sample_core : pa_core :=
  {| quit_event := None; exit_idle_time := 5; module_idle_time := 20;
     scache_idle_time := 20; n_clients := O; mempool := O; asyncmsgq_event := O |}.

Definition sample_loop : mainloop :=
  {| ml_now_sec := 100; ml_now_usec := 250; ml_next := 1; ml_calls := [] |}.

(** ** Proof tools *)

Ltac munfold :=
  cbv [mbind mret gets modify emit pa_assert set_mem set_q set_current
       set_flist set_sems set_refs xnew read_item write_item xfree flist_pop
       flist_push msgobject_ref msgobject_unref msgobject_assert_ref
       memblock_ref memblock_unref call_free_cb semaphore_new semaphore_post
       semaphore_wait semaphore_free mutex_lock mutex_unlock asyncq_push
       asyncq_pop asyncq_before_poll asyncq_after_poll asyncq_get_fd
       pa_asyncmsgq_get_fd pa_asyncmsgq_before_poll pa_asyncmsgq_after_poll] in *.

Lemma upd_eq {A} (f : nat -> A) k v : upd f k v k = v.
Proof. unfold upd; rewrite Nat.eqb_refl; reflexivity. Qed.

Lemma upd_neq {A} (f : nat -> A) k v x : x <> k -> upd f k v x = f x.
Proof. intro H; unfold upd; apply Nat.eqb_neq in H; rewrite H; reflexivity. Qed.

(** Case analysis on the first test a hypothesis is stuck on. *)
Ltac case_in H :=
  match type of H with
  | context [if ?b then _ else _] => destruct b
  | context [match ?x with Some _ => _ | None => _ end] => destruct x
  | context [match ?x with O => _ | S _ => _ end] => destruct x
  | context [match ?x with [] => _ | _ :: _ => _ end] => destruct x
  end.

Ltac cases_in H := repeat (case_in H; simpl in H; try discriminate).

(** Evaluate the goal, rewriting with the known outcomes of tests and
    splitting on the unknown ones. *)
Ltac crunch :=
  repeat (simpl; match goal with
    | H : ?x = Some _ |- context [?x] => rewrite H
    | H : ?x = None |- context [?x] => rewrite H
    | H : ?x = true |- context [?x] => rewrite H
    | H : ?x = false |- context [?x] => rewrite H
    | |- context [match ?x with Some _ => _ | None => _ end] => destruct x eqn:?
    | |- context [if negb ?b then _ else _] => destruct b eqn:?
    | |- context [if ?b then _ else _] => destruct b eqn:?
    end).

Lemma free_loop_iter : forall s i r n,
  q s = i :: r -> semaphore (mem s i) = None ->
  exists s1,
    free_loop (S n) s = free_loop n s1 /\
    q s1 = r /\ mem s1 = mem s /\
    length (flist s1) = (if Nat.ltb (length (flist s)) FLIST_SIZE
                         then S (length (flist s)) else length (flist s)) /\
    log s1 = log s ++ free_release_events (mem s i) ++
             (if Nat.ltb (length (flist s)) FLIST_SIZE then [] else [EvXfree i]).
Proof.
  intros s i r n Hq Hs.
  destruct s as [m np ql cap fd cur fl sms ns fo fb lg]; simpl in *; subst ql.
  unfold free_release_events; cbn [free_loop]; munfold; simpl; rewrite Hs; simpl.
  destruct (object (m i)), (memblock (memchunk_ (m i))), (free_cb (m i)); simpl;
    destruct (Nat.ltb (length fl) FLIST_SIZE); simpl;
    (eexists; split; [reflexivity|]); simpl;
    repeat split; rewrite <- ?app_assoc, ?app_nil_r; reflexivity.
Qed.

Lemma free_loop_drains : forall l s n,
  q s = l -> (length l < n)%nat ->
  (forall i, In i l -> semaphore (mem s i) = None) ->
  exists s', free_loop n s = Ok (tt, s') /\ q s' = [] /\
    log s' = log s ++ free_drain_events (mem s) (length (flist s)) l.
Proof.
  induction l as [|i r IH]; intros s n Hq Hn Hs.
  - destruct n as [|n]; [simpl in Hn; lia|].
    destruct s as [m np ql cap fd cur fl sms ns fo fb lg]; simpl in *; subst ql.
    cbn [free_loop]; munfold; simpl.
    eexists; split; [reflexivity|]; simpl; rewrite app_nil_r; split; reflexivity.
  - destruct n as [|n]; [simpl in Hn; lia|].
    destruct (free_loop_iter s i r n Hq (Hs i (or_introl eq_refl)))
      as [s1 [E [Hq1 [Hm1 [Hl1 Hlog1]]]]].
    rewrite E.
    destruct (IH s1 n Hq1) as [s' [E' [Hq' Hlog']]].
    + simpl in Hn; lia.
    + intros x Hx; rewrite Hm1; apply Hs; right; exact Hx.
    + exists s'; split; [exact E'|split; [exact Hq'|]].
      rewrite Hlog', Hlog1, Hm1, Hl1; simpl; rewrite <- !app_assoc; reflexivity.
Qed.

Lemma free_loop_asserts : forall l s n,
  q s = l -> (length l < n)%nat ->
  (exists i, In i l /\ semaphore (mem s i) <> None) ->
  free_loop n s = Abort.
Proof.
  induction l as [|i r IH]; intros s n Hq Hn [x [Hx Hs]].
  - destruct Hx.
  - destruct n as [|n]; [simpl in Hn; lia|].
    destruct (semaphore (mem s i)) as [sm|] eqn:Hi.
    + destruct s as [m np ql cap fd cur fl sms ns fo fb lg]; simpl in *; subst ql.
      cbn [free_loop]; munfold; simpl; rewrite Hi; reflexivity.
    + destruct (free_loop_iter s i r n Hq Hi) as [s1 [E [Hq1 [Hm1 _]]]].
      rewrite E; apply (IH s1 n Hq1); [simpl in Hn; lia|].
      exists x; rewrite Hm1; split; [|exact Hs].
      destruct Hx as [<-|Hx]; [congruence|exact Hx].
Qed.

(** Helpers for [pa_asyncmsgq_wait_for]. *)

Lemma dones_app : forall l1 l2, dones (l1 ++ l2) = dones l1 ++ dones l2.
Proof. intros; unfold dones; apply flat_map_app. Qed.

Lemma same_payload_refl : forall m, same_payload m m.
Proof. intros m i; repeat split. Qed.

Lemma same_payload_trans : forall m1 m2 m3,
  same_payload m1 m2 -> same_payload m2 m3 -> same_payload m1 m3.
Proof.
  intros m1 m2 m3 H1 H2 i; destruct (H1 i) as (?&?&?&?&?&?);
    destruct (H2 i) as (?&?&?&?&?&?); repeat split; congruence.
Qed.

Lemma same_payload_set_ret : forall m i r,
  same_payload (upd m i (set_ret (m i) r)) m.
Proof.
  intros m i r x; unfold upd; destruct (Nat.eqb x i) eqn:E;
    [apply Nat.eqb_eq in E; subst|]; repeat split.
Qed.

(** One iteration of the [wait_for] loop on a non-empty queue. *)
Lemma wait_for_iter : forall process_msg c0 n s i r,
  current s = None -> q s = i :: r ->
  (match object (mem s i) with Some ob => 0 < objref s ob | None => True end ->
   exists s2,
     wait_for_loop process_msg (S n) c0 s =
       (if code (mem s i) =? c0 then Ok (0, s2)
        else wait_for_loop process_msg n c0 s2) /\
     current s2 = None /\ q s2 = r /\ same_payload (mem s2) (mem s) /\
     dones (log s2) = dones (log s) ++ [(i, dispatch_item process_msg (mem s i))] /\
     objref s2 = (if is_none (semaphore (mem s i)) then
                    match object (mem s i) with
                    | Some ob => upd (objref s) ob (objref s ob - 1)
                    | None => objref s end
                  else objref s)) /\
  (~ match object (mem s i) with Some ob => 0 < objref s ob | None => True end ->
   wait_for_loop process_msg (S n) c0 s = Abort).
Proof.
  intros process_msg c0 n s i r Hc Hq.
  destruct s as [m np ql cap fd cur fl sms ns fo fb lg]; simpl in *; subst cur ql.
  split.
  - intros Hob.
    cbn [wait_for_loop]; unfold pa_asyncmsgq_get, pa_asyncmsgq_done, dispatch_item;
      munfold; simpl.
    destruct (object (m i)) as [ob|] eqn:Hoi;
      [apply Z.ltb_lt in Hob|]; crunch;
      (eexists; split; [reflexivity|]); simpl;
      (split; [reflexivity|]); (split; [reflexivity|]);
      (split; [first [apply same_payload_set_ret | apply same_payload_refl]|]);
      rewrite ?Hoi; (split; [unfold dones; rewrite !flat_map_app; simpl;
                             rewrite <- ?app_assoc; reflexivity|]); reflexivity.
  - intros Hob.
    cbn [wait_for_loop]; unfold pa_asyncmsgq_get; munfold; simpl.
    destruct (object (m i)) as [ob|]; [|exfalso; exact (Hob I)].
    simpl; destruct (0 <? fo ob) eqn:E; [apply Z.ltb_lt in E; contradiction|reflexivity].
Qed.

Lemma dispatch_item_payload : forall process_msg m1 m2 i,
  same_payload m1 m2 -> dispatch_item process_msg (m1 i) = dispatch_item process_msg (m2 i).
Proof.
  intros process_msg m1 m2 i H; destruct (H i) as (Hc&Ho&Hu&Hf&Hm&_).
  unfold dispatch_item; rewrite Hc, Ho, Hu, Hf, Hm; reflexivity.
Qed.

Lemma wait_for_loop_result : forall process_msg c0 l s n m0,
  q s = l -> current s = None -> (length l < n)%nat -> same_payload (mem s) m0 ->
  match wait_for_loop process_msg n c0 s with
  | Ok (r, s') =>
      r = 0 /\ exists pre rest,
        take_through (fun i => code (m0 i) =? c0) l = Some (pre, rest) /\
        q s' = rest /\ current s' = None /\
        dones (log s') = dones (log s) ++
                         map (fun i => (i, dispatch_item process_msg (m0 i))) pre
  | Abort => True
  | Blocked => take_through (fun i => code (m0 i) =? c0) l = None
  end.
Proof.
  induction l as [|i r IH]; intros s n m0 Hq Hc Hn Hp.
  - destruct n as [|n]; [simpl in Hn; lia|].
    destruct s as [m np ql cap fd cur fl sms ns fo fb lg]; simpl in *; subst.
    cbn [wait_for_loop]; unfold pa_asyncmsgq_get; munfold; simpl; reflexivity.
  - destruct n as [|n]; [simpl in Hn; lia|].
    destruct (wait_for_iter process_msg c0 n s i r Hc Hq) as [Hok Hab].
    destruct (Hp i) as (Hci&_).
    assert (Hcase : match object (mem s i) with Some ob => 0 < objref s ob | None => True end \/
                    ~ match object (mem s i) with Some ob => 0 < objref s ob | None => True end).
    { destruct (object (mem s i)) as [ob|]; [|left; exact I].
      destruct (Z_lt_dec 0 (objref s ob)); [left|right]; assumption. }
    destruct Hcase as [Hchk|Hchk]; [|rewrite (Hab Hchk); exact I].
    destruct (Hok Hchk) as [s2 [E [Hc2 [Hq2 [Hp2 [Hd2 _]]]]]].
    rewrite E; simpl; rewrite <- Hci.
    destruct (code (mem s i) =? c0) eqn:Ec.
    + split; [reflexivity|]; exists [i], r.
      split; [reflexivity|]; split; [exact Hq2|]; split; [exact Hc2|].
      rewrite Hd2; simpl; rewrite (dispatch_item_payload process_msg (mem s) m0 i Hp).
      reflexivity.
    + pose proof (IH s2 n m0 Hq2 Hc2 ltac:(simpl in Hn; lia)
                    (same_payload_trans _ _ _ Hp2 Hp)) as IH'.
      destruct (wait_for_loop process_msg n c0 s2) as [[r' s']| |].
      * destruct IH' as [Hr [pre [rest [Ht [Hq' [Hc' Hd']]]]]].
        split; [exact Hr|]; exists (i :: pre), rest.
        rewrite Ht; split; [reflexivity|]; split; [exact Hq'|]; split; [exact Hc'|].
        rewrite Hd', Hd2, (dispatch_item_payload process_msg (mem s) m0 i Hp).
        simpl; rewrite <- app_assoc; reflexivity.
      * exact I.
      * rewrite IH'; reflexivity.
Qed.

Lemma same_payload_sym : forall m1 m2, same_payload m1 m2 -> same_payload m2 m1.
Proof.
  intros m1 m2 H i; destruct (H i) as (?&?&?&?&?&?); repeat split; congruence.
Qed.

Lemma count_post_cons : forall ob m i r,
  count_post ob m (i :: r) = (if is_post_of ob (m i) then 1 else 0) + count_post ob m r.
Proof.
  intros; unfold count_post; cbn [filter]; destruct (is_post_of ob (m i));
    cbn [length]; lia.
Qed.

Lemma count_post_nonneg : forall ob m l, 0 <= count_post ob m l.
Proof. intros; unfold count_post; lia. Qed.

Lemma count_post_payload : forall ob m1 m2 l,
  same_payload m1 m2 -> count_post ob m1 l = count_post ob m2 l.
Proof.
  intros ob m1 m2 l H; induction l as [|i r IH]; [reflexivity|].
  rewrite !count_post_cons, IH.
  destruct (H i) as (_&Ho&_&_&_&Hs); unfold is_post_of; rewrite Ho, Hs; reflexivity.
Qed.

Lemma refs_ok_payload : forall m1 m2 fo l,
  same_payload m1 m2 -> refs_ok m1 fo l -> refs_ok m2 fo l.
Proof.
  intros m1 m2 fo l H R i ob Hi Ho.
  destruct (H i) as (_&Ho'&_&_&_&Hs').
  rewrite <- (count_post_payload ob m1 m2 l H), <- Hs'.
  apply R; [exact Hi|congruence].
Qed.

Lemma wait_for_loop_no_abort : forall process_msg c0 l s n,
  q s = l -> current s = None -> (length l < n)%nat ->
  refs_ok (mem s) (objref s) l ->
  wait_for_loop process_msg n c0 s <> Abort.
Proof.
  induction l as [|i r IH]; intros s n Hq Hc Hn R.
  - destruct n as [|n]; [simpl in Hn; lia|].
    destruct s as [m np ql cap fd cur fl sms ns fo fb lg]; simpl in *; subst.
    cbn [wait_for_loop]; unfold pa_asyncmsgq_get; munfold; simpl; discriminate.
  - destruct n as [|n]; [simpl in Hn; lia|].
    destruct (wait_for_iter process_msg c0 n s i r Hc Hq) as [Hok _].
    assert (Hchk : match object (mem s i) with Some ob => 0 < objref s ob | None => True end).
    { destruct (object (mem s i)) as [ob|] eqn:Ho; [|exact I].
      destruct (R i ob (or_introl eq_refl) Ho) as [R1 R2].
      rewrite count_post_cons in R1, R2.
      pose proof (count_post_nonneg ob (mem s) r).
      destruct (semaphore (mem s i)) as [sm|] eqn:Hs.
      - assert (count_post ob (mem s) (i :: r) < objref s ob) as R3
          by (rewrite count_post_cons; apply R2; discriminate).
        rewrite count_post_cons in R3; destruct (is_post_of ob (mem s i)); lia.
      - unfold is_post_of in R1; rewrite Hs, Ho, Nat.eqb_refl in R1;
        cbn [is_none is_some negb andb] in R1; lia. }
    destruct (Hok Hchk) as [s2 [E [Hc2 [Hq2 [Hp2 [_ Ho2]]]]]].
    rewrite E; destruct (code (mem s i) =? c0); [discriminate|].
    apply (IH s2 n Hq2 Hc2); [simpl in Hn; lia|].
    apply (refs_ok_payload (mem s) (mem s2)); [apply same_payload_sym; exact Hp2|].
    intros j ob Hj Hoj.
    assert (Hdec : objref s2 ob = objref s ob - (if is_post_of ob (mem s i) then 1 else 0)).
    { rewrite Ho2; unfold is_post_of, upd.
      destruct (semaphore (mem s i)); simpl; [lia|].
      destruct (object (mem s i)) as [o|]; [|lia].
      rewrite Nat.eqb_sym; destruct (Nat.eqb o ob) eqn:Eo;
        [apply Nat.eqb_eq in Eo; subst; lia|lia]. }
    destruct (R j ob (or_intror Hj) Hoj) as [R1 R2].
    rewrite count_post_cons in R1, R2; rewrite Hdec.
    destruct (is_post_of ob (mem s i)); split; [lia| intro Hs; specialize (R2 Hs); lia
                                              | lia | intro Hs; specialize (R2 Hs); lia].
Qed.

(** Helpers for [asyncmsgq_cb]. *)

Lemma idiom_run_app : forall tr1 tr2 st,
  idiom_run st (tr1 ++ tr2) =
  match idiom_run st tr1 with Some st' => idiom_run st' tr2 | None => None end.
Proof.
  induction tr1 as [|c tr1 IH]; intros tr2 st0; [reflexivity|].
  simpl; destruct (idiom_next st0 c); [apply IH|reflexivity].
Qed.

Lemma cb_pc_eq_dec_return : forall pc, {pc = CB_Return} + {pc <> CB_Return}.
Proof. intros []; [right|right|right|left]; congruence. Qed.

Lemma cb_step_idiom : forall process_msg fd events pc s tr pc' s',
  pc <> CB_Return ->
  asyncmsgq_cb_step process_msg fd events pc s = Ok ((tr, pc'), s') ->
  idiom_run (pc_idiom pc) tr = Some (pc_idiom pc') /\
  (pc' = CB_Return -> exists tr0, tr = tr0 ++ [CBeforePoll 0]).
Proof.
  intros process_msg fd events pc s tr pc' s' Hpc H.
  destruct pc; [| | |contradiction]; cbn [asyncmsgq_cb_step] in H.
  - unfold pa_asyncmsgq_get_fd, pa_asyncmsgq_after_poll in H; munfold.
    cases_in H; injection H as <- <- _; split; [reflexivity|discriminate].
  - unfold mbind at 1 in H.
    destruct (pa_asyncmsgq_get all_ptrs outvals_undef false s) as [[[r o] s1]| |];
      try discriminate.
    destruct (r =? 0) eqn:Er.
    + unfold mbind in H.
      destruct (pa_asyncmsgq_done _ s1) as [[[] s2]| |]; try discriminate.
      unfold mret in H; injection H as <- <- _.
      simpl; rewrite Er; simpl; rewrite Z.eqb_refl; split; [reflexivity|discriminate].
    + unfold mret in H; injection H as <- <- _.
      simpl; rewrite Er; split; [reflexivity|discriminate].
  - unfold pa_asyncmsgq_before_poll in H; munfold.
    destruct (q s); simpl in H; injection H as <- <- _; simpl.
    + split; [reflexivity|intros _; exists []; reflexivity].
    + split; [reflexivity|discriminate].
Qed.

Lemma cb_run_idiom : forall process_msg fd events env n pc s tr pc' s',
  asyncmsgq_cb_run process_msg fd events env n pc s = Ok ((tr, pc'), s') ->
  idiom_run (pc_idiom pc) tr = Some (pc_idiom pc') /\
  (pc' = CB_Return ->
   (pc = CB_Return /\ tr = []) \/ exists tr0, tr = tr0 ++ [CBeforePoll 0]).
Proof.
  induction n as [|k IH]; intros pc s tr pc' s' H.
  - cbn [asyncmsgq_cb_run] in H; unfold mret in H; injection H as <- <- _.
    split; [reflexivity|intros ->; left; split; reflexivity].
  - destruct (cb_pc_eq_dec_return pc) as [->|Hpc].
    + cbn [asyncmsgq_cb_run] in H; unfold mret in H; injection H as <- <- _.
      split; [reflexivity|intros _; left; split; reflexivity].
    + assert (E : asyncmsgq_cb_run process_msg fd events env (S k) pc s =
              (env k ;;;
               st0 <- asyncmsgq_cb_step process_msg fd events pc;;
               let (tr1, pc1) := st0 in
               rest <- asyncmsgq_cb_run process_msg fd events env k pc1;;
               let (tr2, pc2) := rest in
               mret (tr1 ++ tr2, pc2)) s)
        by (destruct pc; [reflexivity|reflexivity|reflexivity|contradiction]).
      rewrite E in H; clear E.
      unfold mbind at 1 in H.
      destruct (env k s) as [[[] s1]| |]; try discriminate.
      unfold mbind at 1 in H.
      destruct (asyncmsgq_cb_step process_msg fd events pc s1) as [[[tr1 pc1] s2]| |]
        eqn:Es; try discriminate.
      unfold mbind in H.
      destruct (asyncmsgq_cb_run process_msg fd events env k pc1 s2)
        as [[[tr2 pc2] s3]| |] eqn:Er; try discriminate.
      unfold mret in H; injection H as <- <- _.
      destruct (cb_step_idiom process_msg fd events pc s1 tr1 pc1 s2 Hpc Es) as [S1 S2].
      destruct (IH pc1 s2 tr2 pc2 s3 Er) as [R1 R2].
      split; [rewrite idiom_run_app, S1; exact R1|].
      intros Hret; right.
      destruct (R2 Hret) as [[-> ->]|[tr0 ->]].
      * destruct (S2 eq_refl) as [tr0 ->]; exists tr0; rewrite app_nil_r; reflexivity.
      * exists (tr1 ++ tr0); rewrite app_assoc; reflexivity.
Qed.

(** Helpers for the interleaved system: the shape of each successful
    operation. *)

Lemma dones_of_app : forall i l1 l2, dones_of i (l1 ++ l2) = dones_of i l1 ++ dones_of i l2.
Proof. intros; unfold dones_of; apply flat_map_app. Qed.

Lemma dones_of_nil : forall i evs,
  (forall j r, ~ In (EvDone j r) evs) -> dones_of i evs = [].
Proof.
  intros i evs H; induction evs as [|e evs IH]; [reflexivity|].
  destruct e; simpl;
    try (apply IH; intros j r Hin; apply (H j r); right; exact Hin).
  exfalso; apply (H i0 r); left; reflexivity.
Qed.

Lemma post_shape : forall s obj c ud off chunk cb s',
  pa_asyncmsgq_post obj c ud off chunk cb s = Ok (tt, s') ->
  let y := match flist s with j :: _ => j | [] => next_ptr s end in
  flist s' = tl (flist s) /\
  next_ptr s' = match flist s with [] => S (next_ptr s) | _ => next_ptr s end /\
  (exists it, mem s' = upd (mem s) y it /\ semaphore it = None) /\
  q s' = q s ++ [y] /\ current s' = current s /\ sems s' = sems s /\
  next_sem s' = next_sem s /\
  exists evs, log s' = log s ++ evs /\ forall j r, ~ In (EvDone j r) evs.
Proof.
  intros s obj c ud off chunk cb s' H y.
  destruct s as [m np ql cap fd cur fl sms ns fo fb lg]; subst y; simpl in *.
  unfold pa_asyncmsgq_post in H; munfold; simpl in H.
  destruct fl as [|j fl]; destruct obj as [ob|]; simpl in H;
    (destruct chunk as [ch|]; [destruct (memblock ch) as [b|]|]); simpl in H;
    try discriminate;
    cases_in H; injection H as <-; simpl;
    (split; [reflexivity|]); (split; [reflexivity|]);
    (split; [eexists; split; reflexivity|]);
    (split; [reflexivity|]); (split; [reflexivity|]);
    (split; [reflexivity|]); (split; [reflexivity|]);
    (eexists; split; [first [exact (eq_sym (app_nil_r _)) | rewrite <- ?app_assoc; reflexivity]|]);
    simpl; intros j0 r0 Hin; repeat (destruct Hin as [Hin|Hin]; [discriminate|]);
    exact Hin.
Qed.

Lemma send_start_shape : forall s obj c ud off chunk i s',
  send_start obj c ud off chunk s = Ok (i, s') ->
  i = next_ptr s /\ next_ptr s' = S (next_ptr s) /\ next_sem s' = S (next_sem s) /\
  (exists it, mem s' = upd (mem s) i it /\ semaphore it = Some (next_sem s)) /\
  sems s' = upd (sems s) (next_sem s) O /\
  q s' = q s ++ [i] /\ current s' = current s /\ flist s' = flist s /\
  log s' = log s.
Proof.
  intros s obj c ud off chunk i s' H.
  destruct s as [m np ql cap fd cur fl sms ns fo fb lg]; simpl in *.
  unfold send_start in H; munfold; simpl in H.
  (destruct chunk as [ch|]; [destruct (memblock ch) as [b|]|]); simpl in H;
    try discriminate;
    cases_in H; injection H as <- <-; simpl;
    repeat split; eexists; split; reflexivity.
Qed.

Lemma send_finish_shape : forall s i r s',
  send_finish i s = Ok (r, s') ->
  exists sm c, semaphore (mem s i) = Some sm /\ sems s sm = S c /\
    r = ret (mem s i) /\ mem s' = mem s /\ sems s' = upd (sems s) sm c /\
    q s' = q s /\ current s' = current s /\ flist s' = flist s /\
    next_ptr s' = next_ptr s /\ next_sem s' = next_sem s /\
    log s' = log s ++ [EvSemFree sm].
Proof.
  intros s i r s' H.
  destruct s as [m np ql cap fd cur fl sms ns fo fb lg]; simpl in *.
  unfold send_finish in H; munfold; simpl in H.
  destruct (semaphore (m i)) as [sm|] eqn:Hs; [|discriminate].
  match type of H with
  | context [match ?x with O => _ | S _ => _ end] => destruct x as [|c] eqn:Ec
  end; simpl in H; [discriminate|].
  injection H as <- <-; exists sm, c; simpl; repeat split; assumption.
Qed.

Lemma get_shape : forall s p o wait r o' s',
  pa_asyncmsgq_get p o wait s = Ok ((r, o'), s') ->
  current s = None /\ mem s' = mem s /\ sems s' = sems s /\ flist s' = flist s /\
  next_ptr s' = next_ptr s /\ next_sem s' = next_sem s /\ log s' = log s /\
  ((q s' = q s /\ current s' = None) \/
   (exists i, q s = i :: q s' /\ current s' = Some i)).
Proof.
  intros s p o wait r o' s' H.
  destruct s as [m np ql cap fd cur fl sms ns fo fb lg]; simpl in *.
  unfold pa_asyncmsgq_get in H; munfold; simpl in H.
  destruct (p_code p); simpl in H; [|discriminate].
  destruct cur; simpl in H; [discriminate|].
  destruct ql as [|i rest]; simpl in H.
  - destruct wait; [discriminate|].
    injection H as <- <- <-; simpl; repeat split; left; split; reflexivity.
  - cases_in H; injection H as <- <- <-; simpl;
      repeat split; right; exists i; split; reflexivity.
Qed.

Lemma done_shape : forall s r s',
  pa_asyncmsgq_done r s = Ok (tt, s') ->
  exists i, current s = Some i /\ current s' = None /\ q s' = q s /\
    next_ptr s' = next_ptr s /\ next_sem s' = next_sem s /\
    ((exists sm, semaphore (mem s i) = Some sm /\
        mem s' = upd (mem s) i (set_ret (mem s i) r) /\
        sems s' = upd (sems s) sm (S (sems s sm)) /\ flist s' = flist s /\
        log s' = log s ++ [EvDone i r; EvSemPost sm]) \/
     (semaphore (mem s i) = None /\ mem s' = mem s /\ sems s' = sems s /\
      (flist s' = flist s \/ flist s' = i :: flist s) /\
      exists evs, log s' = log s ++ EvDone i r :: evs /\
                  forall j r', ~ In (EvDone j r') evs)).
Proof.
  intros s r s' H.
  destruct s as [m np ql cap fd cur fl sms ns fo fb lg]; simpl in *.
  unfold pa_asyncmsgq_done in H; munfold; simpl in H.
  destruct cur as [i|]; simpl in H; [|discriminate].
  exists i; simpl.
  destruct (semaphore (m i)) as [sm|] eqn:Hs; simpl in H.
  - injection H as <-; simpl; repeat split; left; exists sm; repeat split.
    rewrite <- app_assoc; reflexivity.
  - cases_in H; injection H as <-; simpl; repeat split; right;
      (split; [reflexivity|]); (split; [reflexivity|]); (split; [reflexivity|]);
      (split; [first [left; reflexivity | right; reflexivity]|]);
      (eexists; split; [first [exact (eq_sym (app_nil_r _)) | rewrite <- ?app_assoc; reflexivity]|]);
      simpl; intros j0 r0 Hin; repeat (destruct Hin as [Hin|Hin]; [discriminate|]);
      exact Hin.
Qed.

Lemma dones_of_fresh : forall n l,
  (forall j r, In (EvDone j r) l -> (j < n)%nat) -> dones_of n l = [].
Proof.
  intros n l H; induction l as [|e l IH]; [reflexivity|].
  destruct e; simpl; try (apply IH; intros j r Hin; apply (H j r); right; exact Hin).
  destruct (Nat.eqb_spec i n) as [->|Hne].
  - specialize (H n r (or_introl eq_refl)); lia.
  - apply IH; intros j r' Hin; apply (H j r'); right; exact Hin.
Qed.

Lemma NoDup_remove_nat : forall x l, NoDup l -> NoDup (remove Nat.eq_dec x l).
Proof.
  intros x l H; induction H as [|a l Ha Hl IH]; simpl; [constructor|].
  destruct (Nat.eq_dec x a); [exact IH|].
  constructor; [|exact IH].
  intro Hin; apply in_remove in Hin; tauto.
Qed.

Lemma inv_post : forall s ss obj c ud off chunk cb s',
  msgq_inv (mkSys s ss) ->
  pa_asyncmsgq_post obj c ud off chunk cb s = Ok (tt, s') ->
  msgq_inv (mkSys s' ss).
Proof.
  intros s ss obj c ud off chunk cb s' [I1 I2 I3 I4 I5 I6 I7 I8 I9 I10] H.
  pose proof (post_shape _ _ _ _ _ _ _ _ H) as HP; cbv zeta in HP.
  destruct HP as (Hfl & Hnp & (it & Hm & Hit) & Hq & Hcur & Hsems & Hns & evs & Hlog & Hevs).
  simpl in *.
  assert (Hy : ~ In (match flist s with j :: _ => j | [] => next_ptr s end) ss /\
               (match flist s with j :: _ => j | [] => next_ptr s end < next_ptr s')%nat /\
               (next_ptr s <= next_ptr s')%nat /\
               (forall j, In j (flist s') -> In j (flist s))).
  { rewrite Hfl, Hnp; destruct (flist s) as [|y0 fl] eqn:Efl; simpl.
    - repeat split; [intro Hin; apply I2 in Hin; lia | lia | lia | intros j []].
    - repeat split.
      + intro Hin; apply (I8 y0 Hin); try rewrite Efl; left; reflexivity.
      + apply I5; try rewrite Efl; left; reflexivity.
      + lia.
      + intros j Hj; try rewrite Efl; right; exact Hj. }
  remember (match flist s with j :: _ => j | [] => next_ptr s end) as y eqn:Ey.
  clear Ey Hfl Hnp H.
  destruct Hy as (Hyn & Hylt & Hle & Hflsub).
  assert (Hiy : forall i, In i ss -> i <> y) by (intros i Hi E; subst; contradiction).
  constructor; simpl.
  - exact I1.
  - intros i Hi; apply I2 in Hi; lia.
  - intros i Hi; rewrite Hq in Hi; apply in_app_or in Hi as [Hi|[<-|[]]];
      [apply I3 in Hi; lia | exact Hylt].
  - intros i Hi; rewrite Hcur in Hi; apply I4 in Hi; lia.
  - intros i Hi; apply Hflsub, I5 in Hi; lia.
  - intros i r Hi; rewrite Hlog in Hi; apply in_app_or in Hi as [Hi|Hi];
      [apply I6 in Hi; lia | exfalso; exact (Hevs _ _ Hi)].
  - intros i Hi Hns'; rewrite Hm; destruct (Nat.eq_dec i y) as [->|Hne].
    + rewrite upd_eq; exact Hit.
    + rewrite upd_neq by exact Hne; apply I7; [|exact Hns'].
      rewrite Hq, Hcur in Hi; destruct Hi as [Hi|Hi]; [|right; exact Hi].
      apply in_app_or in Hi as [Hi|[Hi|[]]]; [left; exact Hi|congruence].
  - intros i Hi Hf; apply Hflsub in Hf; exact (I8 i Hi Hf).
  - intros i j sm Hi Hj; rewrite Hm, !upd_neq by (apply Hiy; assumption).
    exact (I9 i j sm Hi Hj).
  - intros i Hi; destruct (I10 i Hi) as (sm & Hs & Hlt & Hph); exists sm.
    pose proof (Hiy i Hi) as Hne.
    rewrite Hm, upd_neq by exact Hne; split; [exact Hs|]; split; [rewrite Hns; exact Hlt|].
    unfold sender_phase in *.
    rewrite Hsems, Hcur, Hq, Hlog, dones_of_app, (dones_of_nil i evs Hevs), app_nil_r, Hm,
      upd_neq by exact Hne.
    assert (Hnq : forall l, ~ In i l -> ~ In i (l ++ [y])).
    { intros l Hl Hin; apply in_app_or in Hin as [Hin|[Hin|[]]]; [exact (Hl Hin)|congruence]. }
    destruct Hph as [(H0 & Hd & [(Hc & Hq0)|(Hc & Hcnt)]) | (H1 & Hq0 & Hc & Hd)].
    + left; split; [exact H0|]; split; [exact Hd|]; left; split; [exact Hc|]; apply Hnq, Hq0.
    + left; split; [exact H0|]; split; [exact Hd|]; right; split; [exact Hc|].
      rewrite count_occ_app, Hcnt; simpl; destruct (Nat.eq_dec y i); [congruence|reflexivity].
    + right; split; [exact H1|]; split; [apply Hnq, Hq0|]; split; [exact Hc|exact Hd].
Qed.

Lemma phase_append : forall s s' j sm y,
  sender_phase s j sm -> y <> j -> sems s' sm = sems s sm ->
  current s' = current s -> q s' = q s ++ [y] ->
  dones_of j (log s') = dones_of j (log s) -> ret (mem s' j) = ret (mem s j) ->
  sender_phase s' j sm.
Proof.
  intros s s' j sm y Hph Hne Hs Hc Hq Hd Hr; unfold sender_phase in *.
  rewrite Hs, Hc, Hq, Hd, Hr.
  assert (Hnq : forall l, ~ In j l -> ~ In j (l ++ [y])).
  { intros l Hl Hin; apply in_app_or in Hin as [Hin|[Hin|[]]]; [exact (Hl Hin)|congruence]. }
  destruct Hph as [(H0 & Hd0 & [(Hc0 & Hq0)|(Hc0 & Hcnt)]) | (H1 & Hq0 & Hc0 & Hd0)].
  - left; split; [exact H0|]; split; [exact Hd0|]; left; split; [exact Hc0|]; apply Hnq, Hq0.
  - left; split; [exact H0|]; split; [exact Hd0|]; right; split; [exact Hc0|].
    rewrite count_occ_app, Hcnt; simpl; destruct (Nat.eq_dec y j); [congruence|reflexivity].
  - right; split; [exact H1|]; split; [apply Hnq, Hq0|]; split; [exact Hc0|exact Hd0].
Qed.

Lemma phase_frame : forall s s' j sm,
  sender_phase s j sm -> sems s' sm = sems s sm ->
  current s' = current s -> q s' = q s ->
  dones_of j (log s') = dones_of j (log s) -> ret (mem s' j) = ret (mem s j) ->
  sender_phase s' j sm.
Proof.
  intros s s' j sm Hph Hs Hc Hq Hd Hr; unfold sender_phase in *.
  rewrite Hs, Hc, Hq, Hd, Hr; exact Hph.
Qed.

Lemma phase_current_clear : forall s s' j sm,
  sender_phase s j sm -> current s <> Some j -> sems s' sm = sems s sm ->
  current s' = None -> q s' = q s ->
  dones_of j (log s') = dones_of j (log s) -> ret (mem s' j) = ret (mem s j) ->
  sender_phase s' j sm.
Proof.
  intros s s' j sm Hph Hcj Hs Hc Hq Hd Hr; unfold sender_phase in *.
  rewrite Hs, Hc, Hq, Hd, Hr.
  destruct Hph as [(H0 & Hd0 & [(Hc0 & Hq0)|(Hc0 & Hcnt)]) | (H1 & Hq0 & Hc0 & Hd0)].
  - contradiction.
  - left; split; [exact H0|]; split; [exact Hd0|]; right; split; [discriminate|exact Hcnt].
  - right; split; [exact H1|]; split; [exact Hq0|]; split; [discriminate|exact Hd0].
Qed.

Lemma inv_send_start : forall s ss obj c ud off chunk i s',
  msgq_inv (mkSys s ss) ->
  send_start obj c ud off chunk s = Ok (i, s') ->
  msgq_inv (mkSys s' (i :: ss)).
Proof.
  intros s ss obj c ud off chunk i s' [I1 I2 I3 I4 I5 I6 I7 I8 I9 I10] H.
  destruct (send_start_shape _ _ _ _ _ _ _ _ H)
    as (-> & Hnp & Hns & (it & Hm & Hit) & Hsems & Hq & Hcur & Hfl & Hlog).
  clear H; simpl in *.
  set (i := next_ptr s) in *.
  assert (Hfresh : forall j, In j ss -> j <> i) by (intros j Hj E; apply I2 in Hj; lia).
  assert (Hsm : forall j sm, In j ss -> semaphore (mem s j) = Some sm -> sm <> next_sem s).
  { intros j sm Hj Hs E; destruct (I10 j Hj) as (sm' & Hs' & Hlt & _); rewrite Hs in Hs'; injection Hs' as <-; lia. }
  constructor; simpl.
  - constructor; [intro Hin; exact (Hfresh i Hin eq_refl)|exact I1].
  - intros j [<-|Hj]; [lia|apply I2 in Hj; lia].
  - intros j Hj; rewrite Hq in Hj; apply in_app_or in Hj as [Hj|[<-|[]]];
      [apply I3 in Hj; lia|lia].
  - intros j Hj; rewrite Hcur in Hj; apply I4 in Hj; lia.
  - intros j Hj; rewrite Hfl in Hj; apply I5 in Hj; lia.
  - intros j r Hj; rewrite Hlog in Hj; apply I6 in Hj; lia.
  - intros j Hj Hns'; assert (Hji : j <> i) by (intro E; apply Hns'; left; congruence).
    rewrite Hm, upd_neq by exact Hji; apply I7; [|intro Hin; apply Hns'; right; exact Hin].
    rewrite Hq, Hcur in Hj; destruct Hj as [Hj|Hj]; [|right; exact Hj].
    apply in_app_or in Hj as [Hj|[Hj|[]]]; [left; exact Hj|congruence].
  - intros j [<-|Hj]; rewrite Hfl; [intro Hin; apply I5 in Hin; lia|exact (I8 j Hj)].
  - intros j k sm Hj Hk; rewrite Hm.
    destruct Hj as [<-|Hj]; destruct Hk as [<-|Hk]; [reflexivity| | |].
    + rewrite upd_eq, upd_neq by exact (Hfresh k Hk); intros E1 E2.
      rewrite Hit in E1; injection E1 as <-; exfalso; exact (Hsm k _ Hk E2 eq_refl).
    + rewrite upd_eq, upd_neq by exact (Hfresh j Hj); intros E1 E2.
      rewrite Hit in E2; injection E2 as <-; exfalso; exact (Hsm j _ Hj E1 eq_refl).
    + rewrite !upd_neq by (apply Hfresh; assumption); exact (I9 j k sm Hj Hk).
  - intros j [<-|Hj].
    + exists (next_sem s); rewrite Hm, upd_eq; split; [exact Hit|]; split; [lia|].
      left; rewrite Hsems, upd_eq; split; [reflexivity|]; split.
      * rewrite Hlog; apply dones_of_fresh; exact I6.
      * right; rewrite Hcur; split.
        -- intro E; apply I4 in E; lia.
        -- rewrite Hq, count_occ_app; simpl; destruct (Nat.eq_dec i i); [|congruence].
           assert (count_occ Nat.eq_dec (q s) i = O) as ->; [|reflexivity].
           apply (count_occ_not_In Nat.eq_dec); intro Hin; apply I3 in Hin; lia.
    + destruct (I10 j Hj) as (sm & Hs & Hlt & Hph); exists sm.
      pose proof (Hfresh j Hj) as Hne.
      rewrite Hm, upd_neq by exact Hne; split; [exact Hs|]; split; [lia|].
      apply (phase_append s _ j sm i Hph); try assumption.
      * intro E; apply Hne; symmetry; exact E.
      * rewrite Hsems, upd_neq; [reflexivity|lia].
      * rewrite Hlog; reflexivity.
      * simpl; rewrite Hm, upd_neq by exact Hne; reflexivity.
Qed.

Lemma inv_send_return : forall s ss i r s',
  msgq_inv (mkSys s ss) -> In i ss ->
  send_finish i s = Ok (r, s') ->
  msgq_inv (mkSys s' (remove Nat.eq_dec i ss)).
Proof.
  intros s ss i r s' [I1 I2 I3 I4 I5 I6 I7 I8 I9 I10] Hi H.
  destruct (send_finish_shape _ _ _ _ H)
    as (sm & c & Hs & Hsc & Hr & Hm & Hsems & Hq & Hcur & Hfl & Hnp & Hns & Hlog).
  clear H; simpl in *.
  destruct (I10 i Hi) as (sm0 & Hs0 & Hlt0 & Hph0).
  rewrite Hs in Hs0; injection Hs0 as <-.
  destruct Hph0 as [(H0 & _)|(H1 & Hiq & Hic & _)]; [congruence|].
  assert (Hrm : forall j, In j (remove Nat.eq_dec i ss) -> In j ss /\ j <> i)
    by (intros j Hj; apply in_remove in Hj; exact Hj).
  constructor; simpl.
  - apply NoDup_remove_nat, I1.
  - intros j Hj; apply Hrm in Hj as [Hj _]; rewrite Hnp; apply I2, Hj.
  - intros j Hj; rewrite Hnp; rewrite Hq in Hj; apply I3, Hj.
  - intros j Hj; rewrite Hnp; rewrite Hcur in Hj; apply I4, Hj.
  - intros j Hj; rewrite Hnp; rewrite Hfl in Hj; apply I5, Hj.
  - intros j r' Hj; rewrite Hnp; rewrite Hlog in Hj; apply in_app_or in Hj as [Hj|[Hj|[]]];
      [apply I6 in Hj; exact Hj|discriminate].
  - intros j Hj Hns'; rewrite Hm; rewrite Hq, Hcur in Hj.
    destruct (Nat.eq_dec j i) as [->|Hne]; [destruct Hj; contradiction|].
    apply I7; [exact Hj|]; intro Hin; apply Hns', in_in_remove; assumption.
  - intros j Hj; apply Hrm in Hj as [Hj _]; rewrite Hfl; apply I8, Hj.
  - intros j k sm' Hj Hk; rewrite Hm; apply Hrm in Hj as [Hj _]; apply Hrm in Hk as [Hk _].
    apply I9; assumption.
  - intros j Hj; apply Hrm in Hj as [Hj Hne].
    destruct (I10 j Hj) as (smj & Hsj & Hlt & Hph); exists smj.
    rewrite Hm, Hns; split; [exact Hsj|]; split; [exact Hlt|].
    assert (Hsmne : smj <> sm) by (intro E; subst smj; exact (Hne (I9 j i sm Hj Hi Hsj Hs))).
    apply (phase_frame s _ j smj Hph).
    + rewrite Hsems, upd_neq by exact Hsmne; reflexivity.
    + exact Hcur.
    + exact Hq.
    + rewrite Hlog, dones_of_app; simpl; apply app_nil_r.
    + rewrite Hm; reflexivity.
Qed.

Lemma inv_ext : forall s s' ss,
  msgq_inv (mkSys s ss) ->
  mem s' = mem s -> next_ptr s' = next_ptr s -> q s' = q s -> current s' = current s ->
  flist s' = flist s -> sems s' = sems s -> next_sem s' = next_sem s -> log s' = log s ->
  msgq_inv (mkSys s' ss).
Proof.
  intros s s' ss [I1 I2 I3 I4 I5 I6 I7 I8 I9 I10] Hm Hnp Hq Hc Hfl Hs Hns Hl.
  simpl in *; constructor; simpl;
    rewrite ?Hm, ?Hnp, ?Hq, ?Hc, ?Hfl, ?Hs, ?Hns, ?Hl; try assumption.
  intros i Hi; destruct (I10 i Hi) as (sm & H1 & H2 & H3); exists sm.
  split; [exact H1|]; split; [exact H2|].
  unfold sender_phase in *; rewrite Hs, Hc, Hq, Hl, Hm; exact H3.
Qed.

Lemma inv_get : forall s ss p o wait r o' s',
  msgq_inv (mkSys s ss) ->
  pa_asyncmsgq_get p o wait s = Ok ((r, o'), s') ->
  msgq_inv (mkSys s' ss).
Proof.
  intros s ss p o wait r o' s' HI H.
  destruct (get_shape _ _ _ _ _ _ _ H)
    as (Hc0 & Hm & Hsems & Hfl & Hnp & Hns & Hlog & [(Hq & Hc)|(h & Hq & Hc)]).
  { apply (inv_ext s); congruence. }
  clear H; destruct HI as [I1 I2 I3 I4 I5 I6 I7 I8 I9 I10]; simpl in *.
  constructor; simpl; rewrite ?Hm, ?Hnp, ?Hfl, ?Hsems, ?Hns, ?Hlog; try assumption.
  - intros j Hj; apply I3; rewrite Hq; right; exact Hj.
  - intros j Hj; rewrite Hc in Hj; injection Hj as <-; apply I3; rewrite Hq; left; reflexivity.
  - intros j Hj; apply I7; left; rewrite Hq.
    destruct Hj as [Hj|Hj]; [right; exact Hj|rewrite Hc in Hj; injection Hj as <-; left; reflexivity].
  - intros j Hj; destruct (I10 j Hj) as (sm & H1 & H2 & Hph); exists sm.
    split; [exact H1|]; split; [exact H2|].
    unfold sender_phase in *; rewrite Hsems, Hm, Hlog, Hc; rewrite Hq in Hph.
    destruct Hph as [(H0 & Hd0 & [(Hc1 & _)|(_ & Hcnt)]) | (H3 & Hq0 & _ & Hd0)].
    + congruence.
    + left; split; [exact H0|]; split; [exact Hd0|]; simpl in Hcnt.
      destruct (Nat.eq_dec h j) as [<-|Hne].
      * left; split; [reflexivity|]; apply (count_occ_not_In Nat.eq_dec); injection Hcnt as E; exact E.
      * right; split; [congruence|exact Hcnt].
    + right; split; [exact H3|]; split; [intro Hin; apply Hq0; right; exact Hin|].
      split; [|exact Hd0]; intro E; injection E as ->; apply Hq0; left; reflexivity.
Qed.

Lemma inv_done : forall s ss r s',
  msgq_inv (mkSys s ss) ->
  pa_asyncmsgq_done r s = Ok (tt, s') ->
  msgq_inv (mkSys s' ss).
Proof.
  intros s ss r s' [I1 I2 I3 I4 I5 I6 I7 I8 I9 I10] H.
  destruct (done_shape _ _ _ H) as (i & Hc & Hc' & Hq & Hnp & Hns & Hcase).
  clear H; simpl in *.
  assert (Hlt : (i < next_ptr s)%nat) by (apply I4; exact Hc).
  assert (Hcj : forall j, j <> i -> current s <> Some j) by congruence.
  destruct Hcase as [(sm & Hs & Hm & Hsems & Hfl & Hlog) | (Hs & Hm & Hsems & Hfl & evs & Hlog & Hevs)].
  - assert (Hsi : In i ss).
    { destruct (in_dec Nat.eq_dec i ss) as [Hin|Hnin]; [exact Hin|].
      rewrite (I7 i (or_intror Hc) Hnin) in Hs; discriminate. }
    destruct (I10 i Hsi) as (sm0 & Hs0 & Hlt0 & Hph0).
    rewrite Hs in Hs0; injection Hs0 as <-.
    assert (Hph : sems s sm = O /\ dones_of i (log s) = [] /\ ~ In i (q s)).
    { destruct Hph0 as [(H0 & Hd0 & [(_ & Hq0)|(Hc0 & _)]) | (_ & _ & Hc0 & _)];
        [tauto|contradiction|contradiction]. }
    destruct Hph as (H0 & Hd0 & Hiq).
    assert (Hsem : forall x, semaphore (mem s' x) = semaphore (mem s x)).
    { intro x; rewrite Hm; destruct (Nat.eq_dec x i) as [->|Hne];
        [rewrite upd_eq; reflexivity|rewrite upd_neq by exact Hne; reflexivity]. }
    constructor; simpl; rewrite ?Hnp, ?Hns, ?Hq, ?Hfl, ?Hc', ?Hsem; try assumption.
    + intros j Hj; discriminate.
    + intros j r' Hj; rewrite Hlog in Hj; apply in_app_or in Hj as [Hj|[Hj|[Hj|[]]]];
        [exact (I6 _ _ Hj)|injection Hj as -> _; exact Hlt|discriminate].
    + intros j [Hj|Hj] Hns'; [rewrite Hsem; exact (I7 j (or_introl Hj) Hns')|discriminate].
    + intros j k sm' Hj Hk; rewrite !Hsem; exact (I9 j k sm' Hj Hk).
    + intros j Hj; destruct (I10 j Hj) as (smj & H1 & H2 & Hphj); exists smj.
      rewrite Hsem; split; [exact H1|]; split; [exact H2|].
      destruct (Nat.eq_dec j i) as [->|Hne].
      * injection (eq_trans (eq_sym H1) Hs) as ->.
        right; rewrite Hsems, upd_eq, H0, Hq, Hc', Hlog, dones_of_app, Hd0, Hm, upd_eq; simpl.
        rewrite Nat.eqb_refl; simpl.
        split; [reflexivity|]; split; [exact Hiq|]; split; [discriminate|reflexivity].
      * assert (Hsmne : smj <> sm) by (intro E; subst smj; exact (Hne (I9 j i sm Hj Hsi H1 Hs))).
        apply (phase_current_clear s _ j smj Hphj (Hcj j Hne)).
        -- rewrite Hsems, upd_neq by exact Hsmne; reflexivity.
        -- exact Hc'.
        -- exact Hq.
        -- rewrite Hlog, dones_of_app; simpl.
           destruct (Nat.eqb_spec i j); [congruence|apply app_nil_r].
        -- rewrite Hm, upd_neq by exact Hne; reflexivity.
  - assert (Hni : ~ In i ss).
    { intro Hin; destruct (I10 i Hin) as (sm & Hs' & _); congruence. }
    assert (Hfl' : forall j, In j (flist s') -> j = i \/ In j (flist s)).
    { intros j Hj; destruct Hfl as [E|E]; rewrite E in Hj; [right; exact Hj|destruct Hj as [<-|Hj]; [left; reflexivity|right; exact Hj]]. }
    constructor; simpl; rewrite ?Hnp, ?Hns, ?Hq, ?Hc', ?Hm; try assumption.
    + intros j Hj; discriminate.
    + intros j Hj; destruct (Hfl' j Hj) as [->|Hj']; [exact Hlt|exact (I5 j Hj')].
    + intros j r' Hj; rewrite Hlog in Hj; apply in_app_or in Hj as [Hj|[Hj|Hj]];
        [exact (I6 _ _ Hj)|injection Hj as -> _; exact Hlt|exfalso; exact (Hevs _ _ Hj)].
    + intros j [Hj|Hj] Hns'; [exact (I7 j (or_introl Hj) Hns')|discriminate].
    + intros j Hj Hf; destruct (Hfl' j Hf) as [->|Hf']; [exact (Hni Hj)|exact (I8 j Hj Hf')].
    + intros j Hj; destruct (I10 j Hj) as (smj & H1 & H2 & Hphj); exists smj.
      split; [exact H1|]; split; [exact H2|].
      assert (Hne : j <> i) by (intro E; subst; contradiction).
      apply (phase_current_clear s _ j smj Hphj (Hcj j Hne)).
      * rewrite Hsems; reflexivity.
      * exact Hc'.
      * exact Hq.
      * rewrite Hlog, dones_of_app; simpl; rewrite (dones_of_nil j evs Hevs).
        destruct (Nat.eqb_spec i j); [congruence|apply app_nil_r].
      * rewrite Hm; reflexivity.
Qed.

Lemma inv_step : forall X a Y, msgq_inv X -> sys_step X a Y -> msgq_inv Y.
Proof.
  intros X a Y HI Hs; destruct Hs.
  - eapply inv_post; eassumption.
  - eapply inv_send_start; eassumption.
  - eapply inv_send_return; eassumption.
  - eapply inv_get; eassumption.
  - eapply inv_done; eassumption.
Qed.

Lemma inv_reachable : forall X Y, reachable X Y -> msgq_inv X -> msgq_inv Y.
Proof.
  intros X Y H; induction H as [x|x a y z Hs _ IH]; intro HI; [exact HI|].
  apply IH, (inv_step x a y HI Hs).
Qed.

Lemma inv_init : forall cap m fo fb, msgq_inv (mkSys (msgq_init cap m fo fb) []).
Proof.
  intros; constructor; simpl.
  - constructor.
  - intros i [].
  - intros i [].
  - discriminate.
  - intros i [].
  - intros i r [].
  - intros i [[]|H]; discriminate.
  - intros i [].
  - intros i j sm [].
  - intros i [].
Qed.

(** ** Ownership of the item records: proofs *)

Lemma count_items_app : forall p m l1 l2,
  count_items p m (l1 ++ l2) = count_items p m l1 + count_items p m l2.
Proof. intros; unfold count_items; rewrite filter_app, length_app; lia. Qed.

Lemma count_items_ext : forall p m1 m2 l,
  (forall i, In i l -> p (m1 i) = p (m2 i)) -> count_items p m1 l = count_items p m2 l.
Proof.
  intros p m1 m2 l H; unfold count_items; f_equal; f_equal.
  apply filter_ext_in; intros; apply H; assumption.
Qed.

Lemma count_items_upd : forall p m y v l,
  ~ In y l -> count_items p (upd m y v) l = count_items p m l.
Proof.
  intros p m y v l H; apply count_items_ext; intros i Hi.
  rewrite upd_neq; [reflexivity|intro E; subst; contradiction].
Qed.

Lemma count_items_one : forall p m y,
  count_items p m [y] = if p (m y) then 1 else 0.
Proof. intros; unfold count_items; simpl; destruct (p (m y)); reflexivity. Qed.

Lemma count_items_nil : forall p m, count_items p m [] = 0.
Proof. reflexivity. Qed.

Lemma post_effect : forall s obj c ud off chunk cb s',
  pa_asyncmsgq_post obj c ud off chunk cb s = Ok (tt, s') ->
  let y := match flist s with j :: _ => j | [] => next_ptr s end in
  flist s' = tl (flist s) /\
  next_ptr s' = match flist s with [] => S (next_ptr s) | _ => next_ptr s end /\
  mem s' = upd (mem s) y
             {| code := c; object := obj; userdata := ud; free_cb := cb; offset := off;
                memchunk_ := match chunk with Some ch => ch | None => memchunk_reset end;
                semaphore := None; ret := ret (mem s y) |} /\
  q s' = q s ++ [y] /\ current s' = current s /\
  objref s' = match obj with
              | Some ob => upd (objref s) ob (objref s ob + 1)
              | None => objref s end /\
  blockref s' = match option_map memblock chunk with
                | Some (Some b) => upd (blockref s) b (blockref s b + 1)
                | _ => blockref s end /\
  log s' = log s ++ match obj with Some ob => [EvObjRef ob] | None => [] end
                 ++ match option_map memblock chunk with
                    | Some (Some b) => [EvBlockRef b] | _ => [] end.
Proof.
  intros s obj c ud off chunk cb s' H y.
  destruct s as [m np ql cap fd cur fl sms ns fo fb lg]; subst y; simpl in *.
  unfold pa_asyncmsgq_post in H; munfold; simpl in H.
  destruct fl as [|j fl]; destruct obj as [ob|]; simpl in H;
    (destruct chunk as [ch|]; [destruct (memblock ch) as [b|] eqn:Hb|]); simpl in H;
    try discriminate;
    cases_in H; injection H as <-; simpl; rewrite ?Hb;
    repeat split; rewrite <- ?app_assoc, ?app_nil_r; reflexivity.
Qed.

Lemma done_effect : forall s r s',
  pa_asyncmsgq_done r s = Ok (tt, s') ->
  exists i, current s = Some i /\ current s' = None /\ q s' = q s /\
    next_ptr s' = next_ptr s /\
    ((exists sm, semaphore (mem s i) = Some sm /\
        mem s' = upd (mem s) i (set_ret (mem s i) r) /\
        flist s' = flist s /\ objref s' = objref s /\ blockref s' = blockref s /\
        log s' = log s ++ [EvDone i r; EvSemPost sm]) \/
     (semaphore (mem s i) = None /\ mem s' = mem s /\
      flist s' = (if Nat.ltb (length (flist s)) FLIST_SIZE
                  then i :: flist s else flist s) /\
      objref s' = match object (mem s i) with
                  | Some ob => upd (objref s) ob (objref s ob - 1)
                  | None => objref s end /\
      blockref s' = match memblock (memchunk_ (mem s i)) with
                    | Some b => upd (blockref s) b (blockref s b - 1)
                    | None => blockref s end /\
      log s' = log s ++ [EvDone i r] ++
               done_release_events i (mem s i) (length (flist s)))).
Proof.
  intros s r s' H.
  destruct s as [m np ql cap fd cur fl sms ns fo fb lg]; simpl in *.
  unfold pa_asyncmsgq_done in H; munfold; simpl in H.
  destruct cur as [i|]; simpl in H; [|discriminate].
  exists i; simpl.
  destruct (semaphore (m i)) as [sm|] eqn:Hs; simpl in H.
  - injection H as <-; simpl; repeat split; left; exists sm; repeat split.
    rewrite <- app_assoc; reflexivity.
  - unfold done_release_events.
    destruct (free_cb (m i)) as [cb|]; destruct (object (m i)) as [ob|];
      destruct (memblock (memchunk_ (m i))) as [b|];
      simpl in H; destruct (Nat.ltb (length fl) FLIST_SIZE) eqn:Hl; simpl in H;
      injection H as <-; simpl; repeat split; right;
      repeat split; rewrite ?app_nil_r, <- ?app_assoc; reflexivity.
Qed.

Lemma send_start_refs : forall s obj c ud off chunk i s',
  send_start obj c ud off chunk s = Ok (i, s') ->
  objref s' = objref s /\ blockref s' = blockref s.
Proof.
  intros s obj c ud off chunk i s' H.
  destruct s as [m np ql cap fd cur fl sms ns fo fb lg]; simpl in *.
  unfold send_start in H; munfold; simpl in H.
  (destruct chunk as [ch|]; [destruct (memblock ch) as [b|]|]); simpl in H;
    try discriminate; cases_in H; injection H as <- <-; split; reflexivity.
Qed.

Lemma send_finish_refs : forall s i r s',
  send_finish i s = Ok (r, s') -> objref s' = objref s /\ blockref s' = blockref s.
Proof.
  intros s i r s' H.
  destruct s as [m np ql cap fd cur fl sms ns fo fb lg]; simpl in *.
  unfold send_finish in H; munfold; simpl in H.
  destruct (semaphore (m i)) as [sm|]; [|discriminate].
  cases_in H; injection H as <- <-; split; reflexivity.
Qed.

Lemma get_refs : forall s p o wait r o' s',
  pa_asyncmsgq_get p o wait s = Ok ((r, o'), s') ->
  objref s' = objref s /\ blockref s' = blockref s.
Proof.
  intros s p o wait r o' s' H.
  destruct s as [m np ql cap fd cur fl sms ns fo fb lg]; simpl in *.
  unfold pa_asyncmsgq_get in H; munfold; simpl in H.
  destruct (p_code p); simpl in H; [|discriminate].
  destruct cur; simpl in H; [discriminate|].
  destruct ql as [|i rest]; simpl in H.
  - destruct wait; [discriminate|]. injection H as <- <- <-; split; reflexivity.
  - cases_in H; injection H as <- <- <-; split; reflexivity.
Qed.

Lemma perm_post : forall (y : nat) fl l1 l2,
  Permutation (y :: fl ++ l1 ++ l2) (fl ++ (l1 ++ [y]) ++ l2).
Proof.
  intros; rewrite <- app_assoc; simpl; rewrite (app_assoc fl l1 (y :: l2)).
  rewrite (app_assoc fl l1 l2); apply Permutation_middle.
Qed.

Lemma count_items_insert : forall p m y v l1 l2,
  ~ In y (l1 ++ l2) ->
  count_items p (upd m y v) (l1 ++ [y] ++ l2) =
  count_items p m (l1 ++ l2) + (if p v then 1 else 0).
Proof.
  intros p m y v l1 l2 H.
  rewrite !count_items_app, count_items_one, upd_eq.
  rewrite (count_items_upd p m y v l1), (count_items_upd p m y v l2);
    [lia| |]; intro Hin; apply H, in_or_app; tauto.
Qed.

Lemma in_release_events_xfree : forall j i it n,
  In (EvXfree j) (done_release_events i it n) -> j = i.
Proof.
  intros j i it n H; unfold done_release_events in H.
  destruct (free_cb it); destruct (object it); destruct (memblock (memchunk_ it));
    destruct (Nat.ltb n FLIST_SIZE); simpl in H;
    repeat (destruct H as [H|H]; [try discriminate; injection H as ->; reflexivity|]);
    contradiction.
Qed.

Lemma in_release_events_xfree_full : forall j i it n,
  In (EvXfree j) (done_release_events i it n) -> Nat.ltb n FLIST_SIZE = false.
Proof.
  intros j i it n H; unfold done_release_events in H.
  destruct (Nat.ltb n FLIST_SIZE); [|reflexivity].
  destruct (free_cb it); destruct (object it); destruct (memblock (memchunk_ it));
    simpl in H; repeat (destruct H as [H|H]; [discriminate|]); contradiction.
Qed.

Lemma own_post : forall fo fb s ss obj c ud off chunk cb s',
  own_inv fo fb (mkSys s ss) ->
  pa_asyncmsgq_post obj c ud off chunk cb s = Ok (tt, s') ->
  own_inv fo fb (mkSys s' ss).
Proof.
  intros fo fb s ss obj c ud off chunk cb s' [O1 O2 O3 O4 O5 O6 O7] H.
  pose proof (post_effect _ _ _ _ _ _ _ _ H) as HP; cbv zeta in HP.
  destruct HP as (Hfl & Hnp & Hm & Hq & Hcur & Ho & Hb & Hlog).
  simpl in *.
  assert (Hpend : pending s' = q s ++
            [match flist s with j :: _ => j | [] => next_ptr s end] ++ cur_list s)
    by (unfold pending, cur_list; rewrite Hq, Hcur, <- app_assoc; reflexivity).
  assert (Hy : ~ In (match flist s with j :: _ => j | [] => next_ptr s end) (pending s) /\
    (forall i, In (EvXfree i) (log s) -> i <> match flist s with j :: _ => j | [] => next_ptr s end) /\
    NoDup (flist s' ++ pending s') /\
    (forall i, In i (flist s' ++ pending s') -> (i < next_ptr s')%nat) /\
    (forall i, In i (flist s' ++ pending s') ->
       i = match flist s with j :: _ => j | [] => next_ptr s end \/ In i (flist s ++ pending s)) /\
    (next_ptr s <= next_ptr s')%nat /\ (length (flist s') <= length (flist s))%nat).
  { rewrite Hpend, Hfl, Hnp; unfold pending in *.
    destruct (flist s) as [|y fl] eqn:Efl; simpl in *.
    - assert (Hf : ~ In (next_ptr s) (q s ++ cur_list s))
        by (intro Hin; apply O2 in Hin; lia).
      repeat split.
      + exact Hf.
      + intros i Hi E; subst; destruct (O4 _ Hi); lia.
      + eapply Permutation_NoDup; [apply Permutation_middle|]; constructor; assumption.
      + intros i Hi; apply in_app_or in Hi as [Hi|[<-|Hi]]; [|lia|];
          [assert (In i (q s ++ cur_list s)) by (apply in_or_app; tauto)
          |assert (In i (q s ++ cur_list s)) by (apply in_or_app; tauto)];
          apply O2 in H0; lia.
      + intros i Hi; apply in_app_or in Hi as [Hi|[<-|Hi]]; [| left; reflexivity |];
          right; apply in_or_app; tauto.
      + lia.
      + lia.
    - inversion O1 as [|y' l Hny Hnd]; subst.
      repeat split.
      + intro Hin; apply Hny, in_or_app; right; exact Hin.
      + intros i Hi E; subst; destruct (O4 _ Hi) as [_ Hn]; apply Hn; left; reflexivity.
      + eapply Permutation_NoDup; [|exact O1]; rewrite ?app_assoc; apply Permutation_middle.
      + intros i Hi; apply O2.
        apply in_app_or in Hi as [Hi|Hi]; [right; apply in_or_app; left; exact Hi|].
        apply in_app_or in Hi as [Hi|[<-|Hi]];
          [right; apply in_or_app; right; apply in_or_app; left; exact Hi
          |left; reflexivity
          |right; apply in_or_app; right; apply in_or_app; right; exact Hi].
      + intros i Hi.
        apply in_app_or in Hi as [Hi|Hi]; [right; right; apply in_or_app; left; exact Hi|].
        apply in_app_or in Hi as [Hi|[<-|Hi]]; [| left; reflexivity |];
          right; right; apply in_or_app; right; apply in_or_app; tauto.
      + lia.
      + lia. }
  destruct Hy as (Hyp & Hyx & Hnd & Hbd & Hsub & Hle & Hlen).
  remember (match flist s with j :: _ => j | [] => next_ptr s end) as y eqn:Ey.
  assert (Hnoxf : forall j, ~ In (EvXfree j)
            (match obj with Some ob => [EvObjRef ob] | None => [] end ++
             match option_map memblock chunk with Some (Some b) => [EvBlockRef b] | _ => [] end)).
  { intros j Hj; destruct obj; destruct (option_map memblock chunk) as [[|]|]; simpl in Hj;
      repeat (destruct Hj as [Hj|Hj]; [discriminate|]); exact Hj. }
  constructor; simpl.
  - exact Hnd.
  - exact Hbd.
  - lia.
  - intros i Hi; rewrite Hlog in Hi; apply in_app_or in Hi as [Hi|Hi];
      [|exfalso; exact (Hnoxf i Hi)].
    destruct (O4 i Hi) as [Hlt Hn]; split; [lia|].
    intro Hin; destruct (Hsub i Hin) as [->|Hin']; [exact (Hyx y Hi eq_refl)|exact (Hn Hin')].
  - intros i Hi Hx; rewrite Hlog in Hx; apply in_app_or in Hx as [Hx|Hx];
      [exact (O5 i Hi Hx)|exact (Hnoxf i Hx)].
  - intro ob'; rewrite Hpend, Hm, count_items_insert by (exact Hyp).
    fold (pending s); rewrite Ho; unfold is_post_of at 2; cbn [is_none semaphore object andb].
    destruct obj as [ob|].
    + destruct (Nat.eqb_spec ob ob') as [<-|Hne]; cbv beta iota.
      * rewrite upd_eq, O6; cbv [is_none is_some negb andb]; lia.
      * rewrite upd_neq by congruence; rewrite O6; cbv [is_none is_some negb andb]; lia.
    + rewrite O6; cbv [is_none is_some negb andb]; lia.
  - intro b'; rewrite Hpend, Hm, count_items_insert by (exact Hyp).
    fold (pending s); rewrite Hb; unfold is_post_block at 2;
      cbn [is_none semaphore memchunk_ andb].
    destruct chunk as [ch|]; cbn [option_map]; [destruct (memblock ch) as [b|]|].
    + destruct (Nat.eqb_spec b b') as [<-|Hne]; cbv beta iota.
      * rewrite upd_eq, O7; cbv [is_none is_some negb andb]; lia.
      * rewrite upd_neq by congruence; rewrite O7; cbv [is_none is_some negb andb]; lia.
    + rewrite O7; cbv beta iota; cbv [is_none is_some negb andb]; lia.
    + rewrite O7; cbn [memblock memchunk_reset]; cbv [is_none is_some negb andb]; lia.
Qed.

Lemma count_items_perm : forall p m l1 l2,
  Permutation l1 l2 -> count_items p m l1 = count_items p m l2.
Proof.
  intros p m l1 l2 H; unfold count_items; f_equal.
  induction H; simpl.
  - reflexivity.
  - destruct (p (m x)); simpl; congruence.
  - destruct (p (m x)); destruct (p (m y)); simpl; reflexivity.
  - congruence.
Qed.

Lemma is_post_of_sem : forall ob it sm, semaphore it = Some sm -> is_post_of ob it = false.
Proof. intros ob it sm H; unfold is_post_of; rewrite H; reflexivity. Qed.

Lemma is_post_block_sem : forall b it sm, semaphore it = Some sm -> is_post_block b it = false.
Proof. intros b it sm H; unfold is_post_block; rewrite H; reflexivity. Qed.

Lemma own_send_start : forall fo fb s ss obj c ud off chunk i s',
  own_inv fo fb (mkSys s ss) ->
  send_start obj c ud off chunk s = Ok (i, s') ->
  own_inv fo fb (mkSys s' (i :: ss)).
Proof.
  intros fo fb s ss obj c ud off chunk i s' [O1 O2 O3 O4 O5 O6 O7] H.
  pose proof (send_start_refs _ _ _ _ _ _ _ _ H) as [Ho Hb].
  apply send_start_shape in H.
  destruct H as (-> & Hnp & _ & (it & Hm & Hsem) & _ & Hq & Hcur & Hfl & Hlog).
  simpl in *.
  assert (Hpend : pending s' = q s ++ [next_ptr s] ++ cur_list s)
    by (unfold pending, cur_list; rewrite Hq, Hcur, <- app_assoc; reflexivity).
  assert (Hf : ~ In (next_ptr s) (flist s ++ pending s)) by (intro Hin; apply O2 in Hin; lia).
  assert (Hf' : ~ In (next_ptr s) (q s ++ cur_list s))
    by (intro Hin; apply Hf, in_or_app; right; exact Hin).
  unfold pending in *.
  constructor; simpl; unfold pending; rewrite ?Hpend, ?Hfl, ?Hnp, ?Hlog.
  - apply (Permutation_NoDup (l := next_ptr s :: flist s ++ q s ++ cur_list s));
      [|constructor; [exact Hf|exact O1]].
    rewrite (app_assoc (flist s) (q s) ([next_ptr s] ++ cur_list s)),
      (app_assoc (flist s) (q s) (cur_list s)); apply Permutation_middle.
  - intros j Hj.
    assert (Hj' : j = next_ptr s \/ In j (flist s ++ q s ++ cur_list s)).
    { apply in_app_or in Hj as [Hj|Hj]; [right; apply in_or_app; tauto|].
      apply in_app_or in Hj as [Hj|[<-|Hj]]; [| left; reflexivity |];
        right; apply in_or_app; right; apply in_or_app; tauto. }
    destruct Hj' as [->|Hj']; [lia|apply O2 in Hj'; lia].
  - exact O3.
  - intros j Hj; destruct (O4 j Hj) as [Hlt Hn]; split; [lia|].
    intro Hin; apply in_app_or in Hin as [Hin|Hin]; [apply Hn, in_or_app; tauto|].
    apply in_app_or in Hin as [Hin|[<-|Hin]]; [| lia |];
      apply Hn, in_or_app; right; apply in_or_app; tauto.
  - intros j [<-|Hj] Hx; [destruct (O4 _ Hx); lia|exact (O5 j Hj Hx)].
  - intro ob; rewrite Ho, Hm, count_items_insert by exact Hf'.
    rewrite (is_post_of_sem _ _ _ Hsem), O6; lia.
  - intro b; rewrite Hb, Hm, count_items_insert by exact Hf'.
    rewrite (is_post_block_sem _ _ _ Hsem), O7; lia.
Qed.

Lemma own_send_return : forall fo fb s ss i r s',
  own_inv fo fb (mkSys s ss) ->
  send_finish i s = Ok (r, s') ->
  own_inv fo fb (mkSys s' (remove Nat.eq_dec i ss)).
Proof.
  intros fo fb s ss i r s' [O1 O2 O3 O4 O5 O6 O7] H.
  pose proof (send_finish_refs _ _ _ _ H) as [Ho Hb].
  apply send_finish_shape in H.
  destruct H as (sm & c & _ & _ & _ & Hm & _ & Hq & Hcur & Hfl & Hnp & _ & Hlog).
  simpl in *.
  assert (Hpend : pending s' = pending s)
    by (unfold pending, cur_list; rewrite Hq, Hcur; reflexivity).
  assert (Hx : forall j, In (EvXfree j) (log s') -> In (EvXfree j) (log s)).
  { intros j Hj; rewrite Hlog in Hj; apply in_app_or in Hj as [Hj|[Hj|[]]];
      [exact Hj|discriminate]. }
  constructor; simpl; rewrite ?Hpend, ?Hfl, ?Hnp, ?Ho, ?Hb, ?Hm.
  - exact O1.
  - exact O2.
  - exact O3.
  - intros j Hj; exact (O4 j (Hx j Hj)).
  - intros j Hj Hj'; apply in_remove in Hj as [Hj _]; exact (O5 j Hj (Hx j Hj')).
  - exact O6.
  - exact O7.
Qed.

Lemma own_get : forall fo fb s ss p o wait r o' s',
  own_inv fo fb (mkSys s ss) ->
  pa_asyncmsgq_get p o wait s = Ok ((r, o'), s') ->
  own_inv fo fb (mkSys s' ss).
Proof.
  intros fo fb s ss p o wait r o' s' [O1 O2 O3 O4 O5 O6 O7] H.
  pose proof (get_refs _ _ _ _ _ _ _ H) as [Ho Hb].
  apply get_shape in H.
  destruct H as (Hc & Hm & _ & Hfl & Hnp & _ & Hlog & Hqc).
  simpl in *.
  assert (Hpend : Permutation (pending s) (pending s')).
  { unfold pending, cur_list; rewrite Hc.
    destruct Hqc as [[-> ->]|(i & -> & ->)]; [reflexivity|].
    rewrite app_nil_r; apply Permutation_cons_append. }
  assert (Hall : Permutation (flist s ++ pending s) (flist s' ++ pending s'))
    by (rewrite Hfl; apply Permutation_app_head; exact Hpend).
  constructor; simpl; rewrite ?Hnp, ?Ho, ?Hb, ?Hm, ?Hlog, ?Hfl.
  - rewrite <- Hfl; exact (Permutation_NoDup Hall O1).
  - intros j Hj; apply O2; rewrite <- Hfl in Hj;
      exact (Permutation_in _ (Permutation_sym Hall) Hj).
  - exact O3.
  - intros j Hj; destruct (O4 j Hj) as [Hlt Hn]; split; [exact Hlt|].
    intro Hin; apply Hn; rewrite <- Hfl in Hin;
      exact (Permutation_in _ (Permutation_sym Hall) Hin).
  - exact O5.
  - intro ob; rewrite O6; f_equal; apply count_items_perm; exact Hpend.
  - intro b; rewrite O7; f_equal; apply count_items_perm; exact Hpend.
Qed.

Lemma own_done : forall fo fb s ss r s',
  own_inv fo fb (mkSys s ss) ->
  (forall j, In j ss -> semaphore (mem s j) <> None) ->
  pa_asyncmsgq_done r s = Ok (tt, s') ->
  own_inv fo fb (mkSys s' ss).
Proof.
  intros fo fb s ss r s' [O1 O2 O3 O4 O5 O6 O7] Hss H.
  apply done_effect in H.
  destruct H as (i & Hc & Hc' & Hq & Hnp & Hcase).
  simpl in *; unfold pending, cur_list in *; rewrite Hc in *.
  assert (O1' : NoDup ((flist s ++ q s) ++ [i])) by (rewrite <- app_assoc; exact O1).
  pose proof (NoDup_remove_1 _ [] i O1') as Hnd; rewrite app_nil_r in Hnd.
  pose proof (NoDup_remove_2 _ [] i O1') as Hni; rewrite app_nil_r in Hni.
  assert (Hniq : ~ In i (q s)) by (intro Hin; apply Hni, in_or_app; tauto).
  assert (Hsub : forall j, In j (flist s ++ q s) -> In j (flist s ++ q s ++ [i]))
    by (intros j Hj; rewrite app_assoc; apply in_or_app; tauto).
  destruct Hcase as [(sm & Hsm & Hm & Hfl & Ho & Hb & Hlog)
                    |(Hsm & Hm & Hfl & Ho & Hb & Hlog)].
  - constructor; simpl; unfold pending, cur_list; rewrite ?Hc', ?Hq, ?app_nil_r;
      rewrite ?Hm, ?Hfl, ?Hnp, ?Ho, ?Hb.
    + exact Hnd.
    + intros j Hj; apply O2, Hsub, Hj.
    + exact O3.
    + intros j Hj; rewrite Hlog in Hj.
      apply in_app_or in Hj as [Hj|[Hj|[Hj|[]]]]; try discriminate.
      destruct (O4 j Hj) as [Hlt Hn]; split; [exact Hlt|].
      intro Hin; apply Hn, Hsub, Hin.
    + intros j Hj Hx; rewrite Hlog in Hx.
      apply in_app_or in Hx as [Hx|[Hx|[Hx|[]]]]; try discriminate.
      exact (O5 j Hj Hx).
    + intro ob; rewrite O6, count_items_upd by exact Hniq.
      rewrite count_items_app, count_items_one, (is_post_of_sem _ _ _ Hsm); lia.
    + intro b; rewrite O7, count_items_upd by exact Hniq.
      rewrite count_items_app, count_items_one, (is_post_block_sem _ _ _ Hsm); lia.
  - assert (Hnew : forall j, In (EvXfree j) (log s') ->
              In (EvXfree j) (log s) \/
              (j = i /\ Nat.ltb (length (flist s)) FLIST_SIZE = false)).
    { intros j Hj; rewrite Hlog in Hj.
      apply in_app_or in Hj as [Hj|[Hj|Hj]]; [left; exact Hj|discriminate|].
      right; split; [exact (in_release_events_xfree _ _ _ _ Hj)
                    |exact (in_release_events_xfree_full _ _ _ _ Hj)]. }
    assert (Hi : (i < next_ptr s)%nat)
      by (apply O2; rewrite app_assoc; apply in_or_app; right; left; reflexivity).
    assert (Hfl' : forall j, In j (flist s' ++ q s) -> In j (flist s ++ q s ++ [i])).
    { intros j Hj; rewrite Hfl in Hj.
      destruct (Nat.ltb (length (flist s)) FLIST_SIZE); [|apply Hsub, Hj].
      destruct Hj as [<-|Hj];
        [rewrite app_assoc; apply in_or_app; right; left; reflexivity|apply Hsub, Hj]. }
    constructor; simpl; unfold pending, cur_list; rewrite ?Hc', ?Hq, ?app_nil_r;
      rewrite ?Hm, ?Hnp.
    + rewrite Hfl; destruct (Nat.ltb (length (flist s)) FLIST_SIZE); [|exact Hnd].
      simpl; constructor; assumption.
    + intros j Hj; apply O2, Hfl', Hj.
    + rewrite Hfl; destruct (Nat.ltb_spec (length (flist s)) FLIST_SIZE); simpl; lia.
    + intros j Hj; destruct (Hnew j Hj) as [Hj'|[-> Hfull]].
      * destruct (O4 j Hj') as [Hlt Hn]; split; [exact Hlt|].
        intro Hin; apply Hn, Hfl', Hin.
      * split; [exact Hi|]; rewrite Hfl, Hfull; exact Hni.
    + intros j Hj Hx; destruct (Hnew j Hx) as [Hx'|[-> _]];
        [exact (O5 j Hj Hx')|exact (Hss i Hj Hsm)].
    + intro ob; rewrite Ho.
      destruct (object (mem s i)) as [ob'|] eqn:Eo.
      * destruct (Nat.eqb_spec ob' ob) as [<-|Hne].
        -- rewrite upd_eq, O6, count_items_app, count_items_one; unfold is_post_of at 2;
             rewrite Hsm, Eo, Nat.eqb_refl; cbv [is_none is_some negb andb]; lia.
        -- rewrite upd_neq by congruence; rewrite O6, count_items_app, count_items_one;
             unfold is_post_of at 2; rewrite Hsm, Eo; cbv [is_none is_some negb andb].
           destruct (Nat.eqb_spec ob' ob); [congruence|lia].
      * rewrite O6, count_items_app, count_items_one; unfold is_post_of at 2;
          rewrite Hsm, Eo; cbv [is_none is_some negb andb]; lia.
    + intro b; rewrite Hb.
      destruct (memblock (memchunk_ (mem s i))) as [b'|] eqn:Eb.
      * destruct (Nat.eqb_spec b' b) as [<-|Hne].
        -- rewrite upd_eq, O7, count_items_app, count_items_one; unfold is_post_block at 2;
             rewrite Hsm, Eb, Nat.eqb_refl; cbv [is_none is_some negb andb]; lia.
        -- rewrite upd_neq by congruence; rewrite O7, count_items_app, count_items_one;
             unfold is_post_block at 2; rewrite Hsm, Eb; cbv [is_none is_some negb andb].
           destruct (Nat.eqb_spec b' b); [congruence|lia].
      * rewrite O7, count_items_app, count_items_one; unfold is_post_block at 2;
          rewrite Hsm, Eb; cbv [is_none is_some negb andb]; lia.
Qed.

Lemma own_step : forall fo fb X a Y,
  msgq_inv X -> own_inv fo fb X -> sys_step X a Y -> own_inv fo fb Y.
Proof.
  intros fo fb X a Y HI HO Hs; destruct Hs as
    [s ss obj c ud off chunk cb s' H|s ss obj c ud off chunk i s' H
    |s ss i r s' _ H|s ss wait r o s' H|s ss r s' H].
  - exact (own_post _ _ _ _ _ _ _ _ _ _ _ HO H).
  - exact (own_send_start _ _ _ _ _ _ _ _ _ _ _ HO H).
  - exact (own_send_return _ _ _ _ _ _ _ HO H).
  - exact (own_get _ _ _ _ _ _ _ _ _ _ HO H).
  - apply (own_done _ _ _ _ r _ HO); [|exact H].
    intros j Hj; destruct (inv_sender _ HI j Hj) as (sm & Hsm & _); simpl in Hsm; congruence.
Qed.

Lemma own_reachable : forall fo fb X Y,
  reachable X Y -> msgq_inv X -> own_inv fo fb X -> own_inv fo fb Y.
Proof.
  intros fo fb X Y H; induction H as [x|x a y z Hs _ IH]; intros HI HO; [exact HO|].
  apply IH; [exact (inv_step _ _ _ HI Hs)|exact (own_step _ _ _ _ _ HI HO Hs)].
Qed.

Lemma own_init : forall cap m fo fb, own_inv fo fb (mkSys (msgq_init cap m fo fb) []).
Proof.
  intros; constructor; simpl; unfold pending, cur_list; simpl.
  - constructor.
  - intros i [].
  - unfold FLIST_SIZE; lia.
  - intros i [].
  - intros i [].
  - intro; rewrite count_items_nil; lia.
  - intro; rewrite count_items_nil; lia.
Qed.

Lemma own_from_init : forall cap m fo fb Y,
  reachable (mkSys (msgq_init cap m fo fb) []) Y -> own_inv fo fb Y.
Proof.
  intros cap m fo fb Y H; apply (own_reachable _ _ _ _ H); [apply inv_init|apply own_init].
Qed.

Lemma in_owned : forall s j,
  In j (flist s ++ pending s) <-> In j (flist s) \/ In j (q s) \/ current s = Some j.
Proof.
  intros s j; unfold pending, cur_list; rewrite !in_app_iff.
  destruct (current s) as [k|]; simpl; split; intuition congruence.
Qed.

Lemma covered_step : forall X a Y,
  records_covered (st X) -> sys_step X a Y -> records_covered (st Y).
Proof.
  intros X a Y HC Hs; destruct Hs as
    [s ss obj c ud off chunk cb s' H|s ss obj c ud off chunk i s' H
    |s ss i r s' _ H|s ss wait r o s' H|s ss r s' H]; simpl in *; intros j Hj.
  - destruct (post_effect _ _ _ _ _ _ _ _ H) as (Pfl & Pnp & Pm & Pq & Pc & _ & _ & Pl).
    cbv zeta in *.
    rewrite in_owned, Pfl, Pq, Pc, Pl, Pm, in_app_iff.
    destruct (flist s) as [|y l] eqn:Ef; simpl in *.
    + destruct (Nat.eq_dec j (next_ptr s)) as [->|Hne].
      * left; right; left; right; left; reflexivity.
      * rewrite upd_neq by congruence.
        destruct (HC j ltac:(lia)) as [Ho|[Hx|Hsm]].
        -- rewrite in_owned, Ef in Ho; simpl in Ho.
           left; destruct Ho as [[]|[Hq|Hc]]; [right; left; left; exact Hq|right; right; exact Hc].
        -- right; left; apply in_or_app; left; exact Hx.
        -- right; right; exact Hsm.
    + destruct (Nat.eq_dec j y) as [->|Hne].
      * left; right; left; right; left; reflexivity.
      * rewrite upd_neq by congruence.
        destruct (HC j ltac:(lia)) as [Ho|[Hx|Hsm]].
        -- rewrite in_owned, Ef in Ho; simpl in Ho.
           left; destruct Ho as [[Hy|Hl]|[Hq|Hc]];
             [congruence|left; exact Hl|right; left; left; exact Hq|right; right; exact Hc].
        -- right; left; apply in_or_app; left; exact Hx.
        -- right; right; exact Hsm.
  - destruct (send_start_shape _ _ _ _ _ _ _ _ H)
      as (-> & Snp & _ & (it & Sm & Sit) & _ & Sq & Sc & Sfl & Sl).
    rewrite in_owned, Sfl, Sq, Sc, Sl, Sm, in_app_iff.
    destruct (Nat.eq_dec j (next_ptr s)) as [->|Hne].
    + left; right; left; right; left; reflexivity.
    + rewrite upd_neq by congruence.
      destruct (HC j ltac:(lia)) as [Ho|[Hx|Hsm]]; [|right; left; exact Hx|right; right; exact Hsm].
      rewrite in_owned in Ho; left; tauto.
  - destruct (send_finish_shape _ _ _ _ H)
      as (sm & c & _ & _ & _ & Fm & _ & Fq & Fc & Ffl & Fnp & _ & Fl).
    rewrite in_owned, Ffl, Fq, Fc, Fl, Fm, in_app_iff; rewrite Fnp in Hj.
    destruct (HC j Hj) as [Ho|[Hx|Hsm]]; [|right; left; left; exact Hx|right; right; exact Hsm].
    rewrite in_owned in Ho; left; exact Ho.
  - destruct (get_shape _ _ _ _ _ _ _ H) as (Gc & Gm & _ & Gfl & Gnp & _ & Gl & Gcase).
    rewrite in_owned, Gfl, Gl, Gm; rewrite Gnp in Hj.
    destruct (HC j Hj) as [Ho|[Hx|Hsm]]; [|right; left; exact Hx|right; right; exact Hsm].
    rewrite in_owned, Gc in Ho; left.
    destruct Gcase as [[Hq Hc]|(k & Hq & Hc)].
    + rewrite Hq; destruct Ho as [Ho|[Ho|Ho]]; [left; exact Ho|right; left; exact Ho|discriminate].
    + rewrite Hq in Ho; rewrite Hc; simpl in Ho.
      destruct Ho as [Ho|[[<-|Ho]|Ho]]; [left; exact Ho|right; right; reflexivity
                                       |right; left; exact Ho|discriminate].
  - destruct (done_effect _ _ _ H) as (i & Dc & Dc' & Dq & Dnp & Dcase).
    rewrite Dnp in Hj; rewrite in_owned, Dc', Dq.
    destruct (HC j Hj) as [Ho|[Hx|Hsm]].
    + rewrite in_owned, Dc in Ho.
      destruct (Nat.eq_dec j i) as [->|Hne].
      * destruct Dcase as [(sm & Hsm & Dm & _)|(_ & _ & Dfl & _ & _ & Dl)].
        -- right; right; rewrite Dm, upd_eq; unfold set_ret; simpl.
           rewrite Hsm; discriminate.
        -- rewrite Dfl, Dl; destruct (Nat.ltb (length (flist s)) FLIST_SIZE) eqn:Elt.
           ++ left; left; left; reflexivity.
           ++ right; left; rewrite !in_app_iff; right; right.
              unfold done_release_events; rewrite Elt, !in_app_iff; right; right; right;
                left; reflexivity.
      * assert (Ho' : In j (flist s) \/ In j (q s)) by
          (destruct Ho as [Ho|[Ho|Ho]]; [left; exact Ho|right; exact Ho|congruence]).
        left; destruct Dcase as [(sm & _ & _ & Dfl & _)|(_ & _ & Dfl & _)]; rewrite Dfl;
          [tauto|destruct (Nat.ltb (length (flist s)) FLIST_SIZE); simpl; tauto].
    + right; left; destruct Dcase as [(sm & _ & _ & _ & _ & _ & Dl)|(_ & _ & _ & _ & _ & Dl)];
        rewrite Dl; apply in_or_app; left; exact Hx.
    + destruct Dcase as [(sm & _ & Dm & _)|(_ & Dm & _)].
      * right; right; rewrite Dm; destruct (Nat.eq_dec j i) as [->|Hne];
          [rewrite upd_eq; unfold set_ret; simpl; exact Hsm|rewrite upd_neq by congruence; exact Hsm].
      * right; right; rewrite Dm; exact Hsm.
Qed.

Lemma covered_reachable : forall X Y,
  reachable X Y -> records_covered (st X) -> records_covered (st Y).
Proof.
  intros X Y H; induction H as [x|x a y z Hs _ IH]; intros HC; [exact HC|].
  exact (IH (covered_step _ _ _ HC Hs)).
Qed.

Lemma covered_init : forall cap m fo fb, records_covered (msgq_init cap m fo fb).
Proof. intros cap m fo fb i Hi; simpl in Hi; lia. Qed.

Lemma xfreed_app : forall l1 l2, xfreed (l1 ++ l2) = xfreed l1 ++ xfreed l2.
Proof. intros; unfold xfreed; apply flat_map_app. Qed.

Lemma in_xfreed : forall i l, In i (xfreed l) <-> In (EvXfree i) l.
Proof.
  intros i l; induction l as [|e l IH]; [simpl; tauto|].
  destruct e; simpl; rewrite IH; try (split; [intros H; right; exact H|
    intros [H|H]; [discriminate|exact H]]).
  split; [intros [<-|H]; [left; reflexivity|right; exact H]
         |intros [H|H]; [injection H as ->; left; reflexivity|right; exact H]].
Qed.

Lemma xfreed_none : forall evs, (forall j, ~ In (EvXfree j) evs) -> xfreed evs = [].
Proof.
  intros evs H; destruct (xfreed evs) as [|j l] eqn:E; [reflexivity|].
  exfalso; apply (H j), in_xfreed; rewrite E; left; reflexivity.
Qed.

Lemma xfreed_release : forall i it n,
  xfreed (done_release_events i it n) = if Nat.ltb n FLIST_SIZE then [] else [i].
Proof.
  intros i it n; unfold done_release_events.
  destruct (free_cb it); destruct (object it); destruct (memblock (memchunk_ it));
    destruct (Nat.ltb n FLIST_SIZE); reflexivity.
Qed.

Lemma xfree_once_step : forall fo fb X a Y,
  own_inv fo fb X -> NoDup (xfreed (log (st X))) -> sys_step X a Y ->
  NoDup (xfreed (log (st Y))).
Proof.
  intros fo fb X a Y HO HN Hs; destruct Hs as
    [s ss obj c ud off chunk cb s' H|s ss obj c ud off chunk i s' H
    |s ss i r s' _ H|s ss wait r o s' H|s ss r s' H]; simpl in *.
  - destruct (post_effect _ _ _ _ _ _ _ _ H) as (_ & _ & _ & _ & _ & _ & _ & Hlog).
    rewrite Hlog, xfreed_app, (xfreed_none (_ ++ _)), app_nil_r; [exact HN|].
    intros j Hj; destruct obj; destruct (option_map memblock chunk) as [[|]|]; simpl in Hj;
      repeat (destruct Hj as [Hj|Hj]; [discriminate|]); exact Hj.
  - destruct (send_start_shape _ _ _ _ _ _ _ _ H) as (_ & _ & _ & _ & _ & _ & _ & _ & Hlog).
    rewrite Hlog; exact HN.
  - destruct (send_finish_shape _ _ _ _ H)
      as (sm & c & _ & _ & _ & _ & _ & _ & _ & _ & _ & _ & Hlog).
    rewrite Hlog, xfreed_app, app_nil_r; exact HN.
  - destruct (get_shape _ _ _ _ _ _ _ H) as (_ & _ & _ & _ & _ & _ & Hlog & _).
    rewrite Hlog; exact HN.
  - destruct (done_effect _ _ _ H) as (i & Hc & _ & _ & _ & Hcase).
    destruct Hcase as [(sm & _ & _ & _ & _ & _ & Hlog)|(_ & _ & _ & _ & _ & Hlog)];
      rewrite Hlog, !xfreed_app.
    + simpl; rewrite app_nil_r; exact HN.
    + rewrite xfreed_release; simpl.
      destruct (Nat.ltb (length (flist s)) FLIST_SIZE); simpl; [rewrite app_nil_r; exact HN|].
      apply (Permutation_NoDup (Permutation_cons_append _ _)); constructor; [|exact HN].
      rewrite in_xfreed; intro Hx.
      destruct (own_xfree _ _ _ HO i Hx) as [_ Hn]; apply Hn; simpl.
      unfold pending, cur_list; rewrite Hc; apply in_or_app; right; apply in_or_app;
        right; left; reflexivity.
Qed.

Lemma xfree_once_reachable : forall fo fb X Y,
  reachable X Y -> msgq_inv X -> own_inv fo fb X -> NoDup (xfreed (log (st X))) ->
  NoDup (xfreed (log (st Y))).
Proof.
  intros fo fb X Y H; induction H as [x|x a y z Hs _ IH]; intros HI HO HN; [exact HN|].
  apply IH; [exact (inv_step _ _ _ HI Hs)|exact (own_step _ _ _ _ _ HI HO Hs)
            |exact (xfree_once_step _ _ _ _ _ HO HN Hs)].
Qed.

Lemma send_finish_sem : forall s i sm,
  semaphore (mem s i) = Some sm ->
  (send_finish i s = Blocked <-> sems s sm = O) /\ send_finish i s <> Abort.
Proof.
  intros s i sm H.
  destruct s as [m np ql cap fd cur fl sms ns fo fb lg]; simpl in *.
  unfold send_finish; munfold; simpl; rewrite H.
  cbn; destruct (sms sm); simpl; (split; [split; intro; congruence|discriminate]).
Qed.

Ltac case_goal :=
  match goal with
  | |- context [if ?b then _ else _] => destruct b
  | |- context [match ?x with Some _ => _ | None => _ end] => destruct x
  | |- context [match ?x with O => _ | S _ => _ end] => destruct x
  | |- context [match ?x with [] => _ | _ :: _ => _ end] => destruct x
  end.

Lemma get_nowait_nb : forall p o s, pa_asyncmsgq_get p o false s <> Blocked.
Proof.
  intros p o s; destruct s as [m np ql cap fd cur fl sms ns fo fb lg].
  unfold pa_asyncmsgq_get; munfold; simpl.
  repeat (case_goal; simpl); discriminate.
Qed.

Lemma done_nb : forall r s, pa_asyncmsgq_done r s <> Blocked.
Proof.
  intros r s; destruct s as [m np ql cap fd cur fl sms ns fo fb lg].
  unfold pa_asyncmsgq_done; munfold; simpl.
  repeat (case_goal; simpl); discriminate.
Qed.

Lemma get_result_current : forall p o wait s r o' s',
  pa_asyncmsgq_get p o wait s = Ok ((r, o'), s') -> r <> 0 -> current s' = None.
Proof.
  intros p o wait s r o' s' H Hr.
  destruct s as [m np ql cap fd cur fl sms ns fo fb lg].
  unfold pa_asyncmsgq_get in H; munfold; simpl in H.
  cases_in H; injection H as <- <- <-; simpl; try (exfalso; apply Hr; reflexivity); reflexivity.
Qed.

Lemma cb_step_nb : forall process_msg fd events pc s,
  asyncmsgq_cb_step process_msg fd events pc s <> Blocked.
Proof.
  intros process_msg fd events pc s; destruct pc; cbn [asyncmsgq_cb_step].
  - unfold pa_asyncmsgq_get_fd, pa_asyncmsgq_after_poll; munfold.
    repeat (case_goal; simpl); discriminate.
  - unfold mbind at 1.
    pose proof (get_nowait_nb all_ptrs outvals_undef s) as Hg.
    destruct (pa_asyncmsgq_get all_ptrs outvals_undef false s) as [[[r o] s1]| |];
      [|discriminate|contradiction].
    destruct (r =? 0); [|discriminate].
    unfold mbind; pose proof (done_nb (pa_asyncmsgq_dispatch process_msg (v_object o)
      (v_code o) (v_userdata o) (v_offset o) (v_chunk o)) s1) as Hd.
    destruct (pa_asyncmsgq_done _ s1) as [[[] s2]| |]; [discriminate|discriminate|contradiction].
  - unfold pa_asyncmsgq_before_poll; munfold; destruct (q s); discriminate.
  - discriminate.
Qed.

Lemma cb_run_unfold : forall process_msg fd events env k pc s,
  pc <> CB_Return ->
  asyncmsgq_cb_run process_msg fd events env (S k) pc s =
    (env k ;;;
     st0 <- asyncmsgq_cb_step process_msg fd events pc;;
     let (tr1, pc1) := st0 in
     rest <- asyncmsgq_cb_run process_msg fd events env k pc1;;
     let (tr2, pc2) := rest in
     mret (tr1 ++ tr2, pc2)) s.
Proof. intros; destruct pc; [reflexivity|reflexivity|reflexivity|contradiction]. Qed.

Lemma cb_run_nb_gen : forall process_msg fd events env,
  (forall k s0, env k s0 <> Blocked) ->
  forall n pc s, asyncmsgq_cb_run process_msg fd events env n pc s <> Blocked.
Proof.
  intros process_msg fd events env Henv n; induction n as [|k IH]; intros pc s.
  - discriminate.
  - destruct (cb_pc_eq_dec_return pc) as [->|Hpc]; [discriminate|].
    rewrite (cb_run_unfold _ _ _ _ _ _ _ Hpc).
    unfold mbind at 1; pose proof (Henv k s) as He.
    destruct (env k s) as [[[] s1]| |]; [|discriminate|contradiction].
    unfold mbind at 1; pose proof (cb_step_nb process_msg fd events pc s1) as Hs.
    destruct (asyncmsgq_cb_step process_msg fd events pc s1) as [[[tr1 pc1] s2]| |];
      [|discriminate|contradiction].
    unfold mbind; pose proof (IH pc1 s2) as Hr.
    destruct (asyncmsgq_cb_run process_msg fd events env k pc1 s2) as [[[tr2 pc2] s3]| |];
      [discriminate|discriminate|contradiction].
Qed.

Lemma cb_step_state : forall process_msg fd events pc s tr pc' s',
  asyncmsgq_cb_step process_msg fd events pc s = Ok ((tr, pc'), s') ->
  pc <> CB_Return ->
  (pc = CB_Poll -> current s = None) ->
  (pc' = CB_Poll -> current s' = None) /\ (pc' = CB_Return -> q s' = [] /\ current s' = None).
Proof.
  intros process_msg fd events pc s tr pc' s' H Hpc Hcur.
  destruct pc; [| | |contradiction]; cbn [asyncmsgq_cb_step] in H.
  - unfold pa_asyncmsgq_get_fd, pa_asyncmsgq_after_poll in H; munfold.
    cases_in H; injection H as _ <- _; split; discriminate.
  - unfold mbind at 1 in H.
    destruct (pa_asyncmsgq_get all_ptrs outvals_undef false s) as [[[r o] s1]| |] eqn:Eg;
      try discriminate.
    destruct (Z.eqb_spec r 0) as [Er|Er].
    + unfold mbind in H.
      destruct (pa_asyncmsgq_done _ s1) as [[[] s2]| |]; try discriminate.
      unfold mret in H; injection H as _ <- _; split; discriminate.
    + unfold mret in H; injection H as _ <- <-.
      pose proof (get_result_current _ _ _ _ _ _ _ Eg Er) as Hc.
      split; [intros _; exact Hc|discriminate].
  - specialize (Hcur eq_refl).
    unfold pa_asyncmsgq_before_poll in H; munfold.
    destruct (q s) eqn:Eq; simpl in H; injection H as _ <- <-; simpl.
    + split; [discriminate|intros _; split; assumption].
    + split; discriminate.
Qed.

Lemma cb_run_state : forall process_msg fd events env,
  (forall k s0 s1, env k s0 = Ok (tt, s1) -> current s1 = current s0) ->
  forall n pc s tr s',
  asyncmsgq_cb_run process_msg fd events env n pc s = Ok ((tr, CB_Return), s') ->
  (pc = CB_Poll -> current s = None) ->
  (pc = CB_Return -> q s = [] /\ current s = None) ->
  q s' = [] /\ current s' = None.
Proof.
  intros process_msg fd events env Henv n; induction n as [|k IH];
    intros pc s tr s' H Hp Hr.
  - cbn [asyncmsgq_cb_run] in H; unfold mret in H; injection H; intros; subst; exact (Hr eq_refl).
  - destruct (cb_pc_eq_dec_return pc) as [->|Hpc].
    + cbn [asyncmsgq_cb_run] in H; unfold mret in H; injection H; intros; subst; exact (Hr eq_refl).
    + rewrite (cb_run_unfold _ _ _ _ _ _ _ Hpc) in H.
      unfold mbind at 1 in H.
      destruct (env k s) as [[[] s1]| |] eqn:Ee; try discriminate.
      unfold mbind at 1 in H.
      destruct (asyncmsgq_cb_step process_msg fd events pc s1) as [[[tr1 pc1] s2]| |]
        eqn:Es; try discriminate.
      unfold mbind in H.
      destruct (asyncmsgq_cb_run process_msg fd events env k pc1 s2)
        as [[[tr2 pc2] s3]| |] eqn:Er; try discriminate.
      unfold mret in H; injection H as _ -> <-.
      destruct (cb_step_state _ _ _ _ _ _ _ _ Es Hpc) as [S1 S2].
      { intros Hp'; rewrite (Henv _ _ _ Ee); exact (Hp Hp'). }
      apply (IH pc1 s2 tr2 s3 Er S1 S2).
Qed.

Lemma get_pop : forall s o wait i rest,
  current s = None -> q s = i :: rest ->
  (forall ob, object (mem s i) = Some ob -> 0 < objref s ob) ->
  exists s', pa_asyncmsgq_get all_ptrs o wait s =
    Ok ((0, {| v_object := object (mem s i); v_code := code (mem s i);
               v_userdata := userdata (mem s i); v_offset := offset (mem s i);
               v_chunk := memchunk_ (mem s i) |}), s') /\
    q s' = rest /\ current s' = Some i /\ mem s' = mem s /\ flist s' = flist s /\
    next_ptr s' = next_ptr s /\ objref s' = objref s /\ blockref s' = blockref s /\
    log s' = log s.
Proof.
  intros s o wait i rest Hc Hq Ho.
  destruct s as [m np ql cap fd cur fl sms ns fo fb lg]; simpl in *; subst cur ql.
  unfold pa_asyncmsgq_get; munfold; simpl.
  destruct (object (m i)) as [ob|] eqn:Eo; simpl.
  - specialize (Ho ob eq_refl); apply Z.ltb_lt in Ho; rewrite Ho; simpl.
    eexists; split; [reflexivity|]; repeat split.
  - eexists; split; [reflexivity|]; repeat split.
Qed.

Lemma post_ok : forall s obj c ud off chunk cb,
  (length (q s) < q_cap s)%nat -> (forall ch, chunk = Some ch -> memblock ch <> None) ->
  exists s', pa_asyncmsgq_post obj c ud off chunk cb s = Ok (tt, s').
Proof.
  intros s obj c ud off chunk cb Hl Hb.
  destruct s as [m np ql cap fd cur fl sms ns fo fb lg]; simpl in *.
  apply Nat.ltb_lt in Hl.
  unfold pa_asyncmsgq_post; munfold; simpl.
  destruct chunk as [ch|];
    [destruct (memblock ch) as [b|] eqn:Eb; [|exfalso; exact (Hb ch eq_refl Eb)]|];
    destruct fl; destruct obj; simpl; rewrite ?Eb; simpl; rewrite Hl; simpl; eexists; reflexivity.
Qed.

Lemma done_ok : forall s r i,
  current s = Some i -> exists s', pa_asyncmsgq_done r s = Ok (tt, s').
Proof.
  intros s r i Hc.
  destruct s as [m np ql cap fd cur fl sms ns fo fb lg]; simpl in *; subst cur.
  unfold pa_asyncmsgq_done; munfold; simpl.
  repeat (case_goal; simpl); eexists; reflexivity.
Qed.

Lemma post_get_done_cycle_gen : forall s obj c ud off chunk cb r,
  current s = None -> q s = [] -> (0 < q_cap s)%nat ->
  (length (flist s) <= FLIST_SIZE)%nat ->
  (forall ob, obj = Some ob -> 0 <= objref s ob) ->
  (forall ch, chunk = Some ch -> memblock ch <> None) ->
  exists s1 s2 s3,
    pa_asyncmsgq_post obj c ud off chunk cb s = Ok (tt, s1) /\
    pa_asyncmsgq_get all_ptrs outvals_undef false s1 =
      Ok ((0, {| v_object := obj; v_code := c; v_userdata := ud; v_offset := off;
                 v_chunk := match chunk with Some ch => ch | None => memchunk_reset end |}),
          s2) /\
    current s2 = Some (match flist s with j :: _ => j | [] => next_ptr s end) /\
    q s2 = [] /\
    pa_asyncmsgq_done r s2 = Ok (tt, s3) /\
    q s3 = [] /\ current s3 = None /\
    (forall ob, objref s3 ob = objref s ob) /\ (forall b, blockref s3 b = blockref s b) /\
    flist s3 = match flist s with j :: _ => j | [] => next_ptr s end :: tl (flist s) /\
    log s3 = log s ++
      (match obj with Some ob => [EvObjRef ob] | None => [] end ++
       match option_map memblock chunk with Some (Some b) => [EvBlockRef b] | _ => [] end) ++
      [EvDone (match flist s with j :: _ => j | [] => next_ptr s end) r] ++
      (match cb with Some f => [EvFreeCb f ud] | None => [] end ++
       match obj with Some ob => [EvObjUnref ob] | None => [] end ++
       match option_map memblock chunk with Some (Some b) => [EvBlockUnref b] | _ => [] end).
Proof.
  intros s obj c ud off chunk cb r Hc Hq Hcap Hfl Ho Hb.
  destruct (post_ok s obj c ud off chunk cb) as [s1 E1]; [rewrite Hq; exact Hcap|exact Hb|].
  pose proof (post_effect _ _ _ _ _ _ _ _ E1) as P; cbv zeta in P.
  destruct P as (Pfl & Pnp & Pm & Pq & Pc & Po & Pb & Pl).
  set (y := match flist s with j :: _ => j | [] => next_ptr s end) in *.
  rewrite Hq in Pq; simpl in Pq.
  destruct (get_pop s1 outvals_undef false y []) as (s2 & E2 & Gq & Gc & Gm & Gfl & Gnp & Go & Gb & Gl).
  { rewrite Pc; exact Hc. }
  { exact Pq. }
  { intros ob E; rewrite Pm, upd_eq in E; simpl in E; subst obj.
    rewrite Po, upd_eq; specialize (Ho ob eq_refl); lia. }
  rewrite Pm, upd_eq in E2; simpl in E2.
  destruct (done_ok s2 r y Gc) as [s3 E3].
  destruct (done_effect _ _ _ E3) as (i & Ci & Cc & Cq & Cnp & Ccase).
  rewrite Gc in Ci; injection Ci as <-.
  rewrite Gm, Pm, upd_eq in Ccase; simpl in Ccase.
  destruct Ccase as [(sm & Hsm & _)|(_ & Dm & Dfl & Do & Db & Dl)]; [discriminate|].
  exists s1, s2, s3.
  split; [exact E1|]; split; [exact E2|]; split; [exact Gc|]; split; [exact Gq|].
  split; [exact E3|]; split; [rewrite Cq; exact Gq|]; split; [exact Cc|].
  assert (Hlt : Nat.ltb (length (flist s2)) FLIST_SIZE = true).
  { apply Nat.ltb_lt; rewrite Gfl, Pfl; unfold y in *.
    destruct (flist s) as [|j l]; simpl in *; unfold FLIST_SIZE in *; lia. }
  split; [|split; [|split]].
  - intro ob; rewrite Do, Go, Po.
    destruct obj as [ob'|]; [|reflexivity].
    destruct (Nat.eqb_spec ob' ob) as [<-|Hne].
    + rewrite !upd_eq; lia.
    + rewrite !upd_neq by congruence; reflexivity.
  - intro b; rewrite Db, Gb, Pb.
    destruct chunk as [ch|]; cbn [option_map memblock memchunk_reset]; [|reflexivity].
    destruct (memblock ch) as [b'|]; [|reflexivity].
    destruct (Nat.eqb_spec b' b) as [<-|Hne].
    + rewrite !upd_eq; lia.
    + rewrite !upd_neq by congruence; reflexivity.
  - rewrite Dfl, Hlt, Gfl, Pfl; reflexivity.
  - rewrite Dl, Gl, Pl; unfold done_release_events; rewrite Hlt; simpl.
    rewrite <- !app_assoc; f_equal; f_equal;
    destruct chunk as [ch|]; simpl; [|rewrite app_nil_r; reflexivity].
    rewrite app_nil_r; reflexivity.
Qed.

Lemma free_loop_iter_refs : forall s i r n,
  q s = i :: r -> semaphore (mem s i) = None ->
  exists s1,
    free_loop (S n) s = free_loop n s1 /\ q s1 = r /\ mem s1 = mem s /\
    objref s1 = match object (mem s i) with
                | Some ob => upd (objref s) ob (objref s ob - 1)
                | None => objref s end /\
    blockref s1 = match memblock (memchunk_ (mem s i)) with
                  | Some b => upd (blockref s) b (blockref s b - 1)
                  | None => blockref s end.
Proof.
  intros s i r n Hq Hs.
  destruct s as [m np ql cap fd cur fl sms ns fo fb lg]; simpl in *; subst ql.
  cbn [free_loop]; munfold; simpl; rewrite Hs; simpl.
  destruct (object (m i)), (memblock (memchunk_ (m i))), (free_cb (m i)); simpl;
    destruct (Nat.ltb (length fl) FLIST_SIZE); simpl;
    (eexists; split; [reflexivity|]); simpl; repeat split.
Qed.

Lemma free_loop_refs : forall l s n,
  q s = l -> (length l < n)%nat ->
  (forall i, In i l -> semaphore (mem s i) = None) ->
  exists s', free_loop n s = Ok (tt, s') /\ q s' = [] /\
    (forall ob, objref s' ob = objref s ob - count_items (is_post_of ob) (mem s) l) /\
    (forall b, blockref s' b = blockref s b - count_items (is_post_block b) (mem s) l).
Proof.
  induction l as [|i r IH]; intros s n Hq Hn Hs.
  - destruct n as [|n]; [simpl in Hn; lia|].
    destruct s as [m np ql cap fd cur fl sms ns fo fb lg]; simpl in *; subst ql.
    cbn [free_loop]; munfold; simpl.
    eexists; split; [reflexivity|]; simpl; repeat split; intros;
      rewrite count_items_nil; lia.
  - destruct n as [|n]; [simpl in Hn; lia|].
    assert (Hsi : semaphore (mem s i) = None) by (apply Hs; left; reflexivity).
    destruct (free_loop_iter_refs s i r n Hq Hsi) as (s1 & E & Hq1 & Hm1 & Ho1 & Hb1).
    rewrite E.
    destruct (IH s1 n Hq1) as (s' & E' & Hq' & Ho' & Hb').
    + simpl in Hn; lia.
    + intros x Hx; rewrite Hm1; apply Hs; right; exact Hx.
    + exists s'; split; [exact E'|split; [exact Hq'|split]].
      * intro ob; rewrite Ho', Hm1, Ho1.
        change (i :: r) with ([i] ++ r); rewrite count_items_app, count_items_one.
        unfold is_post_of at 2; rewrite Hsi; cbv [is_none is_some negb andb].
        destruct (object (mem s i)) as [ob'|].
        -- destruct (Nat.eqb_spec ob' ob) as [<-|Hne].
           ++ rewrite upd_eq; lia.
           ++ rewrite upd_neq by congruence; lia.
        -- lia.
      * intro b; rewrite Hb', Hm1, Hb1.
        change (i :: r) with ([i] ++ r); rewrite count_items_app, count_items_one.
        unfold is_post_block at 2; rewrite Hsi; cbv [is_none is_some negb andb].
        destruct (memblock (memchunk_ (mem s i))) as [b'|].
        -- destruct (Nat.eqb_spec b' b) as [<-|Hne].
           ++ rewrite upd_eq; lia.
           ++ rewrite upd_neq by congruence; lia.
        -- lia.
Qed.

Lemma msgq_free_refs : forall s,
  (forall i, In i (q s) -> semaphore (mem s i) = None) ->
  exists s', pa_asyncmsgq_free s = Ok (tt, s') /\ q s' = [] /\
    (forall ob, objref s' ob = objref s ob - count_items (is_post_of ob) (mem s) (q s)) /\
    (forall b, blockref s' b = blockref s b - count_items (is_post_block b) (mem s) (q s)).
Proof.
  intros s Hs.
  destruct (free_loop_refs (q s) s (S (length (q s))) eq_refl (Nat.lt_succ_diag_r _) Hs)
    as (s1 & E & Hq & Ho & Hb).
  unfold pa_asyncmsgq_free; unfold mbind at 1; rewrite E.
  munfold; simpl.
  eexists; split; [reflexivity|]; simpl; split; [exact Hq|split; assumption].
Qed.

Lemma sys_exec_step : forall X a Y, sys_exec X a = Some Y -> sys_step X a Y.
Proof.
  intros [s ss] a Y H; destruct a; simpl in H.
  - destruct (pa_asyncmsgq_post obj c ud off chunk cb s) as [[[] s']| |] eqn:E;
      try discriminate; injection H as <-; apply step_post; exact E.
  - destruct (send_start obj c ud off chunk s) as [[i s']| |] eqn:E;
      try discriminate; injection H as <-; apply step_send; exact E.
  - destruct (in_dec Nat.eq_dec i ss) as [Hi|]; [|discriminate].
    destruct (send_finish i s) as [[r s']| |] eqn:E;
      try discriminate; injection H as <-; eapply step_send_return; [exact Hi|exact E].
  - destruct (pa_asyncmsgq_get all_ptrs outvals_undef wait s) as [[[r o] s']| |] eqn:E;
      try discriminate; injection H as <-; eapply step_get; exact E.
  - destruct (pa_asyncmsgq_done r s) as [[[] s']| |] eqn:E;
      try discriminate; injection H as <-; apply step_done; exact E.
Qed.

Lemma sys_run_reachable : forall l X Y, sys_run X l = Some Y -> reachable X Y.
Proof.
  induction l as [|a l IH]; intros X Y H; simpl in H.
  - injection H as <-; apply reach_refl.
  - destruct (sys_exec X a) as [Z|] eqn:E; [|discriminate].
    apply (reach_step X a Z Y (sys_exec_step _ _ _ E)), IH, H.
Qed.

Lemma sys_final_reachable : forall X l,
  is_some (sys_run X l) = true -> reachable X (sys_final X l).
Proof.
  intros X l H; unfold sys_final; destruct (sys_run X l) as [Y|] eqn:E; [|discriminate].
  exact (sys_run_reachable _ _ _ E).
Qed.

Lemma core_new_cases : forall mp cap items fo fb m shared,
  pa_core_new mp cap items fo fb m shared =
  match (if shared =? 0 then mp 0
         else match mp shared with Some p => Some p | None => mp 0 end) with
  | None => Ok None
  | Some p =>
      Ok (Some ({| quit_event := None; exit_idle_time := -1;
                   module_idle_time := 20; scache_idle_time := 20;
                   n_clients := O; mempool := p; asyncmsgq_event := ml_next m |},
                msgq_init cap items fo fb,
                snd (ml_io_new m 0 PA_IO_EVENT_INPUT)))
  end.
Proof.
  intros; unfold pa_core_new.
  destruct (shared =? 0) eqn:E; simpl; [apply Z.eqb_eq in E; subst; simpl|].
  - destruct (mp 0); reflexivity.
  - destruct (mp shared); simpl; [rewrite E; reflexivity|destruct (mp 0); reflexivity].
Qed.

Lemma sample_env_current : forall k s0 s1,
  sample_env k s0 = Ok (tt, s1) -> current s1 = current s0.
Proof.
  intros k s0 s1 H; unfold sample_env in H; destruct (Nat.eqb k 3).
  - exact (proj1 (proj2 (proj2 (proj2 (proj2 (post_effect _ _ _ _ _ _ _ _ H)))))).
  - unfold mret in H; injection H; intros; subst; reflexivity.
Qed.

(** ** C1: done on an item without semaphore *)

(** C1: [pa_asyncmsgq_done] on an in-flight item without reply semaphore
    calls [free_cb(userdata)] if set, unrefs the object if set, unrefs the
    memblock if set (each once, in this order), returns the record to the
    free list or frees it when the list is full, and clears [current];
    nothing else changes. *)
Theorem done_post_path_releases_once :
  forall s i r,
    current s = Some i ->
    semaphore (mem s i) = None ->
    let it := mem s i in
    exists s',
      pa_asyncmsgq_done r s = Ok (tt, s') /\
      current s' = None /\
      log s' = log s ++ [EvDone i r] ++ done_release_events i it (length (flist s)) /\
      flist s' = (if Nat.ltb (length (flist s)) FLIST_SIZE
                  then i :: flist s else flist s) /\
      objref s' = match object it with
                  | Some ob => upd (objref s) ob (objref s ob - 1)
                  | None => objref s end /\
      blockref s' = match memblock (memchunk_ it) with
                    | Some b => upd (blockref s) b (blockref s b - 1)
                    | None => blockref s end /\
      mem s' = mem s /\ q s' = q s /\ sems s' = sems s.
Proof.
  intros s i r Hc Hs it.
  destruct s as [m np ql cap fd cur fl sm ns fo fb lg]; simpl in *; subst cur.
  unfold pa_asyncmsgq_done, done_release_events, it in *; clear it.
  munfold; simpl; rewrite Hs; simpl.
  destruct (free_cb (m i)) as [cb|]; destruct (object (m i)) as [ob|];
    destruct (memblock (memchunk_ (m i))) as [b|];
    simpl; destruct (Nat.ltb (length fl) FLIST_SIZE) eqn:Hl; simpl;
    eexists; (split; [reflexivity|]); simpl;
    repeat split; rewrite ?app_nil_r, <- ?app_assoc; reflexivity.
Qed.

(** ** C3: the send path *)

(** C3: [pa_asyncmsgq_send] stores object and chunk without touching any
    refcount, the free list or the log, with [free_cb] NULL; [done] on an
    item with a semaphore only writes [ret] (the other fields are kept by
    [set_ret]) and posts the semaphore; the rest of [send] only frees the
    semaphore. *)
Theorem send_path_never_releases :
  (forall s obj c ud off chunk i s',
      send_start obj c ud off chunk s = Ok (i, s') ->
      objref s' = objref s /\ blockref s' = blockref s /\
      flist s' = flist s /\ log s' = log s /\
      mem s' i = {| code := c; object := obj; userdata := ud; free_cb := None;
                    offset := off;
                    memchunk_ := match chunk with Some ch => ch | None => memchunk_reset end;
                    semaphore := Some (next_sem s); ret := -1 |}) /\
  (forall s i sm r,
      current s = Some i ->
      semaphore (mem s i) = Some sm ->
      pa_asyncmsgq_done r s =
        Ok (tt, {| mem := upd (mem s) i (set_ret (mem s i) r);
                   next_ptr := next_ptr s; q := q s; q_cap := q_cap s;
                   q_fd := q_fd s; current := None; flist := flist s;
                   sems := upd (sems s) sm (S (sems s sm));
                   next_sem := next_sem s; objref := objref s;
                   blockref := blockref s;
                   log := log s ++ [EvDone i r; EvSemPost sm] |})) /\
  (forall s i r s',
      send_finish i s = Ok (r, s') ->
      objref s' = objref s /\ blockref s' = blockref s /\
      flist s' = flist s /\ mem s' = mem s /\
      exists sm, log s' = log s ++ [EvSemFree sm]).
Proof.
  split; [|split].
  - intros s obj c ud off chunk i s' H.
    destruct s as [m np ql cap fd cur fl sm ns fo fb lg].
    unfold send_start in H; munfold; simpl in H.
    destruct chunk as [ch|]; [destruct (memblock ch) eqn:Hb|]; simpl in H;
      try discriminate;
      destruct (Nat.ltb (length ql) cap); simpl in H; try discriminate;
      injection H as <- <-; simpl; rewrite upd_eq; repeat split.
  - intros s i sm r Hc Hs.
    destruct s as [m np ql cap fd cur fl sms ns fo fb lg]; simpl in *; subst cur.
    unfold pa_asyncmsgq_done; munfold; simpl; rewrite Hs; simpl.
    rewrite <- app_assoc; reflexivity.
  - intros s i r s' H.
    destruct s as [m np ql cap fd cur fl sms ns fo fb lg].
    unfold send_finish in H; munfold; simpl in H.
    destruct (semaphore (m i)) as [sm|]; [|discriminate].
    match type of H with
    | context [match ?x with O => _ | S _ => _ end] => destruct x eqn:E
    end; simpl in H; [discriminate|].
    simpl in H; injection H as <- <-; simpl.
    repeat split; eauto.
Qed.

(** ** C4: the consumer state machine *)

(** C4: [get] aborts when an item is in flight; on an empty queue with
    [wait = false] it returns -1 and leaves the state as it was; a
    successful [get] makes the popped head the in-flight item; [done]
    aborts when nothing is in flight and otherwise always clears
    [current]; the producer operations leave [current] alone. *)
Theorem consumer_state_machine :
  (forall s p o wait,
      p_code p = true -> current s <> None ->
      pa_asyncmsgq_get p o wait s = Abort) /\
  (forall s p o,
      p_code p = true -> current s = None -> q s = [] ->
      pa_asyncmsgq_get p o false s = Ok ((-1, o), s)) /\
  (forall s p o wait r o' s',
      pa_asyncmsgq_get p o wait s = Ok ((r, o'), s') ->
      current s = None /\
      ((r = 0 /\ exists i, q s = i :: q s' /\ current s' = Some i) \/
       (r = -1 /\ s' = s))) /\
  (forall s r,
      current s = None -> pa_asyncmsgq_done r s = Abort) /\
  (forall s r s',
      pa_asyncmsgq_done r s = Ok (tt, s') ->
      current s <> None /\ current s' = None) /\
  (forall s obj c ud off chunk cb s',
      pa_asyncmsgq_post obj c ud off chunk cb s = Ok (tt, s') ->
      current s' = current s) /\
  (forall s obj c ud off chunk i s',
      send_start obj c ud off chunk s = Ok (i, s') ->
      current s' = current s) /\
  (forall s i r s',
      send_finish i s = Ok (r, s') -> current s' = current s).
Proof.
  refine (conj _ (conj _ (conj _ (conj _ (conj _ (conj _ (conj _ _))))))).
  - intros s p o wait Hp Hc.
    destruct s as [m np ql cap fd cur fl sms ns fo fb lg]; simpl in Hc.
    unfold pa_asyncmsgq_get; munfold; simpl; rewrite Hp; simpl.
    destruct cur; [reflexivity|congruence].
  - intros s p o Hp Hc Hq.
    destruct s as [m np ql cap fd cur fl sms ns fo fb lg]; simpl in *; subst.
    unfold pa_asyncmsgq_get; munfold; simpl; rewrite Hp; reflexivity.
  - intros s p o wait r o' s' H.
    destruct s as [m np ql cap fd cur fl sms ns fo fb lg].
    unfold pa_asyncmsgq_get in H; munfold; simpl in H.
    destruct (p_code p); simpl in H; [|discriminate].
    destruct cur; simpl in H; [discriminate|].
    destruct ql as [|i rest]; simpl in H.
    + destruct wait; [discriminate|].
      injection H as <- <- <-; split; [reflexivity|right; split; reflexivity].
    + cases_in H;
        injection H as <- <- <-; simpl; (split; [reflexivity|]);
        left; (split; [reflexivity|]); exists i; split; reflexivity.
  - intros s r Hc.
    destruct s as [m np ql cap fd cur fl sms ns fo fb lg]; simpl in Hc; subst.
    reflexivity.
  - intros s r s' H.
    destruct s as [m np ql cap fd cur fl sms ns fo fb lg].
    unfold pa_asyncmsgq_done in H; munfold; simpl in H.
    destruct cur as [i|]; simpl in H; [|discriminate].
    split; [discriminate|].
    destruct (semaphore (m i)); simpl in H.
    + injection H as <-; reflexivity.
    + cases_in H; injection H as <-; reflexivity.
  - intros s obj c ud off chunk cb s' H.
    destruct s as [m np ql cap fd cur fl sms ns fo fb lg].
    unfold pa_asyncmsgq_post in H; munfold; simpl in H.
    destruct fl; destruct obj; simpl in H;
      (destruct chunk as [ch|]; [destruct (memblock ch)|]); simpl in H;
      try discriminate;
      match type of H with
      | context [if Nat.ltb ?a ?b then _ else _] => destruct (Nat.ltb a b)
      end; simpl in H; try discriminate;
      injection H as <-; reflexivity.
  - intros s obj c ud off chunk i s' H.
    destruct s as [m np ql cap fd cur fl sms ns fo fb lg].
    unfold send_start in H; munfold; simpl in H.
    destruct chunk as [ch|]; [destruct (memblock ch)|]; simpl in H;
      try discriminate;
      destruct (Nat.ltb (length ql) cap); simpl in H; try discriminate;
      injection H as <- <-; reflexivity.
  - intros s i r s' H.
    destruct s as [m np ql cap fd cur fl sms ns fo fb lg].
    unfold send_finish in H; munfold; simpl in H.
    destruct (semaphore (m i)) as [sm|]; [|discriminate].
    match type of H with
    | context [match ?x with O => _ | S _ => _ end] => destruct x
    end; simpl in H; [discriminate|].
    injection H as <- <-; reflexivity.
Qed.

(** ** C6: post *)

(** C6: [pa_asyncmsgq_post] takes a record from the free list (else a
    fresh one), refs the object if given, asserts the chunk's block and
    refs it if a chunk is given, stores code, userdata, free_cb, offset
    and chunk with no semaphore, and appends the record to the queue.
    With a valid chunk it never aborts: on a full queue it waits. *)
Theorem post_enqueues :
  (forall s obj c ud off chunk cb,
      (forall ch, chunk = Some ch -> memblock ch <> None) ->
      (length (q s) < q_cap s)%nat ->
      let i := match flist s with j :: _ => j | [] => next_ptr s end in
      exists s',
        pa_asyncmsgq_post obj c ud off chunk cb s = Ok (tt, s') /\
        mem s' = upd (mem s) i
                   {| code := c; object := obj; userdata := ud; free_cb := cb;
                      offset := off;
                      memchunk_ := match chunk with Some ch => ch | None => memchunk_reset end;
                      semaphore := None; ret := ret (mem s i) |} /\
        q s' = q s ++ [i] /\
        flist s' = tl (flist s) /\
        next_ptr s' = match flist s with [] => S (next_ptr s) | _ => next_ptr s end /\
        objref s' = match obj with
                    | Some ob => upd (objref s) ob (objref s ob + 1)
                    | None => objref s end /\
        blockref s' = match option_map memblock chunk with
                      | Some (Some b) => upd (blockref s) b (blockref s b + 1)
                      | _ => blockref s end /\
        log s' = log s ++ match obj with Some ob => [EvObjRef ob] | None => [] end
                       ++ match option_map memblock chunk with
                          | Some (Some b) => [EvBlockRef b] | _ => [] end /\
        current s' = current s /\ sems s' = sems s) /\
  (forall s obj c ud off chunk cb,
      (forall ch, chunk = Some ch -> memblock ch <> None) ->
      (q_cap s <= length (q s))%nat ->
      pa_asyncmsgq_post obj c ud off chunk cb s = Blocked) /\
  (forall s obj c ud off ch cb,
      memblock ch = None ->
      pa_asyncmsgq_post obj c ud off (Some ch) cb s = Abort).
Proof.
  refine (conj _ (conj _ _)).
  - intros s obj c ud off chunk cb Hch Hq i.
    destruct s as [m np ql cap fd cur fl sms ns fo fb lg]; simpl in *.
    unfold pa_asyncmsgq_post; munfold; simpl.
    apply Nat.ltb_lt in Hq.
    destruct chunk as [ch|].
    + destruct (memblock ch) as [b|] eqn:Hb; [|exfalso; exact (Hch ch eq_refl Hb)].
      destruct fl as [|j fl]; destruct obj as [ob|]; simpl; rewrite ?Hq; simpl;
        (eexists; split; [reflexivity|]); simpl; subst i; rewrite ?Hb;
        repeat split; rewrite <- ?app_assoc; reflexivity.
    + destruct fl as [|j fl]; destruct obj as [ob|]; simpl; rewrite ?Hq; simpl;
        (eexists; split; [reflexivity|]); simpl; subst i;
        repeat split; rewrite <- ?app_assoc, ?app_nil_r; reflexivity.
  - intros s obj c ud off chunk cb Hch Hq.
    destruct s as [m np ql cap fd cur fl sms ns fo fb lg]; simpl in *.
    unfold pa_asyncmsgq_post; munfold; simpl.
    apply Nat.ltb_ge in Hq.
    destruct chunk as [ch|].
    + destruct (memblock ch) as [b|] eqn:Hb; [|exfalso; exact (Hch ch eq_refl Hb)].
      destruct fl; destruct obj; simpl; rewrite ?Hq; reflexivity.
    + destruct fl; destruct obj; simpl; rewrite ?Hq; reflexivity.
  - intros s obj c ud off ch cb Hb.
    destruct s as [m np ql cap fd cur fl sms ns fo fb lg].
    unfold pa_asyncmsgq_post; munfold; simpl.
    destruct fl; destruct obj; simpl; rewrite Hb; reflexivity.
Qed.

(** ** C10: NULL out-pointers of get *)

(** C10: [pa_asyncmsgq_get] requires a non-NULL [code] pointer; the other
    out-pointers may each be NULL, in any combination, and then the
    corresponding variable is left as it was: whichever of them are NULL,
    a non-empty queue yields its head item (when the [object] pointer is
    non-NULL, provided the item's object still holds a reference, which
    [pa_msgobject_assert_ref] checks); on success every non-NULL
    out-pointer receives the field of the popped item. *)
Theorem get_null_outptrs :
  (forall s p o wait,
      p_code p = false -> pa_asyncmsgq_get p o wait s = Abort) /\
  (forall s p o wait i rest,
      p_code p = true -> current s = None -> q s = i :: rest ->
      (p_object p = true -> forall ob, object (mem s i) = Some ob -> 0 < objref s ob) ->
      exists s',
        pa_asyncmsgq_get p o wait s =
          Ok ((0, {| v_object := if p_object p then object (mem s i) else v_object o;
                     v_code := code (mem s i);
                     v_userdata := if p_userdata p then userdata (mem s i) else v_userdata o;
                     v_offset := if p_offset p then offset (mem s i) else v_offset o;
                     v_chunk := if p_chunk p then memchunk_ (mem s i) else v_chunk o |}),
              s') /\
        current s' = Some i /\ q s' = rest) /\
  (forall s p o wait o' s',
      pa_asyncmsgq_get p o wait s = Ok ((0, o'), s') ->
      exists i,
        q s = i :: q s' /\ current s' = Some i /\
        o' = {| v_object := if p_object p then object (mem s i) else v_object o;
                v_code := code (mem s i);
                v_userdata := if p_userdata p then userdata (mem s i) else v_userdata o;
                v_offset := if p_offset p then offset (mem s i) else v_offset o;
                v_chunk := if p_chunk p then memchunk_ (mem s i) else v_chunk o |}).
Proof.
  refine (conj _ (conj _ _)).
  - intros s p o wait Hp.
    unfold pa_asyncmsgq_get; munfold; rewrite Hp; reflexivity.
  - intros s p o wait i rest Hp Hc Hq Ho.
    destruct s as [m np ql cap fd cur fl sms ns fo fb lg]; simpl in *; subst.
    unfold pa_asyncmsgq_get; munfold; simpl; rewrite Hp; simpl.
    destruct (p_object p) eqn:Ep; simpl.
    + destruct (object (m i)) as [ob|] eqn:Eo; simpl.
      * specialize (Ho eq_refl ob eq_refl); apply Z.ltb_lt in Ho; rewrite Ho; simpl.
        eexists; split; [reflexivity|split; reflexivity].
      * eexists; split; [reflexivity|split; reflexivity].
    + eexists; split; [reflexivity|split; reflexivity].
  - intros s p o wait o' s' H.
    destruct s as [m np ql cap fd cur fl sms ns fo fb lg].
    unfold pa_asyncmsgq_get in H; munfold; simpl in H.
    destruct (p_code p); simpl in H; [|discriminate].
    destruct cur; simpl in H; [discriminate|].
    destruct ql as [|i rest]; simpl in H.
    + destruct wait; discriminate.
    + exists i.
      destruct (p_object p), (p_userdata p), (p_offset p), (p_chunk p);
        simpl in *; cases_in H; injection H as <- <-; repeat split; reflexivity.
Qed.

(** ** C9: dispatch *)

(** C9: [pa_asyncmsgq_dispatch] returns what the object's [process_msg]
    returns on the same arguments, and 0 without an object; it is a
    function of its arguments alone (it takes no queue state). *)
Theorem dispatch_result :
  forall process_msg obj c ud off mc,
    pa_asyncmsgq_dispatch process_msg obj c ud off mc =
    match obj with
    | Some ob => process_msg ob c ud off mc
    | None => 0
    end.
Proof. intros process_msg [ob|] c ud off mc; reflexivity. Qed.

(** ** C7: destruction *)

(** C7: [pa_asyncmsgq_free] drains every queued item; for each it unrefs
    the object, unrefs the block and calls [free_cb(userdata)] (when set),
    and recycles the record; then it frees the asyncq, the mutex and the
    structure.  An item with a reply semaphore in the queue fails the
    assertion. *)
Theorem free_drains_and_releases :
  (forall s,
      (forall i, In i (q s) -> semaphore (mem s i) = None) ->
      exists s',
        pa_asyncmsgq_free s = Ok (tt, s') /\ q s' = [] /\
        log s' = log s ++ free_drain_events (mem s) (length (flist s)) (q s)
                       ++ [EvAsyncqFree; EvMutexFree; EvMsgqFree]) /\
  (forall s i,
      In i (q s) -> semaphore (mem s i) <> None ->
      pa_asyncmsgq_free s = Abort).
Proof.
  split.
  - intros s Hs.
    destruct (free_loop_drains (q s) s (S (length (q s))) eq_refl
                (Nat.lt_succ_diag_r _) Hs) as [s' [E [Hq Hlog]]].
    unfold pa_asyncmsgq_free, mbind at 1; rewrite E.
    destruct s' as [m np ql cap fd cur fl sms ns fo fb lg]; simpl in *; subst ql lg.
    munfold; simpl.
    eexists; split; [reflexivity|]; split; [reflexivity|].
    simpl; rewrite <- !app_assoc; reflexivity.
  - intros s i Hi Hs.
    unfold pa_asyncmsgq_free, mbind at 1.
    rewrite (free_loop_asserts (q s) s (S (length (q s))) eq_refl
               (Nat.lt_succ_diag_r _) (ex_intro _ i (conj Hi Hs))).
    reflexivity.
Qed.

(** ** C5: wait_for *)

(** C5: from an idle consumer, [pa_asyncmsgq_wait_for c0] gets,
    dispatches and completes the queued items in order, each exactly once,
    up to and including the first one with code [c0], and then returns 0;
    it returns nothing else (a waiting [get] never fails, so the -1 exit is
    never taken).  When no queued item has code [c0] it does not return
    (it waits in [get]); when every queued object still holds the
    references the queue needs, it returns 0 exactly when such an item is
    queued. *)
Theorem wait_for_dispatches_through_code :
  forall process_msg s c0,
    current s = None ->
    let f := fun i => code (mem s i) =? c0 in
    (forall r s',
        pa_asyncmsgq_wait_for process_msg c0 s = Ok (r, s') ->
        r = 0 /\
        exists pre rest,
          take_through f (q s) = Some (pre, rest) /\
          q s' = rest /\ current s' = None /\
          dones (log s') = dones (log s) ++
                           map (fun i => (i, dispatch_item process_msg (mem s i))) pre) /\
    (take_through f (q s) = None ->
     pa_asyncmsgq_wait_for process_msg c0 s = Blocked \/
     pa_asyncmsgq_wait_for process_msg c0 s = Abort) /\
    (refs_ok (mem s) (objref s) (q s) ->
     (take_through f (q s) <> None ->
      exists s', pa_asyncmsgq_wait_for process_msg c0 s = Ok (0, s')) /\
     (take_through f (q s) = None ->
      pa_asyncmsgq_wait_for process_msg c0 s = Blocked)).
Proof.
  intros process_msg s c0 Hc f.
  pose proof (wait_for_loop_result process_msg c0 (q s) s (S (length (q s))) (mem s)
                eq_refl Hc (Nat.lt_succ_diag_r _) (same_payload_refl _)) as HR.
  pose proof (wait_for_loop_no_abort process_msg c0 (q s) s (S (length (q s)))
                eq_refl Hc (Nat.lt_succ_diag_r _)) as HA.
  unfold pa_asyncmsgq_wait_for; fold f in HR.
  destruct (wait_for_loop process_msg (S (length (q s))) c0 s) as [[r s']| |].
  - destruct HR as [Hr [pre [rest [Ht HR]]]].
    split; [intros r0 s0 E; injection E as <- <-; split; [exact Hr|];
            exists pre, rest; split; [exact Ht|exact HR]|].
    split; [intro Hn; congruence|].
    intros _; subst r; split; [intros _; exists s'; reflexivity|intro Hn; congruence].
  - split; [intros r s' E; discriminate|].
    split; [intros _; right; reflexivity|].
    intros Hrefs; exfalso; exact (HA Hrefs eq_refl).
  - split; [intros r s' E; discriminate|].
    split; [intros _; left; reflexivity|].
    intros _; split; [intro Hn; contradiction|intros _; reflexivity].
Qed.

(** ** C8: the readiness callback of the core *)

(** C8: every run of [asyncmsgq_cb] (whatever the producers do in
    between) performs the drain idiom: [after_poll] first, then
    [get(wait=false)] with dispatch and done (with the dispatch result)
    while [get] succeeds, then [before_poll], draining again after a
    nonzero [before_poll]; and it has returned only if the last call was a
    [before_poll] that returned 0. *)
Theorem cb_follows_drain_idiom :
  forall process_msg fd events env n s tr pc s',
    asyncmsgq_cb_run process_msg fd events env n CB_Entry s = Ok ((tr, pc), s') ->
    idiom_run I_Start tr = Some (pc_idiom pc) /\
    (pc = CB_Return -> exists tr0, tr = tr0 ++ [CBeforePoll 0]).
Proof.
  intros process_msg fd events env n s tr pc s' H.
  destruct (cb_run_idiom process_msg fd events env n CB_Entry s tr pc s' H) as [H1 H2].
  split; [exact H1|].
  intros Hr; destruct (H2 Hr) as [[Habs _]|Hend]; [discriminate|exact Hend].
Qed.

(** ** C2: the value returned by send *)

(** C2: in every system reachable from a fresh queue, interleaving posts,
    sends, gets and dones, when a pending [pa_asyncmsgq_send] of item [i]
    returns [r]: its wait consumed the item's semaphore and destroyed it,
    and the log holds exactly one completion [pa_asyncmsgq_done] of that
    item, made with return value [r]. *)
Theorem send_returns_done_value : forall cap m fo fb X i r s',
  reachable (mkSys (msgq_init cap m fo fb) []) X ->
  In i (senders X) ->
  send_finish i (st X) = Ok (r, s') ->
  exists sm, semaphore (mem (st X) i) = Some sm /\
    log s' = log (st X) ++ [EvSemFree sm] /\
    r = ret (mem (st X) i) /\
    dones_of i (log s') = [r].
Proof.
  intros cap m fo fb X i r s' Hr Hi Hf.
  pose proof (inv_reachable _ _ Hr (inv_init cap m fo fb)) as HI.
  destruct (inv_sender _ HI i Hi) as (sm & Hs & _ & Hph).
  destruct (send_finish_shape _ _ _ _ Hf)
    as (sm' & c & Hs' & Hsc & -> & _ & _ & _ & _ & _ & _ & _ & Hlog).
  rewrite Hs in Hs'; injection Hs' as <-.
  exists sm; split; [exact Hs|]; split; [exact Hlog|]; split; [reflexivity|].
  rewrite Hlog, dones_of_app; simpl.
  destruct Hph as [(H0 & _)|(_ & _ & _ & Hd)]; [congruence|].
  rewrite Hd; reflexivity.
Qed.

(** ** Instances of the claims on the sample runs *)

Lemma done_post_path_releases_once_witness :
  current sample_inflight = Some 0%nat /\
  semaphore (mem sample_inflight 0) = None /\
  exists s', pa_asyncmsgq_done 70 sample_inflight = Ok (tt, s') /\
             current s' = None /\ q s' = [1%nat].
Proof.
  assert (H1 : current sample_inflight = Some 0%nat) by reflexivity.
  assert (H2 : semaphore (mem sample_inflight 0) = None) by reflexivity.
  destruct (done_post_path_releases_once sample_inflight 0 70 H1 H2)
    as (s' & E & Hc & _ & _ & _ & _ & _ & Hq & _).
  refine (conj H1 (conj H2 (ex_intro _ s' (conj E (conj Hc _))))).
  rewrite Hq; reflexivity.
Defined.

Lemma send_path_never_releases_witness :
  send_start (Some 5%nat) 3 0 0 None sample_msgq = Ok (0%nat, sample_sent) /\
  objref sample_sent = objref sample_msgq /\ log sample_sent = [] /\
  current sample_sent_got = Some 0%nat /\
  semaphore (mem sample_sent_got 0) = Some 0%nat /\
  pa_asyncmsgq_done 30 sample_sent_got = Ok (tt, sample_replied).
Proof.
  assert (H : send_start (Some 5%nat) 3 0 0 None sample_msgq = Ok (0%nat, sample_sent))
    by reflexivity.
  destruct send_path_never_releases as (P1 & P2 & _).
  destruct (P1 _ _ _ _ _ _ _ _ H) as (Ho & _ & _ & Hl & _).
  assert (Hc : current sample_sent_got = Some 0%nat) by reflexivity.
  assert (Hs : semaphore (mem sample_sent_got 0) = Some 0%nat) by reflexivity.
  refine (conj H (conj Ho (conj Hl (conj Hc (conj Hs _))))).
  rewrite (P2 sample_sent_got 0%nat 0%nat 30 Hc Hs); reflexivity.
Defined.

Lemma consumer_state_machine_witness :
  current sample_inflight <> None /\
  pa_asyncmsgq_get all_ptrs outvals_undef true sample_inflight = Abort /\
  current sample_msgq = None /\ q sample_msgq = [] /\
  pa_asyncmsgq_get all_ptrs outvals_undef false sample_msgq =
    Ok ((-1, outvals_undef), sample_msgq) /\
  current sample_posted = None /\
  pa_asyncmsgq_done 0 sample_posted = Abort.
Proof.
  destruct consumer_state_machine as (P1 & P2 & _ & P4 & _).
  assert (Hc : current sample_inflight <> None) by discriminate.
  assert (Hc0 : current sample_msgq = None) by reflexivity.
  assert (Hq0 : q sample_msgq = []) by reflexivity.
  assert (Hc1 : current sample_posted = None) by reflexivity.
  exact (conj Hc (conj (P1 sample_inflight all_ptrs outvals_undef true eq_refl Hc)
          (conj Hc0 (conj Hq0 (conj (P2 sample_msgq all_ptrs outvals_undef eq_refl Hc0 Hq0)
          (conj Hc1 (P4 sample_posted 0 Hc1))))))).
Defined.

Lemma wait_for_dispatches_through_code_witness :
  current sample_posted = None /\
  pa_asyncmsgq_wait_for sample_process_msg 2 sample_posted =
    Ok (0, state_of (pa_asyncmsgq_wait_for sample_process_msg 2 sample_posted)
                    sample_posted) /\
  take_through (fun i => code (mem sample_posted i) =? 2) (q sample_posted) =
    Some ([0%nat; 1%nat], []).
Proof.
  assert (Hc : current sample_posted = None) by reflexivity.
  assert (Hw : pa_asyncmsgq_wait_for sample_process_msg 2 sample_posted =
    Ok (0, state_of (pa_asyncmsgq_wait_for sample_process_msg 2 sample_posted)
                    sample_posted)) by (vm_compute; reflexivity).
  destruct (wait_for_dispatches_through_code sample_process_msg sample_posted 2 Hc)
    as (P1 & _ & _).
  destruct (P1 _ _ Hw) as (_ & pre & rest & Ht & _).
  refine (conj Hc (conj Hw _)).
  rewrite Ht; vm_compute in Ht; injection Ht as <- <-; reflexivity.
Defined.

Lemma post_enqueues_witness :
  (length (q sample_msgq) < q_cap sample_msgq)%nat /\
  exists s', pa_asyncmsgq_post (Some 5%nat) 7 9 42 (Some sample_chunk) (Some 11%nat)
               sample_msgq = Ok (tt, s') /\
             q s' = [0%nat] /\ objref s' 5%nat = 2 /\ blockref s' 3%nat = 2.
Proof.
  assert (Hl : (length (q sample_msgq) < q_cap sample_msgq)%nat) by (simpl; lia).
  assert (Hb : forall ch, Some sample_chunk = Some ch -> memblock ch <> None)
    by (intros ch E; injection E as <-; discriminate).
  destruct (proj1 post_enqueues sample_msgq (Some 5%nat) 7 9%nat 42 (Some sample_chunk)
              (Some 11%nat) Hb Hl)
    as (s' & E & _ & Hq & _ & _ & Ho & Hbl & _).
  refine (conj Hl (ex_intro _ s' (conj E _))).
  rewrite Hq, Ho, Hbl; vm_compute; repeat split.
Defined.

Lemma get_null_outptrs_witness :
  current sample_posted = None /\ q sample_posted = [0%nat; 1%nat] /\
  objref sample_posted 5 = 2 /\
  exists s',
    pa_asyncmsgq_get (mkOutptrs true true false true false) outvals_undef false
      sample_posted =
      Ok ((0, {| v_object := Some 5%nat; v_code := 7; v_userdata := O; v_offset := 42;
                 v_chunk := memchunk_reset |}), s') /\
    current s' = Some 0%nat /\ q s' = [1%nat].
Proof.
  assert (Hc : current sample_posted = None) by reflexivity.
  assert (Hq : q sample_posted = [0%nat; 1%nat]) by reflexivity.
  assert (Hr : objref sample_posted 5 = 2) by (vm_compute; reflexivity).
  destruct (proj1 (proj2 get_null_outptrs) sample_posted (mkOutptrs true true false true false)
              outvals_undef false 0%nat [1%nat] eq_refl Hc Hq)
    as (s' & E & Hc' & Hq').
  { intros _ ob Ho; vm_compute in Ho; injection Ho as <-; rewrite Hr; lia. }
  exact (conj Hc (conj Hq (conj Hr (ex_intro _ s' (conj E (conj Hc' Hq')))))).
Defined.

Lemma free_drains_and_releases_witness :
  (forall i, In i (q sample_posted) -> semaphore (mem sample_posted i) = None) /\
  exists s', pa_asyncmsgq_free sample_posted = Ok (tt, s') /\ q s' = [] /\
    log s' = [EvObjRef 5; EvBlockRef 3; EvObjUnref 5; EvBlockUnref 3; EvFreeCb 11 9;
              EvAsyncqFree; EvMutexFree; EvMsgqFree].
Proof.
  assert (H : forall i, In i (q sample_posted) -> semaphore (mem sample_posted i) = None)
    by (intros i Hi; vm_compute in Hi; destruct Hi as [<-|[<-|[]]]; reflexivity).
  destruct (proj1 free_drains_and_releases sample_posted H) as (s' & E & Hq & Hl).
  refine (conj H (ex_intro _ s' (conj E (conj Hq _)))).
  rewrite Hl; reflexivity.
Defined.

Lemma cb_follows_drain_idiom_witness :
  asyncmsgq_cb_run sample_process_msg 0 1 sample_env 10 CB_Entry sample_posted =
    Ok (([CAfterPoll; CGet false 0; CDispatch 70; CDone 70; CGet false 0;
          CDispatch 0; CDone 0; CGet false (-1); CBeforePoll 0], CB_Return),
        state_of (asyncmsgq_cb_run sample_process_msg 0 1 sample_env 10 CB_Entry
                    sample_posted) sample_posted) /\
  idiom_run I_Start [CAfterPoll; CGet false 0; CDispatch 70; CDone 70; CGet false 0;
                     CDispatch 0; CDone 0; CGet false (-1); CBeforePoll 0] = Some I_Return.
Proof.
  assert (H : asyncmsgq_cb_run sample_process_msg 0 1 sample_env 10 CB_Entry sample_posted =
    Ok (([CAfterPoll; CGet false 0; CDispatch 70; CDone 70; CGet false 0;
          CDispatch 0; CDone 0; CGet false (-1); CBeforePoll 0], CB_Return),
        state_of (asyncmsgq_cb_run sample_process_msg 0 1 sample_env 10 CB_Entry
                    sample_posted) sample_posted)) by (vm_compute; reflexivity).
  exact (conj H (proj1 (cb_follows_drain_idiom _ _ _ _ _ _ _ _ _ H))).
Defined.

Lemma send_returns_done_value_witness :
  reachable (mkSys (msgq_init 4 sample_mem (fun _ => 1) (fun _ => 1)) [])
            (mkSys sample_replied [0%nat]) /\
  send_finish 0 sample_replied =
    Ok (30, state_of (send_finish 0 sample_replied) sample_replied) /\
  dones_of 0 (log (state_of (send_finish 0 sample_replied) sample_replied)) = [30].
Proof.
  assert (Hr : reachable (mkSys (msgq_init 4 sample_mem (fun _ => 1) (fun _ => 1)) [])
                         (mkSys sample_replied [0%nat])).
  { apply (reach_step _ (Act_send (Some 5%nat) 3 0 0 None) (mkSys sample_sent [0%nat]));
      [apply step_send; reflexivity|].
    apply (reach_step _ (Act_get false) (mkSys sample_sent_got [0%nat]));
      [eapply step_get; reflexivity|].
    apply (reach_step _ (Act_done 30) (mkSys sample_replied [0%nat]));
      [apply step_done; reflexivity|].
    apply reach_refl. }
  assert (Hf : send_finish 0 sample_replied =
    Ok (30, state_of (send_finish 0 sample_replied) sample_replied)) by reflexivity.
  destruct (send_returns_done_value 4 sample_mem (fun _ => 1) (fun _ => 1)
              (mkSys sample_replied [0%nat]) 0 30 _ Hr (or_introl eq_refl) Hf)
    as (sm & _ & _ & _ & Hd).
  exact (conj Hr (conj Hf Hd)).
Defined.

(** ** Further properties of the code *)

(** X1: in every system reachable from a fresh queue, every heap record
    allocated so far (an address below [next_ptr] without reply semaphore,
    that is not the stack item of a send) is on the free list, pending
    (queued or being processed) or given to [pa_xfree]; no record is on the
    free list and pending, nor twice in either; and the free list holds at
    most [FLIST_SIZE] records. *)
Theorem records_owned_once : forall cap m fo fb Y,
  reachable (mkSys (msgq_init cap m fo fb) []) Y ->
  NoDup (flist (st Y) ++ pending (st Y)) /\ (length (flist (st Y)) <= FLIST_SIZE)%nat /\
  (forall i, (i < next_ptr (st Y))%nat -> semaphore (mem (st Y) i) = None ->
     In i (flist (st Y) ++ pending (st Y)) \/ In (EvXfree i) (log (st Y))).
Proof.
  intros cap m fo fb Y H; pose proof (own_from_init _ _ _ _ _ H) as O.
  split; [exact (own_nodup _ _ _ O)|split; [exact (own_flist_len _ _ _ O)|]].
  intros i Hi Hs.
  destruct (covered_reachable _ _ H (covered_init cap m fo fb) i Hi) as [Ho|[Hx|Hsm]];
    [left; exact Ho|right; exact Hx|exfalso; exact (Hsm Hs)].
Qed.

(** X2: a record given to [pa_xfree] by [pa_asyncmsgq_done] is afterwards
    neither on the free list, nor pending, nor the item of a pending
    [pa_asyncmsgq_send]. *)
Theorem xfreed_record_not_reused : forall cap m fo fb Y i,
  reachable (mkSys (msgq_init cap m fo fb) []) Y ->
  In (EvXfree i) (log (st Y)) ->
  ~ In i (flist (st Y) ++ pending (st Y)) /\ ~ In i (senders Y).
Proof.
  intros cap m fo fb Y i H Hx; pose proof (own_from_init _ _ _ _ _ H) as O.
  split; [exact (proj2 (own_xfree _ _ _ O i Hx))|].
  intros Hs; exact (own_sender_xfree _ _ _ O i Hs Hx).
Qed.

(** X3: no record is given to [pa_xfree] twice. *)
Theorem xfree_at_most_once : forall cap m fo fb Y,
  reachable (mkSys (msgq_init cap m fo fb) []) Y ->
  NoDup (xfreed (log (st Y))).
Proof.
  intros cap m fo fb Y H.
  apply (xfree_once_reachable fo fb _ _ H (inv_init cap m fo fb) (own_init cap m fo fb)).
  constructor.
Qed.

(** X4: the reference count of every object (memblock) is its initial
    count plus the number of pending posted items that hold it:
    [pa_asyncmsgq_post] takes one reference, the post path of
    [pa_asyncmsgq_done] drops it, sends take none. *)
Theorem refcounts_match_pending : forall cap m fo fb Y,
  reachable (mkSys (msgq_init cap m fo fb) []) Y ->
  (forall ob, objref (st Y) ob = fo ob + count_items (is_post_of ob) (mem (st Y)) (pending (st Y))) /\
  (forall b, blockref (st Y) b = fb b + count_items (is_post_block b) (mem (st Y)) (pending (st Y))).
Proof.
  intros cap m fo fb Y H; pose proof (own_from_init _ _ _ _ _ H) as O.
  exact (conj (own_objref _ _ _ O) (own_blockref _ _ _ O)).
Qed.

(** X5: a pending [pa_asyncmsgq_send] waits on its semaphore exactly as
    long as no [pa_asyncmsgq_done] of its item has been made, and its wait
    never fails an assertion. *)
Theorem sender_blocked_until_done : forall cap m fo fb X i,
  reachable (mkSys (msgq_init cap m fo fb) []) X ->
  In i (senders X) ->
  (send_finish i (st X) = Blocked <-> dones_of i (log (st X)) = []) /\
  send_finish i (st X) <> Abort.
Proof.
  intros cap m fo fb X i Hr Hi.
  pose proof (inv_reachable _ _ Hr (inv_init cap m fo fb)) as HI.
  destruct (inv_sender _ HI i Hi) as (sm & Hs & _ & Hph).
  destruct (send_finish_sem _ _ _ Hs) as [Hb Ha]; split; [|exact Ha].
  rewrite Hb; destruct Hph as [(H0 & Hd & _)|(H1 & _ & _ & Hd)].
  - rewrite H0, Hd; split; reflexivity.
  - rewrite H1, Hd; split; discriminate.
Qed.

(** X6: when [asyncmsgq_cb] returns, the queue is empty and no item is
    being processed, whatever the producers (which do not touch [current])
    posted meanwhile. *)
Theorem cb_return_leaves_queue_empty : forall process_msg fd events env n s tr s',
  (forall k s0 s1, env k s0 = Ok (tt, s1) -> current s1 = current s0) ->
  asyncmsgq_cb_run process_msg fd events env n CB_Entry s = Ok ((tr, CB_Return), s') ->
  q s' = [] /\ current s' = None.
Proof.
  intros process_msg fd events env n s tr s' Henv H.
  apply (cb_run_state _ _ _ _ Henv n CB_Entry s tr s' H); discriminate.
Qed.

(** X7: [asyncmsgq_cb] never blocks itself: it gets with [wait = 0], and
    its completions, [before_poll] and [after_poll] do not wait. *)
Theorem cb_never_blocks : forall process_msg fd events env n pc s,
  (forall k s0, env k s0 <> Blocked) ->
  asyncmsgq_cb_run process_msg fd events env n pc s <> Blocked.
Proof.
  intros process_msg fd events env n pc s Henv.
  exact (cb_run_nb_gen process_msg fd events env Henv n pc s).
Qed.

(** X8: [pa_asyncmsgq_get] on a queued item whose object has no reference
    left fails its [pa_msgobject_assert_ref] exactly when the caller asked
    for the object. *)
Theorem get_asserts_object_ref : forall s p o wait i rest ob,
  p_code p = true -> current s = None -> q s = i :: rest ->
  object (mem s i) = Some ob -> objref s ob <= 0 ->
  (pa_asyncmsgq_get p o wait s = Abort <-> p_object p = true).
Proof.
  intros s p o wait i rest ob Hp Hc Hq Ho Hr.
  destruct s as [m np ql cap fd cur fl sms ns fo fb lg]; simpl in *; subst cur ql.
  unfold pa_asyncmsgq_get; munfold; simpl; rewrite Hp; simpl.
  destruct (p_object p); simpl; [rewrite Ho; simpl|].
  - destruct (Z.ltb_spec 0 (fo ob)) as [Hlt|_]; [lia|]; split; reflexivity.
  - split; discriminate.
Qed.

(** X9: on an idle empty queue, [pa_asyncmsgq_get] returns exactly the
    code, object, userdata, offset and chunk (or the reset chunk) given to
    the preceding [pa_asyncmsgq_post], and the item is then being
    processed. *)
Theorem post_get_roundtrip : forall s obj c ud off chunk cb,
  current s = None -> q s = [] -> (0 < q_cap s)%nat ->
  (forall ob, obj = Some ob -> 0 <= objref s ob) ->
  (forall ch, chunk = Some ch -> memblock ch <> None) ->
  exists s1 s2,
    pa_asyncmsgq_post obj c ud off chunk cb s = Ok (tt, s1) /\
    pa_asyncmsgq_get all_ptrs outvals_undef false s1 =
      Ok ((0, {| v_object := obj; v_code := c; v_userdata := ud; v_offset := off;
                 v_chunk := match chunk with Some ch => ch | None => memchunk_reset end |}),
          s2) /\
    q s2 = [] /\ current s2 = Some (match flist s with j :: _ => j | [] => next_ptr s end).
Proof.
  intros s obj c ud off chunk cb Hc Hq Hcap Ho Hb.
  destruct (post_ok s obj c ud off chunk cb) as [s1 E1]; [rewrite Hq; exact Hcap|exact Hb|].
  pose proof (post_effect _ _ _ _ _ _ _ _ E1) as P; cbv zeta in P.
  destruct P as (Pfl & Pnp & Pm & Pq & Pc & Po & Pb & Pl).
  set (y := match flist s with j :: _ => j | [] => next_ptr s end) in *.
  rewrite Hq in Pq; simpl in Pq.
  destruct (get_pop s1 outvals_undef false y [])
    as (s2 & E2 & Gq & Gc & _).
  { rewrite Pc; exact Hc. }
  { exact Pq. }
  { intros ob E; rewrite Pm, upd_eq in E; simpl in E; subst obj.
    rewrite Po, upd_eq; specialize (Ho ob eq_refl); lia. }
  rewrite Pm, upd_eq in E2; simpl in E2.
  exists s1, s2; split; [exact E1|split; [exact E2|split; assumption]].
Qed.

(** X10: on an idle empty queue, post, get and done leave the queue empty
    and idle, restore every reference count, put the record back on the
    free list, and log the references taken, the completion and the
    releases (free callback, object, memblock) in that order. *)
Theorem post_get_done_neutral : forall s obj c ud off chunk cb r,
  current s = None -> q s = [] -> (0 < q_cap s)%nat ->
  (length (flist s) <= FLIST_SIZE)%nat ->
  (forall ob, obj = Some ob -> 0 <= objref s ob) ->
  (forall ch, chunk = Some ch -> memblock ch <> None) ->
  exists s3,
    (pa_asyncmsgq_post obj c ud off chunk cb ;;;
     ro <- pa_asyncmsgq_get all_ptrs outvals_undef false;;
     pa_asyncmsgq_done r) s = Ok (tt, s3) /\
    q s3 = [] /\ current s3 = None /\
    (forall ob, objref s3 ob = objref s ob) /\ (forall b, blockref s3 b = blockref s b) /\
    flist s3 = match flist s with j :: _ => j | [] => next_ptr s end :: tl (flist s) /\
    log s3 = log s ++
      (match obj with Some ob => [EvObjRef ob] | None => [] end ++
       match option_map memblock chunk with Some (Some b) => [EvBlockRef b] | _ => [] end) ++
      [EvDone (match flist s with j :: _ => j | [] => next_ptr s end) r] ++
      (match cb with Some f => [EvFreeCb f ud] | None => [] end ++
       match obj with Some ob => [EvObjUnref ob] | None => [] end ++
       match option_map memblock chunk with Some (Some b) => [EvBlockUnref b] | _ => [] end).
Proof.
  intros s obj c ud off chunk cb r Hc Hq Hcap Hfl Ho Hb.
  destruct (post_get_done_cycle_gen s obj c ud off chunk cb r Hc Hq Hcap Hfl Ho Hb)
    as (s1 & s2 & s3 & E1 & E2 & _ & _ & E3 & Hq3 & Hc3 & Ho3 & Hb3 & Hfl3 & Hl3).
  exists s3; split.
  { unfold mbind at 1; rewrite E1; unfold mbind; rewrite E2; exact E3. }
  repeat split; assumption.
Qed.

(** X11: [pa_asyncmsgq_free] on a reachable queue with no pending send and
    no item being processed completes, empties the queue and brings every
    object and memblock reference count back to its initial value. *)
Theorem free_releases_queue_refs : forall cap m fo fb Y,
  reachable (mkSys (msgq_init cap m fo fb) []) Y ->
  senders Y = [] -> current (st Y) = None ->
  exists s', pa_asyncmsgq_free (st Y) = Ok (tt, s') /\ q s' = [] /\
    (forall ob, objref s' ob = fo ob) /\ (forall b, blockref s' b = fb b).
Proof.
  intros cap m fo fb Y H Hs Hc.
  pose proof (inv_reachable _ _ H (inv_init cap m fo fb)) as HI.
  pose proof (own_from_init _ _ _ _ _ H) as O.
  destruct (msgq_free_refs (st Y)) as (s' & E & Hq & Ho & Hb).
  { intros i Hi; apply (inv_nonsender_sem _ HI i (or_introl Hi)); rewrite Hs; intros []. }
  assert (Hp : pending (st Y) = q (st Y))
    by (unfold pending, cur_list; rewrite Hc; apply app_nil_r).
  exists s'; split; [exact E|split; [exact Hq|split]].
  - intro ob; rewrite Ho, (own_objref _ _ _ O), Hp; lia.
  - intro b; rewrite Hb, (own_blockref _ _ _ O), Hp; lia.
Qed.

(** X12: after [pa_core_check_quit], no quit timer is armed when there are
    clients; one is armed when there are none and the exit idle time is
    non-negative; with no timer and a negative exit idle time nothing
    changes. *)
Theorem check_quit_timer_state : forall c m c' m',
  pa_core_check_quit c m = (c', m') ->
  ((0 < n_clients c)%nat -> quit_event c' = None) /\
  (n_clients c = O -> 0 <= exit_idle_time c -> quit_event c' <> None) /\
  (quit_event c = None -> exit_idle_time c < 0 -> c' = c /\ m' = m).
Proof.
  intros c m c' m' H; unfold pa_core_check_quit in H.
  destruct c as [qe eit mit sit n mp ev]; simpl in *.
  destruct (Z.leb_spec 0 eit) as [Hle|Hlt];
    [destruct (0 <=? eit) eqn:E; [|apply Z.leb_gt in E; lia]
    |destruct (0 <=? eit) eqn:E; [apply Z.leb_le in E; lia|]];
    destruct qe as [e|]; destruct n as [|n]; simpl in H;
    injection H as <- <-; simpl; repeat split; try lia; try discriminate;
    intros; exfalso; lia.
Qed.

(** X13: calling [pa_core_check_quit] a second time changes neither the
    core nor the main loop. *)
Theorem check_quit_idempotent : forall c m,
  pa_core_check_quit (fst (pa_core_check_quit c m)) (snd (pa_core_check_quit c m)) =
  pa_core_check_quit c m.
Proof.
  intros c m; destruct c as [qe eit mit sit n mp ev].
  unfold pa_core_check_quit; simpl.
  destruct (0 <=? eit) eqn:E; destruct qe as [e|]; destruct n as [|n]; simpl;
    rewrite ?E; reflexivity.
Qed.

(** X14: [pa_core_new] returns NULL exactly when both the shared pool (if
    asked for) and the private pool fail, and the pool of a returned core
    is the shared one when that succeeded, the private one otherwise. *)
Theorem core_new_pool_fallback : forall mp cap items fo fb m shared,
  (pa_core_new mp cap items fo fb m shared = Ok None <->
     (shared <> 0 -> mp shared = None) /\ mp 0 = None) /\
  (forall c a m', pa_core_new mp cap items fo fb m shared = Ok (Some (c, a, m')) ->
     (shared <> 0 /\ mp shared = Some (mempool c)) \/
     ((shared = 0 \/ mp shared = None) /\ mp 0 = Some (mempool c))).
Proof.
  intros mp cap items fo fb m shared; rewrite core_new_cases.
  destruct (Z.eqb_spec shared 0) as [->|Hs]; simpl.
  - destruct (mp 0) as [p|]; split.
    + split; [discriminate|intros [_ H]; discriminate].
    + intros c a m' H; injection H as <- <- <-; right; split; [left|]; reflexivity.
    + split; [intros _; split; [intros H; exfalso; apply H|]|intros _]; reflexivity.
    + intros c a m' H; discriminate.
  - destruct (mp shared) as [p|]; [|destruct (mp 0) as [p|]];
      split.
    + split; [discriminate|intros [H _]; specialize (H Hs); discriminate].
    + intros c a m' H; injection H as <- <- <-; left; split; [exact Hs|reflexivity].
    + split; [discriminate|intros [_ H]; discriminate].
    + intros c a m' H; injection H as <- <- <-; right; split; [right|]; reflexivity.
    + split; [intros _; split; [intros _|]|intros _]; reflexivity.
    + intros c a m' H; discriminate.
Qed.

(** X15: a core returned by [pa_core_new] has no quit timer, an exit idle
    time of -1 (so [pa_core_check_quit] does nothing on it), an empty idle
    message queue, and a single new main loop call: the watcher of the
    queue's fd for input. *)
Theorem core_new_fresh : forall mp cap items fo fb m shared c a m' m2,
  pa_core_new mp cap items fo fb m shared = Ok (Some (c, a, m')) ->
  quit_event c = None /\ exit_idle_time c = -1 /\ pa_core_check_quit c m2 = (c, m2) /\
  q a = [] /\ current a = None /\
  ml_calls m' = ml_calls m ++ [MLIoNew (asyncmsgq_event c) (q_fd a) PA_IO_EVENT_INPUT].
Proof.
  intros mp cap items fo fb m shared c a m' m2 H; rewrite core_new_cases in H.
  destruct (if shared =? 0 then mp 0 else match mp shared with Some p => Some p | None => mp 0 end);
    [|discriminate].
  injection H as <- <- <-; repeat split.
Qed.

(** ** Instances of the further properties *)

Lemma records_owned_once_witness :
  reachable (mkSys (msgq_init 200 sample_mem (fun _ => 1) (fun _ => 1)) []) sample_churn /\
  NoDup (flist (st sample_churn) ++ pending (st sample_churn)) /\
  (length (flist (st sample_churn)) <= FLIST_SIZE)%nat /\
  (forall i, (i < next_ptr (st sample_churn))%nat -> semaphore (mem (st sample_churn) i) = None ->
     In i (flist (st sample_churn) ++ pending (st sample_churn)) \/
     In (EvXfree i) (log (st sample_churn))).
Proof.
  assert (H : reachable (mkSys (msgq_init 200 sample_mem (fun _ => 1) (fun _ => 1)) [])
                        sample_churn) by (apply sys_final_reachable; vm_compute; reflexivity).
  exact (conj H (records_owned_once _ _ _ _ _ H)).
Defined.

Lemma xfreed_record_not_reused_witness :
  reachable (mkSys (msgq_init 200 sample_mem (fun _ => 1) (fun _ => 1)) []) sample_churn /\
  In (EvXfree 128) (log (st sample_churn)) /\
  ~ In 128%nat (flist (st sample_churn) ++ pending (st sample_churn)) /\
  ~ In 128%nat (senders sample_churn).
Proof.
  assert (H : reachable (mkSys (msgq_init 200 sample_mem (fun _ => 1) (fun _ => 1)) [])
                        sample_churn) by (apply sys_final_reachable; vm_compute; reflexivity).
  assert (Hx : In (EvXfree 128) (log (st sample_churn))).
  { apply (proj1 (in_xfreed 128 (log (st sample_churn)))); vm_compute; left; reflexivity. }
  exact (conj H (conj Hx (xfreed_record_not_reused _ _ _ _ _ _ H Hx))).
Defined.

Lemma xfree_at_most_once_witness :
  reachable (mkSys (msgq_init 200 sample_mem (fun _ => 1) (fun _ => 1)) []) sample_churn /\
  xfreed (log (st sample_churn)) = [128%nat] /\
  NoDup (xfreed (log (st sample_churn))).
Proof.
  assert (H : reachable (mkSys (msgq_init 200 sample_mem (fun _ => 1) (fun _ => 1)) [])
                        sample_churn) by (apply sys_final_reachable; vm_compute; reflexivity).
  assert (Hx : xfreed (log (st sample_churn)) = [128%nat]) by (vm_compute; reflexivity).
  exact (conj H (conj Hx (xfree_at_most_once _ _ _ _ _ H))).
Defined.

Lemma refcounts_match_pending_witness :
  reachable (mkSys (msgq_init 4 sample_mem (fun _ => 1) (fun _ => 1)) []) sample_mixed /\
  objref (st sample_mixed) 5 = 2 /\ blockref (st sample_mixed) 3 = 2 /\
  objref (st sample_mixed) 5 =
    1 + count_items (is_post_of 5) (mem (st sample_mixed)) (pending (st sample_mixed)).
Proof.
  assert (H : reachable (mkSys (msgq_init 4 sample_mem (fun _ => 1) (fun _ => 1)) [])
                        sample_mixed) by (apply sys_final_reachable; vm_compute; reflexivity).
  split; [exact H|split; [vm_compute; reflexivity|split; [vm_compute; reflexivity|]]].
  exact (proj1 (refcounts_match_pending _ _ _ _ _ H) 5%nat).
Defined.

Lemma sender_blocked_until_done_witness :
  reachable (mkSys (msgq_init 4 sample_mem (fun _ => 1) (fun _ => 1)) []) sample_mixed /\
  In 0%nat (senders sample_mixed) /\ dones_of 0 (log (st sample_mixed)) = [30] /\
  (send_finish 0 (st sample_mixed) = Blocked <-> dones_of 0 (log (st sample_mixed)) = []) /\
  send_finish 0 (st sample_mixed) <> Abort.
Proof.
  assert (H : reachable (mkSys (msgq_init 4 sample_mem (fun _ => 1) (fun _ => 1)) [])
                        sample_mixed) by (apply sys_final_reachable; vm_compute; reflexivity).
  assert (Hi : In 0%nat (senders sample_mixed)) by (vm_compute; left; reflexivity).
  split; [exact H|split; [exact Hi|split; [vm_compute; reflexivity|]]].
  exact (sender_blocked_until_done _ _ _ _ _ _ H Hi).
Defined.

Lemma cb_return_leaves_queue_empty_witness :
  asyncmsgq_cb_run sample_process_msg 0 1 sample_env 10 CB_Entry sample_posted =
    Ok (([CAfterPoll; CGet false 0; CDispatch 70; CDone 70; CGet false 0;
          CDispatch 0; CDone 0; CGet false (-1); CBeforePoll 0], CB_Return),
        state_of (asyncmsgq_cb_run sample_process_msg 0 1 sample_env 10 CB_Entry
                    sample_posted) sample_posted) /\
  q (state_of (asyncmsgq_cb_run sample_process_msg 0 1 sample_env 10 CB_Entry
                 sample_posted) sample_posted) = [] /\
  current (state_of (asyncmsgq_cb_run sample_process_msg 0 1 sample_env 10 CB_Entry
                       sample_posted) sample_posted) = None.
Proof.
  assert (H : asyncmsgq_cb_run sample_process_msg 0 1 sample_env 10 CB_Entry sample_posted =
    Ok (([CAfterPoll; CGet false 0; CDispatch 70; CDone 70; CGet false 0;
          CDispatch 0; CDone 0; CGet false (-1); CBeforePoll 0], CB_Return),
        state_of (asyncmsgq_cb_run sample_process_msg 0 1 sample_env 10 CB_Entry
                    sample_posted) sample_posted)) by (vm_compute; reflexivity).
  exact (conj H (cb_return_leaves_queue_empty _ _ _ _ _ _ _ _ sample_env_current H)).
Defined.

Lemma cb_never_blocks_witness :
  (forall k s0, (fun _ : nat => mret tt) k s0 <> Blocked) /\
  asyncmsgq_cb_run sample_process_msg 0 1 (fun _ => mret tt) 3 CB_Entry sample_posted
    <> Blocked.
Proof.
  assert (H : forall k s0, (fun _ : nat => mret tt) k s0 <> Blocked)
    by (intros k s0; unfold mret; discriminate).
  exact (conj H (cb_never_blocks _ _ _ _ 3 CB_Entry sample_posted H)).
Defined.

Lemma get_asserts_object_ref_witness :
  q sample_dropped = [0%nat; 1%nat] /\ object (mem sample_dropped 0) = Some 5%nat /\
  (pa_asyncmsgq_get all_ptrs outvals_undef false sample_dropped = Abort <->
   p_object all_ptrs = true).
Proof.
  assert (Hq : q sample_dropped = [0%nat; 1%nat]) by (vm_compute; reflexivity).
  assert (Ho : object (mem sample_dropped 0) = Some 5%nat) by (vm_compute; reflexivity).
  split; [exact Hq|split; [exact Ho|]].
  apply (get_asserts_object_ref sample_dropped all_ptrs outvals_undef false 0 [1%nat] 5 eq_refl);
    [vm_compute; reflexivity|exact Hq|exact Ho|vm_compute; discriminate].
Defined.

Lemma post_get_roundtrip_witness :
  exists s1 s2,
    pa_asyncmsgq_post (Some 5%nat) 7 9 42 (Some sample_chunk) (Some 11%nat) sample_msgq =
      Ok (tt, s1) /\
    pa_asyncmsgq_get all_ptrs outvals_undef false s1 =
      Ok ((0, {| v_object := Some 5%nat; v_code := 7; v_userdata := 9; v_offset := 42;
                 v_chunk := sample_chunk |}), s2) /\
    q s2 = [] /\ current s2 = Some 0%nat.
Proof.
  apply (post_get_roundtrip sample_msgq (Some 5%nat) 7 9 42 (Some sample_chunk) (Some 11%nat));
    [reflexivity|reflexivity|vm_compute; lia
    |intros ob E; injection E as <-; vm_compute; discriminate
    |intros ch E; injection E as <-; discriminate].
Defined.

Lemma post_get_done_neutral_witness :
  exists s3,
    (pa_asyncmsgq_post (Some 5%nat) 7 9 42 (Some sample_chunk) (Some 11%nat) ;;;
     ro <- pa_asyncmsgq_get all_ptrs outvals_undef false;;
     pa_asyncmsgq_done 70) sample_msgq = Ok (tt, s3) /\
    q s3 = [] /\ current s3 = None /\
    (forall ob, objref s3 ob = 1) /\ (forall b, blockref s3 b = 1) /\
    flist s3 = [0%nat] /\
    log s3 = [EvObjRef 5; EvBlockRef 3; EvDone 0 70; EvFreeCb 11 9; EvObjUnref 5;
              EvBlockUnref 3].
Proof.
  destruct (post_get_done_neutral sample_msgq (Some 5%nat) 7 9 42 (Some sample_chunk)
              (Some 11%nat) 70)
    as (s3 & E & Hq & Hc & Ho & Hb & Hf & Hl);
    [reflexivity|reflexivity|vm_compute; lia|vm_compute; lia
    |intros ob E; injection E as <-; vm_compute; discriminate
    |intros ch E; injection E as <-; discriminate|].
  exists s3; repeat split; try assumption.
Defined.

Lemma free_releases_queue_refs_witness :
  reachable (mkSys (msgq_init 4 sample_mem (fun _ => 1) (fun _ => 1)) []) sample_posts /\
  q (st sample_posts) = [0%nat; 1%nat] /\ objref (st sample_posts) 5 = 2 /\
  exists s', pa_asyncmsgq_free (st sample_posts) = Ok (tt, s') /\ q s' = [] /\
    (forall ob, objref s' ob = 1) /\ (forall b, blockref s' b = 1).
Proof.
  assert (H : reachable (mkSys (msgq_init 4 sample_mem (fun _ => 1) (fun _ => 1)) [])
                        sample_posts) by (apply sys_final_reachable; vm_compute; reflexivity).
  split; [exact H|split; [vm_compute; reflexivity|split; [vm_compute; reflexivity|]]].
  exact (free_releases_queue_refs _ _ _ _ _ H ltac:(vm_compute; reflexivity)
           ltac:(vm_compute; reflexivity)).
Defined.

Lemma check_quit_timer_state_witness :
  pa_core_check_quit sample_core sample_loop =
    (set_quit_event sample_core (Some 1%nat),
     {| ml_now_sec := 100; ml_now_usec := 250; ml_next := 2;
        ml_calls := [MLTimeNew 1 105 250] |}) /\
  quit_event (set_quit_event sample_core (Some 1%nat)) <> None.
Proof.
  assert (H : pa_core_check_quit sample_core sample_loop =
    (set_quit_event sample_core (Some 1%nat),
     {| ml_now_sec := 100; ml_now_usec := 250; ml_next := 2;
        ml_calls := [MLTimeNew 1 105 250] |})) by reflexivity.
  split; [exact H|].
  exact (proj1 (proj2 (check_quit_timer_state _ _ _ _ H)) eq_refl ltac:(cbn; lia)).
Defined.

Lemma core_new_fresh_witness :
  pa_core_new (fun _ => Some 7%nat) 4 sample_mem (fun _ => 1) (fun _ => 1) sample_loop 1 =
    Ok (Some ({| quit_event := None; exit_idle_time := -1; module_idle_time := 20;
                 scache_idle_time := 20; n_clients := O; mempool := 7;
                 asyncmsgq_event := 1 |},
              msgq_init 4 sample_mem (fun _ => 1) (fun _ => 1),
              {| ml_now_sec := 100; ml_now_usec := 250; ml_next := 2;
                 ml_calls := [MLIoNew 1 0 PA_IO_EVENT_INPUT] |})) /\
  pa_core_check_quit
    {| quit_event := None; exit_idle_time := -1; module_idle_time := 20;
       scache_idle_time := 20; n_clients := O; mempool := 7; asyncmsgq_event := 1 |}
    sample_loop =
  ({| quit_event := None; exit_idle_time := -1; module_idle_time := 20;
      scache_idle_time := 20; n_clients := O; mempool := 7; asyncmsgq_event := 1 |},
   sample_loop).
Proof.
  assert (H : pa_core_new (fun _ => Some 7%nat) 4 sample_mem (fun _ => 1) (fun _ => 1)
                sample_loop 1 =
    Ok (Some ({| quit_event := None; exit_idle_time := -1; module_idle_time := 20;
                 scache_idle_time := 20; n_clients := O; mempool := 7;
                 asyncmsgq_event := 1 |},
              msgq_init 4 sample_mem (fun _ => 1) (fun _ => 1),
              {| ml_now_sec := 100; ml_now_usec := 250; ml_next := 2;
                 ml_calls := [MLIoNew 1 0 PA_IO_EVENT_INPUT] |})))
    by (rewrite core_new_cases; reflexivity).
  split; [exact H|].
  exact (proj1 (proj2 (proj2 (core_new_fresh _ _ _ _ _ _ _ _ _ _ sample_loop H)))).
Defined.
